(** * Four-player platformer: simulation core

    A shallow embedding of the simulation logic of
    [src/components/four-player-platformer.tsx] and the properties its
    specification states about it.

    Modelling conventions

    - A JavaScript [number] that holds a tile index, an actor identity or a
      counter is a [Z]; a [number] that holds a world coordinate, a speed
      or a timestamp is an exact rational [Q] (the real-number reading of
      the IEEE doubles of the source; no property below depends on
      rounding).
    - A one-character tile symbol read from the grid is an [option ascii]:
      [None] is JavaScript's [undefined] (reading a string past its end).
    - A row of the grid (a JavaScript string) is a [list ascii].
    - [Map<string, PlateState>] keyed by ["x,y"] is a [gmap (Z * Z)]; the
      key format is injective on pairs of integers.  [Set<string>] of key
      names is a [gset string].
    - [performance.now()] is an input: every function that reads the
      clock takes the reading as its argument [now], and the readings made
      during one update of one frame are the same instant.
    - The React state [paused], [won] and [deaths] are fields of the state
      record, written at the call of their setter.
    - Sound cues and the spawning of particles are presentation only and
      are left out of the simulation step; none of them is read back by the
      simulation.  The particle array and the colour parser are modelled on
      their own.  The canvas is taken to be present.
    - A function of the source that can raise a TypeError returns an
      [option]; [None] is the error. *)

From Stdlib Require Import ZArith QArith Qround Qabs Qminmax Lqa.
From Stdlib Require Import Ascii String List Lia.
From stdpp Require Import base gmap strings list sorting fin_maps fin_sets.

#[local] Open Scope Z_scope.

(** ** Data model *)

Record Vec2 := mkVec2 { vec_x : Q; vec_y : Q }.

Record KeyBinding := mkKeyBinding {
  kb_left : string; kb_right : string; kb_jump : string; kb_action : string }.

Module Level.
Record t := mk {
  tiles : list (list ascii);
  w : Z;
  h : Z;
  tileSize : Q;
  doorOpen : bool }.

Definition with_tiles (ts : list (list ascii)) (l : t) : t :=
  mk ts (w l) (h l) (tileSize l) (doorOpen l).
Definition with_doorOpen (b : bool) (l : t) : t :=
  mk (tiles l) (w l) (h l) (tileSize l) b.
End Level.

Record TempPlatform := mkTempPlatform { tp_tx : Z; tp_ty : Z; expiresAt : Q }.

Record PlateState := mkPlateState {
  pl_tx : Z; pl_ty : Z; pressed : bool; pressTime : Q }.

(** ** Constants *)

Definition TILE : Q := 32.
Definition GRAVITY : Q := 1800.
Definition MOVE_SPEED : Q := 280.
Definition JUMP_SPEED : Q := 700.
Definition MAX_FALL : Q := 1200.
Definition FRICTION : Q := 85 # 100.
Definition AIR_DRAG : Q := 99 # 100.
Definition SWIM_SPEED : Q := 180.
Definition SWIM_UP_FORCE : Q := 1800.
Definition SWIM_MAX_UP : Q := -260.
Definition SWIM_MAX_DOWN : Q := 420.
Definition WATER_DRAG_X : Q := 92 # 100.
Definition DASH_SPEED : Q := 900.
Definition DASH_DURATION : Q := 18 # 100.
Definition DASH_COOLDOWN : Q := 3.
Definition EARTH_COOLDOWN : Q := 4.

(** ** Utilities *)

Definition Qltb (a b : Q) : bool := negb (Qle_bool b a).

Definition clamp (v lo hi : Q) : Q := Qmax lo (Qmin hi v).

Record Rect := mkRect { r_x : Q; r_y : Q; r_w : Q; r_h : Q }.

Definition rectIntersect (a b : Rect) : bool :=
  negb (Qle_bool (r_x a + r_w a) (r_x b)
        || Qle_bool (r_x b + r_w b) (r_x a)
        || Qle_bool (r_y a + r_h a) (r_y b)
        || Qle_bool (r_y b + r_h b) (r_y a)).

Definition worldToTile (x y tileSize : Q) : Z * Z :=
  (Qfloor (x / tileSize), Qfloor (y / tileSize)).

(** [str.substring(0, index) + char + str.substring(index + 1)]:
    [substring] clamps its bounds to the string, so an index at or past the
    end appends the character. *)
Definition replaceChar (str : list ascii) (index : Z) (char : ascii) : list ascii :=
  take (Z.to_nat index) str ++ [char] ++ drop (Z.to_nat (index + 1)) str.

(** ** Tile semantics *)

(** [ch === "c"] on a symbol that may be [undefined]. *)
Definition is_ch (ch : option ascii) (c : ascii) : bool :=
  bool_decide (ch = Some c).

Definition isSolid (ch : option ascii) (doorOpen : bool) : bool :=
  if is_ch ch "#" then true
  else if is_ch ch "Z" then negb doorOpen
  else if is_ch ch "b" then true
  else if is_ch ch "X" then true
  else false.

Definition isPlate (ch : option ascii) : bool := is_ch ch "P".

Definition isColoredHole (ch : option ascii) : bool :=
  is_ch ch "f" || is_ch ch "a" || is_ch ch "e" || is_ch ch "n".

Definition safePlayerForColoredHole (ch : option ascii) : option Z :=
  if is_ch ch "f" then Some 1
  else if is_ch ch "a" then Some 2
  else if is_ch ch "e" then Some 3
  else if is_ch ch "n" then Some 4
  else None.

Definition isLiquidForPlayer (ch : option ascii) (playerId : Z) : bool :=
  if is_ch ch "W" then true
  else if isColoredHole ch
       then bool_decide (safePlayerForColoredHole ch = Some playerId)
  else false.

Definition isHazardFor (ch : option ascii) (playerId : Z) : bool :=
  if is_ch ch "~" then true
  else if is_ch ch "O" then true
  else if isColoredHole ch
       then negb (bool_decide (safePlayerForColoredHole ch = Some playerId))
  else false.

(** ** Grid access *)

Definition outOfBounds (level : Level.t) (tx ty : Z) : bool :=
  (ty <? 0) || (ty >=? Level.h level) || (tx <? 0) || (tx >=? Level.w level).

(** [level.tiles[ty][tx]].  A row shorter than [w] yields [undefined]
    ([None]).  A missing row would raise in the source; it cannot occur,
    since [h] is the number of rows from creation on (see [level_wf]). *)
Definition tileAt (level : Level.t) (tx ty : Z) : option ascii :=
  if outOfBounds level tx ty then Some "#"%char
  else match Level.tiles level !! Z.to_nat ty with
       | Some row => row !! Z.to_nat tx
       | None => None
       end.

Definition setTile (level : Level.t) (tx ty : Z) (ch : ascii) : Level.t :=
  if outOfBounds level tx ty then level
  else match Level.tiles level !! Z.to_nat ty with
       | Some row =>
           Level.with_tiles
             (<[Z.to_nat ty := replaceChar row tx ch]> (Level.tiles level)) level
       | None => level
       end.

Definition solidAt (level : Level.t) (x y : Q) : bool :=
  let '(tx, ty) := worldToTile x y (Level.tileSize level) in
  isSolid (tileAt level tx ty) (Level.doorOpen level).

Definition tileCharAt (level : Level.t) (x y : Q) : option ascii :=
  let '(tx, ty) := worldToTile x y (Level.tileSize level) in
  tileAt level tx ty.

(** The number of rows is [h]; established by [createLevel] and kept by
    every operation (rows are replaced in place, never added or removed). *)
Definition level_wf (level : Level.t) : Prop :=
  0 <= Level.h level /\ length (Level.tiles level) = Z.to_nat (Level.h level).

(** A rectangular grid: every row has exactly [w] symbols. *)
Definition level_rect (level : Level.t) : Prop :=
  level_wf level /\ 0 <= Level.w level /\
  Forall (fun row => length row = Z.to_nat (Level.w level)) (Level.tiles level).

(** The actor record.  [name] and [color] are presentation only and are
    left out.  [with_f v p] is the assignment [p.f = v]. *)
Module Player.
Record t := mk {
  id : Z;
  spawn : Vec2;
  pos : Vec2;
  vel : Vec2;
  w : Q;
  h : Q;
  onGround : bool;
  jumpLock : bool;
  alive : bool;
  exitReached : bool;
  controls : KeyBinding;
  facing : Z;
  maxAirJumps : Z;
  airJumpsLeft : Z;
  isDashing : bool;
  dashUntil : Q;
  dashCooldownUntil : Q;
  abilityCooldownUntil : Q;
  nextStepFxTime : Q }.

Definition with_pos (v : Vec2) (p : t) : t :=
  mk (id p) (spawn p) v (vel p) (w p) (h p) (onGround p) (jumpLock p)
     (alive p) (exitReached p) (controls p) (facing p) (maxAirJumps p)
     (airJumpsLeft p) (isDashing p) (dashUntil p) (dashCooldownUntil p)
     (abilityCooldownUntil p) (nextStepFxTime p).
Definition with_vel (v : Vec2) (p : t) : t :=
  mk (id p) (spawn p) (pos p) v (w p) (h p) (onGround p) (jumpLock p)
     (alive p) (exitReached p) (controls p) (facing p) (maxAirJumps p)
     (airJumpsLeft p) (isDashing p) (dashUntil p) (dashCooldownUntil p)
     (abilityCooldownUntil p) (nextStepFxTime p).
Definition with_onGround (v : bool) (p : t) : t :=
  mk (id p) (spawn p) (pos p) (vel p) (w p) (h p) v (jumpLock p) (alive p)
     (exitReached p) (controls p) (facing p) (maxAirJumps p)
     (airJumpsLeft p) (isDashing p) (dashUntil p) (dashCooldownUntil p)
     (abilityCooldownUntil p) (nextStepFxTime p).
Definition with_jumpLock (v : bool) (p : t) : t :=
  mk (id p) (spawn p) (pos p) (vel p) (w p) (h p) (onGround p) v (alive p)
     (exitReached p) (controls p) (facing p) (maxAirJumps p)
     (airJumpsLeft p) (isDashing p) (dashUntil p) (dashCooldownUntil p)
     (abilityCooldownUntil p) (nextStepFxTime p).
Definition with_alive (v : bool) (p : t) : t :=
  mk (id p) (spawn p) (pos p) (vel p) (w p) (h p) (onGround p) (jumpLock p)
     v (exitReached p) (controls p) (facing p) (maxAirJumps p)
     (airJumpsLeft p) (isDashing p) (dashUntil p) (dashCooldownUntil p)
     (abilityCooldownUntil p) (nextStepFxTime p).
Definition with_exitReached (v : bool) (p : t) : t :=
  mk (id p) (spawn p) (pos p) (vel p) (w p) (h p) (onGround p) (jumpLock p)
     (alive p) v (controls p) (facing p) (maxAirJumps p) (airJumpsLeft p)
     (isDashing p) (dashUntil p) (dashCooldownUntil p)
     (abilityCooldownUntil p) (nextStepFxTime p).
Definition with_facing (v : Z) (p : t) : t :=
  mk (id p) (spawn p) (pos p) (vel p) (w p) (h p) (onGround p) (jumpLock p)
     (alive p) (exitReached p) (controls p) v (maxAirJumps p)
     (airJumpsLeft p) (isDashing p) (dashUntil p) (dashCooldownUntil p)
     (abilityCooldownUntil p) (nextStepFxTime p).
Definition with_airJumpsLeft (v : Z) (p : t) : t :=
  mk (id p) (spawn p) (pos p) (vel p) (w p) (h p) (onGround p) (jumpLock p)
     (alive p) (exitReached p) (controls p) (facing p) (maxAirJumps p) v
     (isDashing p) (dashUntil p) (dashCooldownUntil p)
     (abilityCooldownUntil p) (nextStepFxTime p).
Definition with_isDashing (v : bool) (p : t) : t :=
  mk (id p) (spawn p) (pos p) (vel p) (w p) (h p) (onGround p) (jumpLock p)
     (alive p) (exitReached p) (controls p) (facing p) (maxAirJumps p)
     (airJumpsLeft p) v (dashUntil p) (dashCooldownUntil p)
     (abilityCooldownUntil p) (nextStepFxTime p).
Definition with_dashUntil (v : Q) (p : t) : t :=
  mk (id p) (spawn p) (pos p) (vel p) (w p) (h p) (onGround p) (jumpLock p)
     (alive p) (exitReached p) (controls p) (facing p) (maxAirJumps p)
     (airJumpsLeft p) (isDashing p) v (dashCooldownUntil p)
     (abilityCooldownUntil p) (nextStepFxTime p).
Definition with_dashCooldownUntil (v : Q) (p : t) : t :=
  mk (id p) (spawn p) (pos p) (vel p) (w p) (h p) (onGround p) (jumpLock p)
     (alive p) (exitReached p) (controls p) (facing p) (maxAirJumps p)
     (airJumpsLeft p) (isDashing p) (dashUntil p) v
     (abilityCooldownUntil p) (nextStepFxTime p).
Definition with_abilityCooldownUntil (v : Q) (p : t) : t :=
  mk (id p) (spawn p) (pos p) (vel p) (w p) (h p) (onGround p) (jumpLock p)
     (alive p) (exitReached p) (controls p) (facing p) (maxAirJumps p)
     (airJumpsLeft p) (isDashing p) (dashUntil p) (dashCooldownUntil p) v
     (nextStepFxTime p).
Definition with_nextStepFxTime (v : Q) (p : t) : t :=
  mk (id p) (spawn p) (pos p) (vel p) (w p) (h p) (onGround p) (jumpLock p)
     (alive p) (exitReached p) (controls p) (facing p) (maxAirJumps p)
     (airJumpsLeft p) (isDashing p) (dashUntil p) (dashCooldownUntil p)
     (abilityCooldownUntil p) v.
End Player.

(** ** Level creation *)

Definition LEVEL_MAP : list (list ascii) :=
  map list_ascii_of_string [
  "########################################";
  "#.................P....................#";
  "#.................#....................#";
  "#.................#.............bbbb...#";
  "#.................#....................#";
  "#...........#######....................#";
  "#..................#...................#";
  "#.............~~~~~#...................#";
  "#..................#...................#";
  "#...........######Z######..............#";
  "#..................#....#..............#";
  "#......###.........#....#..............#";
  "#..................#..................#";
  "#.1....O..O...2....#....#..............#";
  "#......#####.......#....#..............#";
  "#..................#..................#";
  "#...........######Z######..............#";
  "#..................#...................#";
  "#.....OOOOOO.......#........fane..b....#";
  "#..................#...................#";
  "#......###.........#...................#";
  "#..................#..................#";
  "#...3.........4....P...##OO..A.B.C...D.#";
  "########################################"
  ]%string.

(** [LEVEL_MAP[0].length]; the map is not empty. *)
Definition createLevel : Level.t :=
  Level.mk LEVEL_MAP
           (Z.of_nat (length (default [] (LEVEL_MAP !! 0%nat))))
           (Z.of_nat (length LEVEL_MAP)) TILE false.

(** ** Abilities *)

(** *** Fire: break *)

Definition fireCandidates (level : Level.t) (p : Player.t) : list (Z * Z) :=
  let aheadX := (vec_x (Player.pos p)
                 + inject_Z (Player.facing p) * (Player.w p / 2 + 4))%Q in
  let aheadY := vec_y (Player.pos p) in
  let '(tx1, ty1) := worldToTile aheadX aheadY (Level.tileSize level) in
  let '(tx2, ty2) :=
    worldToTile (vec_x (Player.pos p)) (vec_y (Player.pos p))
                (Level.tileSize level) in
  [(tx1, ty1); (tx2, ty2); (tx2, ty2 + 1); (tx2, ty2 - 1)].

(** Body of the loop over the candidates. *)
Definition breakTile (level : Level.t) (c : Z * Z) : Level.t :=
  let ch := tileAt level c.1 c.2 in
  if is_ch ch "b" || is_ch ch "X" then setTile level c.1 c.2 "." else level.

Definition holdsPlatform (level : Level.t) (tp : TempPlatform) : Prop :=
  tileAt level (tp_tx tp) (tp_ty tp) = Some "X"%char.

#[global] Instance holdsPlatform_dec level tp : Decision (holdsPlatform level tp).
Proof. unfold holdsPlatform. apply _. Defined.

Definition doFireAction (level : Level.t) (reg : list TempPlatform)
    (p : Player.t) : Level.t * list TempPlatform :=
  let level' := foldl breakTile level (fireCandidates level p) in
  (level', filter (holdsPlatform level') reg).

(** *** Water: flood fill *)

(** The 3x3 window around a tile, in the order of the two nested loops
    ([dy] outer, [dx] inner). *)
Definition window3x3 (tx ty : Z) : list (Z * Z) :=
  [(tx - 1, ty - 1); (tx, ty - 1); (tx + 1, ty - 1);
   (tx - 1, ty);     (tx, ty);     (tx + 1, ty);
   (tx - 1, ty + 1); (tx, ty + 1); (tx + 1, ty + 1)].

Definition dirs8 : list (Z * Z) :=
  [(-1, -1); (0, -1); (1, -1); (-1, 0); (1, 0); (-1, 1); (0, 1); (1, 1)].

Definition maxFill : Z := 2000.

Definition isDarkHole (level : Level.t) (c : Z * Z) : bool :=
  is_ch (tileAt level c.1 c.2) "O".

Definition waterSeeds (level : Level.t) (p : Player.t) : list (Z * Z) :=
  let start :=
    worldToTile (vec_x (Player.pos p)) (vec_y (Player.pos p))
                (Level.tileSize level) in
  List.filter (isDarkHole level) (window3x3 start.1 start.2).

(** The state of the fill loop: the level, the queue [q], the set [seen]
    and [convertedCount]. *)
Record Fill := mkFill {
  f_level : Level.t;
  f_q : list (Z * Z);
  f_seen : gset (Z * Z);
  f_count : Z }.

(** Body of the loop over [dirs8] for the tile [(tx, ty)] just converted. *)
Definition visitNeighbor (level : Level.t) (tx ty : Z)
    (acc : list (Z * Z) * gset (Z * Z)) (d : Z * Z)
    : list (Z * Z) * gset (Z * Z) :=
  let n := (tx + d.1, ty + d.2) in
  if negb (bool_decide (n ∈ acc.2)) && isDarkHole level n
  then (acc.1 ++ [n], {[n]} ∪ acc.2)
  else acc.

(** One iteration of [while (q.length && convertedCount < maxFill)];
    [None] when the loop condition fails. *)
Definition fillStep (s : Fill) : option Fill :=
  match f_q s with
  | [] => None
  | c :: q' =>
      if f_count s <? maxFill then
        if isDarkHole (f_level s) c then
          let level' := setTile (f_level s) c.1 c.2 "W" in
          let qs := foldl (visitNeighbor level' c.1 c.2) (q', f_seen s) dirs8 in
          Some (mkFill level' qs.1 qs.2 (f_count s + 1))
        else Some (mkFill (f_level s) q' (f_seen s) (f_count s))
      else None
  end.

Fixpoint fillLoop (fuel : nat) (s : Fill) : Fill :=
  match fuel with
  | O => s
  | S fuel' => match fillStep s with
               | Some s' => fillLoop fuel' s'
               | None => s
               end
  end.

(** Each iteration removes one queue entry and each conversion adds at most
    eight, so the loop runs at most [length q + 8 * maxFill] times
    ([fillLoop_exits] below shows that this fuel is never exhausted). *)
Definition fillFuel (q : list (Z * Z)) : nat :=
  (length q + 8 * Z.to_nat maxFill)%nat.

Definition doWaterAction (level : Level.t) (p : Player.t) : Level.t :=
  let seeds := waterSeeds level p in
  match seeds with
  | [] => level
  | _ => f_level (fillLoop (fillFuel seeds)
                           (mkFill level seeds (list_to_set seeds) 0))
  end.

(** *** Earth: temporary platform *)

Definition canPlace (level : Level.t) (tx ty : Z) : bool :=
  let ch := tileAt level tx ty in
  is_ch ch "." || is_ch ch "O" || is_ch ch "W" || isColoredHole ch.

(** The tile chosen by the placement, if any ([placedAt]). *)
Definition earthTarget (level : Level.t) (p : Player.t) : option (Z * Z) :=
  let under :=
    worldToTile (vec_x (Player.pos p))
                (vec_y (Player.pos p) + Player.h p / 2 + 4)%Q
                (Level.tileSize level) in
  let ahead :=
    worldToTile (vec_x (Player.pos p)
                 + inject_Z (Player.facing p) * (Player.w p / 2 + 8))%Q
                (vec_y (Player.pos p)) (Level.tileSize level) in
  if canPlace level under.1 under.2 then Some under
  else if canPlace level ahead.1 ahead.2 then Some ahead
  else None.

(** [tempPlatforms.length > 12]: drop the oldest entry and clear its tile. *)
Definition evictOldest (level : Level.t) (reg : list TempPlatform)
    : Level.t * list TempPlatform :=
  if (12 <? Z.of_nat (length reg)) then
    match reg with
    | oldest :: rest => (setTile level (tp_tx oldest) (tp_ty oldest) ".", rest)
    | [] => (level, reg)
    end
  else (level, reg).

(** Returns the new level and registry and whether a platform was placed.
    [now] is the reading of the clock taken at the start of the call. *)
Definition doEarthAction (now : Q) (level : Level.t)
    (reg : list TempPlatform) (p : Player.t)
    : Level.t * list TempPlatform * bool :=
  match earthTarget level p with
  | Some c =>
      let level1 := setTile level c.1 c.2 "X" in
      let reg1 := reg ++ [mkTempPlatform c.1 c.2 (now + 7000)%Q] in
      let '(level2, reg2) := evictOldest level1 reg1 in
      (level2, reg2, true)
  | None => (level, reg, false)
  end.

(** ** Physics and collision *)

Definition half (v : Q) : Q := (v / 2)%Q.

(** Horizontal pass of [moveAndCollide]: the new [x] and [vel.x]. *)
Definition collideX (level : Level.t) (p : Player.t) (nx : Q) : Q * Q :=
  let halfW := half (Player.w p) in
  let halfH := half (Player.h p) in
  let py := vec_y (Player.pos p) in
  let velx := vec_x (Player.vel p) in
  if Qltb 0 velx then
    if solidAt level (nx + halfW) (py - halfH)
       || solidAt level (nx + halfW) (py + halfH - 1)
    then
      let tx := Qfloor ((nx + halfW) / Level.tileSize level) in
      (inject_Z tx * Level.tileSize level - halfW - (1 # 100), 0)%Q
    else (nx, velx)
  else if Qltb velx 0 then
    if solidAt level (nx - halfW) (py - halfH)
       || solidAt level (nx - halfW) (py + halfH - 1)
    then
      let tx := Qfloor ((nx - halfW) / Level.tileSize level) + 1 in
      (inject_Z tx * Level.tileSize level + halfW + (1 # 100), 0)%Q
    else (nx, velx)
  else (nx, velx).

Definition moveAndCollide (level : Level.t) (p : Player.t) (dt : Q)
    : Player.t :=
  let nx0 := (vec_x (Player.pos p) + vec_x (Player.vel p) * dt)%Q in
  let ny0 := (vec_y (Player.pos p) + vec_y (Player.vel p) * dt)%Q in
  let halfW := half (Player.w p) in
  let halfH := half (Player.h p) in
  (* Horizontal collision *)
  let '(nx, velx) := collideX level p nx0 in
  let p := Player.with_vel (mkVec2 velx (vec_y (Player.vel p))) p in
  (* Vertical collision *)
  let p := Player.with_onGround false p in
  let vely := vec_y (Player.vel p) in
  let '(ny, p) :=
    if Qltb 0 vely then
      if solidAt level (nx - halfW + 1) (ny0 + halfH)
         || solidAt level (nx + halfW - 1) (ny0 + halfH)
      then
        let ty := Qfloor ((ny0 + halfH) / Level.tileSize level) in
        ((inject_Z ty * Level.tileSize level - halfH - (1 # 100))%Q,
         Player.with_airJumpsLeft (Player.maxAirJumps p)
           (Player.with_jumpLock false
              (Player.with_onGround true
                 (Player.with_vel (mkVec2 (vec_x (Player.vel p)) 0) p))))
      else (ny0, p)
    else if Qltb vely 0 then
      if solidAt level (nx - halfW + 1) (ny0 - halfH)
         || solidAt level (nx + halfW - 1) (ny0 - halfH)
      then
        let ty := Qfloor ((ny0 - halfH) / Level.tileSize level) + 1 in
        ((inject_Z ty * Level.tileSize level + halfH + (1 # 100))%Q,
         Player.with_vel (mkVec2 (vec_x (Player.vel p)) 0) p)
      else (ny0, p)
    else (ny0, p) in
  Player.with_pos (mkVec2 nx ny) p.

(** ** Shared simulation state

    The mutable references the per-actor update reads and writes: the level,
    the plate map, the ephemeral platform registry, the previous state of
    each actor's action key, the pending double-tap events and the death
    counter. *)
Module World.
Record t := mk {
  level : Level.t;
  plates : gmap (Z * Z) PlateState;
  tempPlatforms : list TempPlatform;
  prevActionDown : gmap Z bool;
  doubleTap : gset string;
  deaths : Z }.

Definition with_level (v : Level.t) (s : t) : t :=
  mk v (plates s) (tempPlatforms s) (prevActionDown s) (doubleTap s) (deaths s).
Definition with_plates (v : gmap (Z * Z) PlateState) (s : t) : t :=
  mk (level s) v (tempPlatforms s) (prevActionDown s) (doubleTap s) (deaths s).
Definition with_tempPlatforms (v : list TempPlatform) (s : t) : t :=
  mk (level s) (plates s) v (prevActionDown s) (doubleTap s) (deaths s).
Definition with_prevActionDown (v : gmap Z bool) (s : t) : t :=
  mk (level s) (plates s) (tempPlatforms s) v (doubleTap s) (deaths s).
Definition with_doubleTap (v : gset string) (s : t) : t :=
  mk (level s) (plates s) (tempPlatforms s) (prevActionDown s) v (deaths s).
Definition with_deaths (v : Z) (s : t) : t :=
  mk (level s) (plates s) (tempPlatforms s) (prevActionDown s) (doubleTap s) v.
End World.

(** [set.has(key)] *)
Definition has (s : gset string) (k : string) : bool := bool_decide (k ∈ s).

(** ** Pressure plates *)

(** Body of the loop over the two candidate tiles. *)
Definition pressPlateAt (now : Q) (level : Level.t)
    (m : gmap (Z * Z) PlateState) (c : Z * Z) : gmap (Z * Z) PlateState :=
  if is_ch (tileAt level c.1 c.2) "P" then
    match m !! c with
    | Some st =>
        if negb (pressed st)
        then <[c := mkPlateState (pl_tx st) (pl_ty st) true now]> m
        else m
    | None => m
    end
  else m.

Definition pressPlateIfStanding (now : Q) (level : Level.t)
    (m : gmap (Z * Z) PlateState) (p : Player.t) : gmap (Z * Z) PlateState :=
  let center :=
    worldToTile (vec_x (Player.pos p)) (vec_y (Player.pos p))
                (Level.tileSize level) in
  let feet :=
    worldToTile (vec_x (Player.pos p))
                (vec_y (Player.pos p) + Player.h p / 2 + 2)%Q
                (Level.tileSize level) in
  foldl (pressPlateAt now level) m [center; feet].

(** The sample point 1 unit below the actor's feet. *)
Definition standsOnPlate (level : Level.t) (p : Player.t) : bool :=
  isPlate (tileCharAt level (vec_x (Player.pos p))
                      (vec_y (Player.pos p) + Player.h p / 2 + 1)%Q).

Definition countOnPlates (level : Level.t) (players : list Player.t) : Z :=
  foldl (fun onPlates p => if standsOnPlate level p then onPlates + 1
                           else onPlates) 0 players.

Definition updateDoorOpen (level : Level.t) (players : list Player.t)
    : Level.t :=
  Level.with_doorOpen (2 <=? countOnPlates level players) level.

(** ** Component state *)

(** The state of the component: the shared simulation state, the actors,
    the React state [paused] and [won], the time of the last frame and the
    state of the two dialogs. *)
Module Game.
Record t := mk {
  world : World.t;
  players : list Player.t;
  paused : bool;
  won : bool;
  lastTime : Q;
  modalCount : Z;
  pausedBeforeModal : bool;
  showSettings : bool;
  showHelp : bool }.

Definition with_sim (s : World.t) (ps : list Player.t) (g : t) : t :=
  mk s ps (paused g) (won g) (lastTime g) (modalCount g)
     (pausedBeforeModal g) (showSettings g) (showHelp g).
Definition with_paused (v : bool) (g : t) : t :=
  mk (world g) (players g) v (won g) (lastTime g) (modalCount g)
     (pausedBeforeModal g) (showSettings g) (showHelp g).
Definition with_won (v : bool) (g : t) : t :=
  mk (world g) (players g) (paused g) v (lastTime g) (modalCount g)
     (pausedBeforeModal g) (showSettings g) (showHelp g).
Definition with_lastTime (v : Q) (g : t) : t :=
  mk (world g) (players g) (paused g) (won g) v (modalCount g)
     (pausedBeforeModal g) (showSettings g) (showHelp g).
Definition with_modalCount (v : Z) (g : t) : t :=
  mk (world g) (players g) (paused g) (won g) (lastTime g) v
     (pausedBeforeModal g) (showSettings g) (showHelp g).
Definition with_pausedBeforeModal (v : bool) (g : t) : t :=
  mk (world g) (players g) (paused g) (won g) (lastTime g) (modalCount g)
     v (showSettings g) (showHelp g).
Definition with_showSettings (v : bool) (g : t) : t :=
  mk (world g) (players g) (paused g) (won g) (lastTime g) (modalCount g)
     (pausedBeforeModal g) v (showHelp g).
Definition with_showHelp (v : bool) (g : t) : t :=
  mk (world g) (players g) (paused g) (won g) (lastTime g) (modalCount g)
     (pausedBeforeModal g) (showSettings g) v.
End Game.

(** ** Per-actor update *)

Section Simulation.

(** [Math.hypot], which is not rational-valued, is a parameter; it is used
    only to normalise the dash direction. *)
Variable hypot : Q -> Q -> Q.

(** The exit tiles of each actor, computed once from the initial level by
    [findSpawnsAndExits]; every actor identity has an entry. *)
Variable exits : gmap Z (list Vec2).

(** *** Wind dash *)

Definition tryStartWindDash (now : Q) (pressed : gset string)
    (dtap : gset string) (p : Player.t) : Player.t * gset string :=
  if negb (bool_decide (Player.id p = 4)) then (p, dtap) else
  let left := kb_left (Player.controls p) in
  let right := kb_right (Player.controls p) in
  let jump := kb_jump (Player.controls p) in
  if Qltb now (Player.dashCooldownUntil p) then
    (p, dtap ∖ {[left]} ∖ {[right]} ∖ {[jump]})
  else if Player.isDashing p then (p, dtap)
  else
    match List.find (has dtap) [left; right; jump] with
    | None => (p, dtap)
    | Some tappedKey =>
        if bool_decide (tappedKey = ""%string) then (p, dtap) else
        let dtap := dtap ∖ {[tappedKey]} in
        let dx : Z := if bool_decide (tappedKey = left) then -1
                      else if bool_decide (tappedKey = right) then 1 else 0 in
        let dy : Z := if bool_decide (tappedKey = jump) then -1 else 0 in
        let dx := if has pressed left then dx - 1 else dx in
        let dx := if has pressed right then dx + 1 else dx in
        let dy := if has pressed jump then dy - 1 else dy in
        let len := hypot (inject_Z dx) (inject_Z dy) in
        let '(dx, dy) :=
          if Qeq_bool len 0 then (inject_Z (Player.facing p), 0%Q)
          else (inject_Z dx / len, inject_Z dy / len)%Q in
        (Player.with_vel (mkVec2 (dx * DASH_SPEED) (dy * DASH_SPEED))
           (Player.with_dashCooldownUntil (now + DASH_COOLDOWN * 1000)
              (Player.with_dashUntil (now + DASH_DURATION * 1000)
                 (Player.with_isDashing true p))),
         dtap)
    end.

(** The block under the comment [Wind dash] of [updatePlayer]. *)
Definition windDash (now : Q) (pressed : gset string) (dtap : gset string)
    (p : Player.t) : Player.t * gset string :=
  if bool_decide (Player.id p = 4) then
    let p := if Player.isDashing p && Qle_bool (Player.dashUntil p) now
             then Player.with_isDashing false p else p in
    if negb (Player.isDashing p) then tryStartWindDash now pressed dtap p
    else (p, dtap)
  else (p, dtap).

(** The block [Horizontal movement]. *)
Definition horizontalMovement (leftDown rightDown inLiquid : bool)
    (p : Player.t) : Player.t :=
  if negb (Player.isDashing p) then
    let speed := if inLiquid then SWIM_SPEED else MOVE_SPEED in
    let vy := vec_y (Player.vel p) in
    if leftDown && negb rightDown then
      Player.with_facing (-1) (Player.with_vel (mkVec2 (- speed) vy) p)
    else if rightDown && negb leftDown then
      Player.with_facing 1 (Player.with_vel (mkVec2 speed vy) p)
    else
      let vx := vec_x (Player.vel p) in
      let vx := if Player.onGround p && negb inLiquid then (vx * FRICTION)%Q
                else (vx * (if inLiquid then WATER_DRAG_X else AIR_DRAG))%Q in
      let vx := if Qltb (Qabs vx) 6 then 0%Q else vx in
      Player.with_vel (mkVec2 vx vy) p
  else p.

(** The block [Vertical physics]. *)
Definition verticalPhysics (jumpDown inLiquid : bool) (dt : Q)
    (p : Player.t) : Player.t :=
  if negb (Player.isDashing p) then
    let vx := vec_x (Player.vel p) in
    let vy := vec_y (Player.vel p) in
    if inLiquid then
      let vy := (vy + GRAVITY * (15 # 100) * dt)%Q in
      let vy := if jumpDown then (vy - SWIM_UP_FORCE * dt)%Q else vy in
      Player.with_vel (mkVec2 vx (clamp vy SWIM_MAX_UP SWIM_MAX_DOWN)) p
    else
      let vy := (vy + GRAVITY * dt)%Q in
      Player.with_vel (mkVec2 vx (clamp vy (- JUMP_SPEED) MAX_FALL)) p
  else p.

(** The block [Jump (on land)]. *)
Definition jumpOnLand (jumpDown inLiquid : bool) (p : Player.t) : Player.t :=
  if negb (Player.isDashing p) && negb inLiquid then
    let p :=
      if jumpDown then
        if Player.onGround p && negb (Player.jumpLock p) then
          Player.with_jumpLock true
            (Player.with_onGround false
               (Player.with_vel
                  (mkVec2 (vec_x (Player.vel p)) (- JUMP_SPEED)) p))
        else if negb (Player.onGround p) && (0 <? Player.airJumpsLeft p) then
          Player.with_airJumpsLeft (Player.airJumpsLeft p - 1)
            (Player.with_vel
               (mkVec2 (vec_x (Player.vel p)) (- JUMP_SPEED * (9 # 10))) p)
        else p
      else p in
    if negb jumpDown && Player.onGround p
    then Player.with_jumpLock false p else p
  else p.

(** *** Hazard contact *)

(** The condition of the hazard check: [centerChar] is the symbol sampled
    at the actor's centre at the start of the update; the feet sample is
    taken at the position after collision resolution. *)
Definition hazardContact (level : Level.t) (centerChar : option ascii)
    (p : Player.t) : bool :=
  let belowChar :=
    tileCharAt level (vec_x (Player.pos p))
               (vec_y (Player.pos p) + Player.h p / 2 + 2)%Q in
  isHazardFor centerChar (Player.id p) || isHazardFor belowChar (Player.id p).

(** The assignments made on hazard contact. *)
Definition respawn (p : Player.t) : Player.t :=
  Player.with_dashUntil 0
    (Player.with_isDashing false
       (Player.with_airJumpsLeft (Player.maxAirJumps p)
          (Player.with_exitReached false
             (Player.with_alive true
                (Player.with_vel (mkVec2 0 0)
                   (Player.with_pos
                      (mkVec2 (vec_x (Player.spawn p)) (vec_y (Player.spawn p)))
                      p)))))).

(** The block [Hazard check]: the actor and the death counter. *)
Definition hazardCheck (level : Level.t) (centerChar : option ascii)
    (p : Player.t) (deaths : Z) : Player.t * Z :=
  if hazardContact level centerChar p then (respawn p, deaths + 1)
  else (p, deaths).

(** *** Ability dispatch *)

(** The block [Abilities], run when the action key was pressed this frame. *)
Definition abilities (now : Q) (level : Level.t) (reg : list TempPlatform)
    (p : Player.t) : Level.t * list TempPlatform * Player.t :=
  if bool_decide (Player.id p = 1) then
    let '(level, reg) := doFireAction level reg p in (level, reg, p)
  else if bool_decide (Player.id p = 2) then
    (doWaterAction level p, reg, p)
  else if bool_decide (Player.id p = 3) then
    if Qle_bool (Player.abilityCooldownUntil p) now then
      let '(level, reg, placed) := doEarthAction now level reg p in
      if placed
      then (level, reg,
            Player.with_abilityCooldownUntil (now + EARTH_COOLDOWN * 1000) p)
      else (level, reg, p)
    else (level, reg, p)
  else (level, reg, p).

(** The block [Step particles]; only the time stamp is simulation state. *)
Definition stepParticles (now : Q) (inLiquid : bool) (p : Player.t)
    : Player.t :=
  if negb inLiquid && Player.onGround p && negb (Player.isDashing p)
     && Qltb 60 (Qabs (vec_x (Player.vel p)))
     && Qle_bool (Player.nextStepFxTime p) now
  then Player.with_nextStepFxTime (now + 90) p
  else p.

(** *** Exit overlap *)

Definition playerRect (p : Player.t) : Rect :=
  mkRect (vec_x (Player.pos p) - Player.w p / 2)
         (vec_y (Player.pos p) - Player.h p / 2) (Player.w p) (Player.h p).

Definition exitRect (level : Level.t) (ex : Vec2) : Rect :=
  mkRect (vec_x ex) (vec_y ex) (Level.tileSize level) (Level.tileSize level).

Definition overlapsExit (level : Level.t) (p : Player.t) (ex : Vec2) : bool :=
  rectIntersect (playerRect p) (exitRect level ex).

(** The block [Exit check]. *)
Definition exitCheck (level : Level.t) (p : Player.t) : Player.t :=
  let exitList := default [] (exits !! Player.id p) in
  Player.with_exitReached (existsb (overlapsExit level p) exitList) p.

(** *** The update of one actor *)

(** The symbol under the actor's centre ([centerChar]), sampled at the
    start of the update. *)
Definition centerCharOf (level : Level.t) (p : Player.t) : option ascii :=
  tileCharAt level (vec_x (Player.pos p)) (vec_y (Player.pos p)).

(** The blocks of [updatePlayer] from [Wind dash] to the call of
    [moveAndCollide]: the actor as collision resolution leaves it, and the
    pending double taps. *)
Definition movePlayer (now : Q) (pressed : gset string) (dt : Q)
    (level : Level.t) (dtap : gset string) (p : Player.t)
    : Player.t * gset string :=
  let c := Player.controls p in
  let leftDown := has pressed (kb_left c) in
  let rightDown := has pressed (kb_right c) in
  let jumpDown := has pressed (kb_jump c) in
  let inLiquid := isLiquidForPlayer (centerCharOf level p) (Player.id p) in
  let '(p, dtap) := windDash now pressed dtap p in
  let p := horizontalMovement leftDown rightDown inLiquid p in
  let p := verticalPhysics jumpDown inLiquid dt p in
  let p := jumpOnLand jumpDown inLiquid p in
  (moveAndCollide level p dt, dtap).

(** [actionDown && !prevAction] *)
Definition justPressedAction (pressed : gset string) (s : World.t)
    (p : Player.t) : bool :=
  let actionDown :=
    if bool_decide (kb_action (Player.controls p) = ""%string) then false
    else has pressed (kb_action (Player.controls p)) in
  let prevAction := default false (World.prevActionDown s !! Player.id p) in
  actionDown && negb prevAction.

(** [updatePlayer], block by block in the order of the source.  [pressed]
    is the set of held keys; all clock readings of one call are the instant
    [now]. *)
Definition updatePlayer (now : Q) (pressed : gset string) (dt : Q)
    (s : World.t) (p : Player.t) : World.t * Player.t :=
  let actionDown :=
    if bool_decide (kb_action (Player.controls p) = ""%string) then false
    else has pressed (kb_action (Player.controls p)) in
  let justPressed := justPressedAction pressed s p in
  let s :=
    World.with_prevActionDown
      (<[Player.id p := actionDown]> (World.prevActionDown s)) s in
  (* Liquids *)
  let centerChar := centerCharOf (World.level s) p in
  let inLiquid := isLiquidForPlayer centerChar (Player.id p) in
  (* Wind dash, movement, physics, jump, collision *)
  let '(p, dtap) :=
    movePlayer now pressed dt (World.level s) (World.doubleTap s) p in
  let s := World.with_doubleTap dtap s in
  (* Plate press check *)
  let s :=
    World.with_plates
      (pressPlateIfStanding now (World.level s) (World.plates s) p) s in
  (* Hazard check *)
  let '(p, deaths) := hazardCheck (World.level s) centerChar p (World.deaths s) in
  let s := World.with_deaths deaths s in
  (* Abilities *)
  let '(s, p) :=
    if justPressed then
      let '(level, reg, p) :=
        abilities now (World.level s) (World.tempPlatforms s) p in
      (World.with_tempPlatforms reg (World.with_level level s), p)
    else (s, p) in
  let p := stepParticles now inLiquid p in
  (s, exitCheck (World.level s) p).

(** ** The simulation step *)

(** Body of the loop of the expiry sweep: an expired entry is dropped and
    its tile cleared if it still holds the platform symbol. *)
Definition expireOne (now : Q) (acc : Level.t * list TempPlatform)
    (tp : TempPlatform) : Level.t * list TempPlatform :=
  if Qle_bool (expiresAt tp) now then
    (if is_ch (tileAt acc.1 (tp_tx tp) (tp_ty tp)) "X"
     then setTile acc.1 (tp_tx tp) (tp_ty tp) "." else acc.1,
     acc.2)
  else (acc.1, acc.2 ++ [tp]).

Definition expirePlatforms (now : Q) (level : Level.t)
    (reg : list TempPlatform) : Level.t * list TempPlatform :=
  foldl (expireOne now) (level, []) reg.

(** [for (const p of players) updatePlayer(level, p, dt)] *)
Fixpoint updatePlayers (now : Q) (pressed : gset string) (dt : Q)
    (s : World.t) (ps : list Player.t) : World.t * list Player.t :=
  match ps with
  | [] => (s, [])
  | p :: rest =>
      let '(s, p') := updatePlayer now pressed dt s p in
      let '(s, rest') := updatePlayers now pressed dt s rest in
      (s, p' :: rest')
  end.

Definition allPlayersAtGates (ps : list Player.t) : bool :=
  forallb Player.exitReached ps.

(** [plates.forEach((st) => { if (!st.pressed) allPlatesPressed = false })] *)
Definition allPlatesPressed (m : gmap (Z * Z) PlateState) : bool :=
  map_fold (fun _ st acc => if negb (pressed st) then false else acc) true m.

(** The simulation part of [loop], run when the game is neither paused nor
    won: expiry sweep, door recompute, actor updates, win check. *)
Definition simulate (now : Q) (pressed : gset string) (dt : Q) (g : Game.t)
    : Game.t :=
  let s := Game.world g in
  let '(level, remaining) :=
    expirePlatforms now (World.level s) (World.tempPlatforms s) in
  let s := World.with_tempPlatforms remaining (World.with_level level s) in
  let s :=
    World.with_level (updateDoorOpen (World.level s) (Game.players g)) s in
  let '(s, ps) := updatePlayers now pressed dt s (Game.players g) in
  let g := Game.with_sim s ps g in
  if allPlayersAtGates ps && allPlatesPressed (World.plates s)
  then Game.with_paused true (Game.with_won true g)
  else g.

(** One animation frame at time [t] (the canvas is present; drawing is left
    out). *)
Definition loop (t now : Q) (pressed : gset string) (g : Game.t) : Game.t :=
  let last := if Qeq_bool (Game.lastTime g) 0 then t else Game.lastTime g in
  let dt := clamp ((t - last) / 1000) 0 (1 # 30) in
  let g := Game.with_lastTime t g in
  if negb (Game.paused g) && negb (Game.won g)
  then simulate now pressed dt g
  else g.

End Simulation.

(** ** Session set-up *)

(** The record built by [mk] inside [createPlayers]. *)
Definition mkPlayer (spawns : Z -> Vec2) (controls : Z -> KeyBinding)
    (id : Z) (maxAirJumps : Z) : Player.t :=
  Player.mk id (mkVec2 (vec_x (spawns id)) (vec_y (spawns id)))
            (mkVec2 (vec_x (spawns id)) (vec_y (spawns id))) (mkVec2 0 0)
            22 28 false false true false (controls id) 1
            maxAirJumps maxAirJumps false 0 0 0 0.

Definition createPlayers (spawns : Z -> Vec2) (controls : Z -> KeyBinding)
    : list Player.t :=
  [mkPlayer spawns controls 1 0; mkPlayer spawns controls 2 0;
   mkPlayer spawns controls 3 0; mkPlayer spawns controls 4 0].

(** The initial key bindings; the Wind actor has no action key. *)
Definition bindings (id : Z) : KeyBinding :=
  if id =? 1 then mkKeyBinding "a" "d" "w" "s"
  else if id =? 2 then mkKeyBinding "j" "l" "i" "k"
  else if id =? 3 then mkKeyBinding "ArrowLeft" "ArrowRight" "ArrowUp" "ArrowDown"
  else mkKeyBinding "z" "c" "x" "".

(** [initPlates]: one unpressed record per plate tile.  The scan visits the
    rows in order and each row from left to right. *)
Definition plateCells (level : Level.t) : list (Z * Z) :=
  List.filter (fun c => is_ch (tileAt level c.1 c.2) "P")
    (y ← seqZ 0 (Level.h level); x ← seqZ 0 (Level.w level); [(x, y)]).

Definition initPlates (level : Level.t) : gmap (Z * Z) PlateState :=
  foldl (fun m c => <[c := mkPlateState c.1 c.2 false 0]> m) ∅
        (plateCells level).

(** The shared state at session start. *)
Definition initWorld (level : Level.t) : World.t :=
  World.mk level (initPlates level) []
           (list_to_map [(1, false); (2, false); (3, false); (4, false)]) ∅ 0.

Definition initGame (level : Level.t) (spawns : Z -> Vec2) : Game.t :=
  Game.mk (initWorld level) (createPlayers spawns bindings)
          false false 0 0 false false false.

(** ** Pause control of the dialogs *)

Inductive Dialog := settings | help.

(** [handleModalOpenChange] as a function of the value [pausedSeen] that the
    identifier [paused] has inside the callback. *)
Definition handleModalOpenChangeWith (pausedSeen : bool) (next : bool)
    (which : Dialog) (g : Game.t) : Game.t :=
  let prevCount := Game.modalCount g in
  let nextCount := prevCount + (if next then 1 else -1) in
  let g := Game.with_modalCount nextCount g in
  let g :=
    if next && (prevCount =? 0)
    then Game.with_paused true (Game.with_pausedBeforeModal pausedSeen g)
    else g in
  let g :=
    if negb next && (nextCount =? 0)
    then Game.with_paused (Game.pausedBeforeModal g) g
    else g in
  match which with
  | settings => Game.with_showSettings next g
  | help => Game.with_showHelp next g
  end.

(** The callback is created by [useCallback(..., [])]: the function of the
    first render is kept for the life of the component, and the [paused] it
    closes over is the state of that render, [useState(false)]. *)
Definition pausedAtMount : bool := false.

Definition handleModalOpenChange (next : bool) (which : Dialog)
    (g : Game.t) : Game.t :=
  handleModalOpenChangeWith pausedAtMount next which g.

(** [setPaused((p) => !p)], bound to P and Escape and to the pause button. *)
Definition togglePause (g : Game.t) : Game.t :=
  Game.with_paused (negb (Game.paused g)) g.

(** A sequence of dialog open and close events. *)
Definition runModalEvents (evs : list (bool * Dialog)) (g : Game.t) : Game.t :=
  foldl (fun g ev => handleModalOpenChange ev.1 ev.2 g) g evs.

(** ** Key input *)

Definition DOUBLE_TAP_WINDOW : Q := 250.

(** The three collections of [useKeySet]: the keys held, the time of the
    last fresh press of each key, and the keys marked as double-tapped.
    [pressed] is the set that the frame reads and [doubleTap] the set that
    the dash consumes. *)
Module Keys.
Record t := mk {
  pressed : gset string;
  lastDown : gmap string Q;
  doubleTap : gset string }.
End Keys.

(** [onDown]: [repeat] is the auto-repeat flag of the event and [now] the
    clock reading.  A key without a recorded press counts as pressed at
    time 0 ([lastDown.get(key) ?? 0]). *)
Definition onDown (key : string) (repeat : bool) (now : Q) (k : Keys.t)
    : Keys.t :=
  let k :=
    if negb repeat then
      let last := default 0%Q (Keys.lastDown k !! key) in
      let k :=
        if Qle_bool (now - last) DOUBLE_TAP_WINDOW
        then Keys.mk (Keys.pressed k) (Keys.lastDown k)
                     (Keys.doubleTap k ∪ {[key]})
        else k in
      Keys.mk (Keys.pressed k) (<[key := now]> (Keys.lastDown k))
              (Keys.doubleTap k)
    else k in
  Keys.mk (Keys.pressed k ∪ {[key]}) (Keys.lastDown k) (Keys.doubleTap k).

(** [onUp] *)
Definition onUp (key : string) (k : Keys.t) : Keys.t :=
  Keys.mk (Keys.pressed k ∖ {[key]}) (Keys.lastDown k) (Keys.doubleTap k).

Inductive KeyEvent :=
  | keydown (key : string) (repeat : bool) (now : Q)
  | keyup (key : string).

Definition onKey (k : Keys.t) (e : KeyEvent) : Keys.t :=
  match e with
  | keydown key repeat now => onDown key repeat now k
  | keyup key => onUp key k
  end.

(** A sequence of keyboard events, oldest first. *)
Definition runKeys (evs : list KeyEvent) (k : Keys.t) : Keys.t :=
  foldl onKey k evs.

(** ** Spawn and gate scan *)

(** The state of [findSpawnsAndExits]: the level, whose spawn tiles are
    cleared on the way, and the two tables being filled. *)
Record Scan := mkScan {
  sc_level : Level.t;
  sc_spawns : gmap Z Vec2;
  sc_exits : gmap Z (list Vec2) }.

(** [c === "1" || ... || c === "4"] with [Number(c)]. *)
Definition spawnDigit (c : option ascii) : option Z :=
  if is_ch c "1" then Some 1
  else if is_ch c "2" then Some 2
  else if is_ch c "3" then Some 3
  else if is_ch c "4" then Some 4
  else None.

(** [c === "A" || ... || c === "D"] with [mapIdx]. *)
Definition gateLetter (c : option ascii) : option Z :=
  if is_ch c "A" then Some 1
  else if is_ch c "B" then Some 2
  else if is_ch c "C" then Some 3
  else if is_ch c "D" then Some 4
  else None.

(** The body of the inner loop at cell [(x, y)].  The symbol is read as
    [level.tiles[y][x]]: a missing row stops the scan with a TypeError
    ([None]); a position past the end of a row reads [undefined] and
    matches neither branch.  The four exit lists exist from the start. *)
Definition scanCell (sc : Scan) (cell : Z * Z) : option Scan :=
  let '(x, y) := cell in
  row ← Level.tiles (sc_level sc) !! Z.to_nat y;
  let c := row !! Z.to_nat x in
  match spawnDigit c with
  | Some idx =>
      Some (mkScan
              (Level.with_tiles
                 (<[Z.to_nat y := replaceChar row x "."]>
                    (Level.tiles (sc_level sc)))
                 (sc_level sc))
              (<[idx := mkVec2 (inject_Z x * TILE + TILE / 2)
                               (inject_Z y * TILE + TILE / 2)]>
                 (sc_spawns sc))
              (sc_exits sc))
  | None =>
      match gateLetter c with
      | Some p =>
          Some (mkScan (sc_level sc) (sc_spawns sc)
                  (<[p := default [] (sc_exits sc !! p)
                          ++ [mkVec2 (inject_Z x * TILE) (inject_Z y * TILE)]]>
                     (sc_exits sc)))
      | None => Some sc
      end
  end.

(** The cells in scan order: row by row, each row from left to right. *)
Definition gridCells (level : Level.t) : list (Z * Z) :=
  y ← seqZ 0 (Level.h level); x ← seqZ 0 (Level.w level); [(x, y)].

Fixpoint scanCells (sc : Scan) (cells : list (Z * Z)) : option Scan :=
  match cells with
  | [] => Some sc
  | cell :: rest => sc ← scanCell sc cell; scanCells sc rest
  end.

Definition findSpawnsAndExits (level : Level.t) : option Scan :=
  scanCells
    (mkScan level
       (list_to_map [(1, mkVec2 TILE TILE); (2, mkVec2 TILE TILE);
                     (3, mkVec2 TILE TILE); (4, mkVec2 TILE TILE)])
       (list_to_map [(1, []); (2, []); (3, []); (4, [])]))
    (gridCells level).

(** ** Rebinding *)

(** The effect that runs when the key bindings change: every actor keeps
    its state and gets the binding of its identity
    ([{ ...p, controls: bindings[p.id] }]). *)
Definition rebind (controls : Z -> KeyBinding) (p : Player.t) : Player.t :=
  Player.mk (Player.id p) (Player.spawn p) (Player.pos p) (Player.vel p)
            (Player.w p) (Player.h p) (Player.onGround p) (Player.jumpLock p)
            (Player.alive p) (Player.exitReached p) (controls (Player.id p))
            (Player.facing p) (Player.maxAirJumps p) (Player.airJumpsLeft p)
            (Player.isDashing p) (Player.dashUntil p)
            (Player.dashCooldownUntil p) (Player.abilityCooldownUntil p)
            (Player.nextStepFxTime p).

Definition rebindPlayers (controls : Z -> KeyBinding) (ps : list Player.t)
    : list Player.t :=
  rebind controls <$> ps.

(** ** Reset *)

(** [resetGame] at clock reading [now], with the spawn table of the mount
    and the current key bindings.  The level is created anew and is not
    scanned again; the double-tap marks and the dialog state are not
    touched. *)
Definition resetGame (spawns : Z -> Vec2) (controls : Z -> KeyBinding)
    (now : Q) (g : Game.t) : Game.t :=
  let level := createLevel in
  Game.mk (World.with_doubleTap (World.doubleTap (Game.world g))
                                (initWorld level))
          (createPlayers spawns controls)
          false false now (Game.modalCount g) (Game.pausedBeforeModal g)
          (Game.showSettings g) (Game.showHelp g).

(** ** Session events *)

(** What happens to a session after the mount: animation frames, the pause
    key or button, the reset key or button, and the dialogs. *)
Inductive Event :=
  | frame (t now : Q) (pressed : gset string)
  | pauseKey
  | resetKey (now : Q)
  | dialog (next : bool) (which : Dialog).

Section Session.

Variable hypot : Q -> Q -> Q.
Variable exits : gmap Z (list Vec2).
Variable spawns : Z -> Vec2.
Variable controls : Z -> KeyBinding.

Definition handleEvent (g : Game.t) (e : Event) : Game.t :=
  match e with
  | frame t now pressed => loop hypot exits t now pressed g
  | pauseKey => togglePause g
  | resetKey now => resetGame spawns controls now g
  | dialog next which => handleModalOpenChange next which g
  end.

Definition runEvents (evs : list Event) (g : Game.t) : Game.t :=
  foldl handleEvent g evs.

End Session.

(** ** Particles *)

Inductive Shape := circle | square.

Module Particle.
Record t := mk {
  x : Q;
  y : Q;
  vx : Q;
  vy : Q;
  life : Q;
  maxLife : Q;
  size : Q;
  colorStart : string;
  colorEnd : string;
  gravity : Q;
  damping : Q;
  shape : Shape;
  additive : bool }.
End Particle.

Definition MAX_PARTICLES : Z := 4000.

(** [trimParticles]: [splice(0, length - MAX_PARTICLES)] drops the oldest
    entries, which are at the front. *)
Definition trimParticles (arr : list Particle.t) : list Particle.t :=
  if Z.of_nat (length arr) >? MAX_PARTICLES
  then drop (Z.to_nat (Z.of_nat (length arr) - MAX_PARTICLES)) arr
  else arr.

(** [p.life += dt] *)
Definition ageParticle (dt : Q) (p : Particle.t) : Particle.t :=
  Particle.mk (Particle.x p) (Particle.y p) (Particle.vx p) (Particle.vy p)
              (Particle.life p + dt) (Particle.maxLife p) (Particle.size p)
              (Particle.colorStart p) (Particle.colorEnd p)
              (Particle.gravity p) (Particle.damping p) (Particle.shape p)
              (Particle.additive p).

(** The four assignments to the velocity and the position. *)
Definition moveParticle (dt : Q) (p : Particle.t) : Particle.t :=
  let vx := (Particle.vx p * Particle.damping p)%Q in
  let vy := (Particle.vy p * Particle.damping p + Particle.gravity p * dt)%Q in
  Particle.mk (Particle.x p + vx * dt) (Particle.y p + vy * dt) vx vy
              (Particle.life p) (Particle.maxLife p) (Particle.size p)
              (Particle.colorStart p) (Particle.colorEnd p)
              (Particle.gravity p) (Particle.damping p) (Particle.shape p)
              (Particle.additive p).

(** The loop of [updateParticles], with [n] the number of indices still to
    visit: the next index is [n - 1].  A particle whose life is over is
    spliced out of the array, the others are moved in place.  Reading a
    missing entry would raise a TypeError ([None]). *)
Fixpoint updateParticlesFrom (n : nat) (dt : Q) (arr : list Particle.t)
    : option (list Particle.t) :=
  match n with
  | O => Some arr
  | S i =>
      p ← arr !! i;
      let p := ageParticle dt p in
      if Qle_bool (Particle.maxLife p) (Particle.life p)
      then updateParticlesFrom i dt (delete i arr)
      else updateParticlesFrom i dt (<[i := moveParticle dt p]> arr)
  end.

Definition updateParticles (dt : Q) (arr : list Particle.t)
    : option (list Particle.t) :=
  updateParticlesFrom (length arr) dt arr.

(** ** Colours *)

(** A channel is a number or NaN ([None]). *)
Record Rgb := mkRgb { rgb_r : option Z; rgb_g : option Z; rgb_b : option Z }.

(** The value of a decimal digit, and of a hexadecimal digit of either
    case. *)
Definition decDigit (c : ascii) : option Z :=
  let n := Z.of_N (N_of_ascii c) in
  if (48 <=? n) && (n <=? 57) then Some (n - 48) else None.

Definition hexDigit (c : ascii) : option Z :=
  let n := Z.of_N (N_of_ascii c) in
  match decDigit c with
  | Some d => Some d
  | None =>
      if (97 <=? n) && (n <=? 102) then Some (n - 87)
      else if (65 <=? n) && (n <=? 70) then Some (n - 55)
      else None
  end.

(** The longest prefix of digits of a string. *)
Fixpoint digitsPrefix (digit : ascii -> option Z) (s : list ascii) : list Z :=
  match s with
  | [] => []
  | c :: rest =>
      match digit c with
      | Some d => d :: digitsPrefix digit rest
      | None => []
      end
  end.

(** [Number.parseInt] on a string without leading white space, sign or
    [0x] prefix, as the groups matched by the pattern of [hexToRgb] are:
    the value of the longest prefix of digits of the radix, NaN if that
    prefix is empty. *)
Definition parseInt (radix : Z) (digit : ascii -> option Z) (s : list ascii)
    : option Z :=
  match digitsPrefix digit s with
  | [] => None
  | ds => Some (foldl (fun acc d => acc * radix + d) 0 ds)
  end.

(** [hexToRgb]: the pattern accepts an optional [#] and then exactly six
    hexadecimal digits of either case.  The red and green groups are parsed
    with radix 16; the blue group is parsed without a radix, that is in
    decimal. *)
Definition hexToRgb (hex : list ascii) : Rgb :=
  let body := match hex with
              | "#"%char :: rest => rest
              | _ => hex
              end in
  match body with
  | [r1; r2; g1; g2; b1; b2] =>
      if forallb (fun c => bool_decide (is_Some (hexDigit c))) body
      then mkRgb (parseInt 16 hexDigit [r1; r2]) (parseInt 16 hexDigit [g1; g2])
                 (parseInt 10 decDigit [b1; b2])
      else mkRgb (Some 255) (Some 255) (Some 255)
  | _ => mkRgb (Some 255) (Some 255) (Some 255)
  end.

(** * Specification vocabulary *)

(** The four coloured-hole symbols. *)
Definition coloredHoles : list ascii := ["f"; "a"; "e"; "n"]%char.

(** The three classifications of a symbol for an actor; neutral is
    "neither liquid nor hazardous". *)
Inductive TileClass := Liquid | Hazard | Neutral.

Definition classHolds (k : TileClass) (ch : option ascii) (playerId : Z)
    : bool :=
  match k with
  | Liquid => isLiquidForPlayer ch playerId
  | Hazard => isHazardFor ch playerId
  | Neutral => negb (isLiquidForPlayer ch playerId)
               && negb (isHazardFor ch playerId)
  end.

(** The coordinate lies in the grid bounds and inside its row. *)
Definition inGrid (level : Level.t) (tx ty : Z) : Prop :=
  outOfBounds level tx ty = false /\
  exists row c, Level.tiles level !! Z.to_nat ty = Some row /\
                row !! Z.to_nat tx = Some c.

(** Two levels agree on everything but the content of their tiles. *)
Definition sameFrame (l l' : Level.t) : Prop :=
  Level.w l' = Level.w l /\ Level.h l' = Level.h l /\
  Level.tileSize l' = Level.tileSize l /\ Level.doorOpen l' = Level.doorOpen l.

(** Two levels have their plate tiles at the same coordinates. *)
Definition samePlates (l l' : Level.t) : Prop :=
  forall tx ty, isPlate (tileAt l' tx ty) = isPlate (tileAt l tx ty).

Definition levelKept (l l' : Level.t) : Prop := sameFrame l l' /\ samePlates l l'.

(** The actor's rectangle and the rectangle of an exit overlap.  The
    actor's rectangle has the actor's size and is centred on its position;
    the exit's rectangle is the square of one tile whose top-left corner is
    the exit point.  They overlap when, on each axis, each of the two
    starts before the other ends. *)
Definition overlapsGate (level : Level.t) (p : Player.t) (ex : Vec2) : Prop :=
  (vec_x ex < vec_x (Player.pos p) + Player.w p / 2)%Q /\
  (vec_x (Player.pos p) - Player.w p / 2 < vec_x ex + Level.tileSize level)%Q /\
  (vec_y ex < vec_y (Player.pos p) + Player.h p / 2)%Q /\
  (vec_y (Player.pos p) - Player.h p / 2 < vec_y ex + Level.tileSize level)%Q.

(** The actor overlaps one of its own exit rectangles. *)
Definition atOwnGate (exits : gmap Z (list Vec2)) (level : Level.t)
    (p : Player.t) : Prop :=
  exists ex, ex ∈ default [] (exits !! Player.id p) /\
             overlapsGate level p ex.






(** Every plate record is pressed. *)
Definition platesAllPressed (m : gmap (Z * Z) PlateState) : Prop :=
  forall k st, m !! k = Some st -> pressed st = true.

(** The flag an actor's update leaves in [exitReached] is the overlap test
    at the position the update ends with. *)
Definition exitFlagCurrent (exits : gmap Z (list Vec2)) (l : Level.t)
    (p : Player.t) : Prop :=
  Player.exitReached p
  = existsb (overlapsExit l p) (default [] (exits !! Player.id p)).

(** The fields no movement block assigns. *)
Definition sameActor (p p' : Player.t) : Prop :=
  Player.id p' = Player.id p /\ Player.spawn p' = Player.spawn p /\
  Player.maxAirJumps p' = Player.maxAirJumps p /\
  Player.abilityCooldownUntil p' = Player.abilityCooldownUntil p /\
  Player.w p' = Player.w p /\ Player.h p' = Player.h p /\
  Player.controls p' = Player.controls p /\ Player.alive p' = Player.alive p.

(** The fields that the blocks after the hazard check do not assign. *)
Definition sameBody (p p' : Player.t) : Prop :=
  Player.id p' = Player.id p /\ Player.spawn p' = Player.spawn p /\
  Player.pos p' = Player.pos p /\ Player.vel p' = Player.vel p /\
  Player.onGround p' = Player.onGround p /\
  Player.jumpLock p' = Player.jumpLock p /\
  Player.alive p' = Player.alive p /\
  Player.maxAirJumps p' = Player.maxAirJumps p /\
  Player.airJumpsLeft p' = Player.airJumpsLeft p /\
  Player.isDashing p' = Player.isDashing p /\
  Player.dashUntil p' = Player.dashUntil p /\
  Player.dashCooldownUntil p' = Player.dashCooldownUntil p.

Definition tpCoord (tp : TempPlatform) : Z * Z := (tp_tx tp, tp_ty tp).

(** Entries are ordered by age: expiry times do not decrease along the
    registry. *)
Definition olderOrEqual (a b : TempPlatform) : Prop :=
  (expiresAt a <= expiresAt b)%Q.

(** Every registry entry refers to a tile that holds the platform symbol. *)
Definition registryOnPlatforms (l : Level.t) (reg : list TempPlatform) : Prop :=
  Forall (holdsPlatform l) reg.

(** The registry invariant at clock reading [now]: every entry refers to a
    tile that holds the platform symbol, no tile is registered twice, and
    the entries are in insertion order, oldest first (each was stamped
    [insertion time + 7000], and the clock does not run backwards). *)
Record registryInv (now : Q) (l : Level.t) (reg : list TempPlatform) : Prop :=
  mkRegistryInv {
    inv_tiles : registryOnPlatforms l reg;
    inv_nodup : NoDup (tpCoord <$> reg);
    inv_order : StronglySorted olderOrEqual reg;
    inv_bound : Forall (fun tp => (expiresAt tp <= now + 7000)%Q) reg }.

(** A run of successive placements: the calls are made one after the other
    on the level and registry the previous one left, and every one of them
    places a platform ([None] if some call places nothing). *)
Fixpoint placements (calls : list (Q * Player.t)) (l : Level.t)
    (reg : list TempPlatform) : option (Level.t * list TempPlatform) :=
  match calls with
  | [] => Some (l, reg)
  | call :: rest =>
      match doEarthAction call.1 l reg call.2 with
      | (l', reg', true) => placements rest l' reg'
      | (_, _, false) => None
      end
  end.

(** The tile holds the dark-hole symbol. *)
Definition darkHole (l : Level.t) (c : Z * Z) : Prop :=
  tileAt l c.1 c.2 = Some "O"%char.

(** [b] is one of the eight neighbours of [a]. *)
Definition adjacent8 (a b : Z * Z) : Prop :=
  exists d, d ∈ dirs8 /\ b = (a.1 + d.1, a.2 + d.2).

(** The dark-hole tiles connected to a seed through dark-hole tiles, with
    8-connectivity. *)
Inductive reachable (l : Level.t) (seeds : list (Z * Z)) : Z * Z -> Prop :=
| reach_seed c : c ∈ seeds -> darkHole l c -> reachable l seeds c
| reach_step a b :
    reachable l seeds a -> adjacent8 a b -> darkHole l b -> reachable l seeds b.

(** The invariant of the fill loop, relative to the level [l0] and the
    seeds the fill started from; [conv] lists the tiles converted so far. *)
Record fillInv (l0 : Level.t) (seeds : list (Z * Z)) (conv : list (Z * Z))
    (s : Fill) : Prop := mkFillInv {
  fi_tiles : forall c, tileAt (f_level s) c.1 c.2
                       = if decide (c ∈ conv) then Some "W"%char
                         else tileAt l0 c.1 c.2;
  fi_count : f_count s = Z.of_nat (length conv);
  fi_conv_nodup : NoDup conv;
  fi_conv_reach : forall c, c ∈ conv -> reachable l0 seeds c;
  fi_q_nodup : NoDup (f_q s);
  fi_q_reach : forall c, c ∈ f_q s -> reachable l0 seeds c /\ c ∉ conv;
  fi_seen : forall c, c ∈ f_seen s <-> c ∈ conv \/ c ∈ f_q s;
  fi_closed : forall c n, c ∈ conv -> adjacent8 c n -> darkHole l0 n ->
                          n ∈ f_seen s;
  fi_seeds : forall c, c ∈ seeds -> c ∈ f_seen s;
  fi_cap : f_count s <= maxFill }.

(** The number of iterations still possible: each one takes an entry from
    the queue, and each of the conversions left adds at most eight. *)
Definition fillMeasure (s : Fill) : nat :=
  (length (f_q s) + 8 * Z.to_nat (maxFill - f_count s))%nat.

(** The count of open dialogs never drops below zero along the events
    (a dialog is closed only after it was opened). *)
Fixpoint countsStayNonneg (evs : list (bool * Dialog)) (n : Z) : Prop :=
  match evs with
  | [] => True
  | ev :: rest =>
      0 <= n + (if ev.1 then 1 else -1) /\
      countsStayNonneg rest (n + (if ev.1 then 1 else -1))
  end.

(** The plate latch between two plate maps: the same keys, the same
    coordinates in each record, and a record that was pressed is
    unchanged. *)
Definition platesLatched (m m' : gmap (Z * Z) PlateState) : Prop :=
  forall k,
    match m !! k, m' !! k with
    | Some st, Some st' =>
        pl_tx st' = pl_tx st /\ pl_ty st' = pl_ty st /\
        (pressed st = true -> st' = st)
    | None, None => True
    | _, _ => False
    end.

(** What an update keeps of an actor: identity, spawn point, size, key
    bindings and air-jump maximum; and an actor that is alive stays so. *)
Definition actorKept (p p' : Player.t) : Prop :=
  Player.id p' = Player.id p /\ Player.spawn p' = Player.spawn p /\
  Player.w p' = Player.w p /\ Player.h p' = Player.h p /\
  Player.controls p' = Player.controls p /\
  Player.maxAirJumps p' = Player.maxAirJumps p /\
  (Player.alive p = true -> Player.alive p' = true).

(** The action key of the actor is held. *)
Definition actionHeld (pressed : gset string) (p : Player.t) : bool :=
  if bool_decide (kb_action (Player.controls p) = ""%string) then false
  else has pressed (kb_action (Player.controls p)).

(** The symbol is one of the two that Fire breaks. *)
Definition breakable (ch : option ascii) : Prop :=
  ch = Some "b"%char \/ ch = Some "X"%char.

(** Between two levels, the only tiles that changed were breakable and are
    now empty. *)
Definition onlyBroken (l l' : Level.t) : Prop :=
  forall tx ty,
    tileAt l' tx ty = tileAt l tx ty \/
    (breakable (tileAt l tx ty) /\ tileAt l' tx ty = Some "."%char).

(** The entry has expired at clock reading [now]. *)
Definition expired (now : Q) (tp : TempPlatform) : bool :=
  Qle_bool (expiresAt tp) now.

(** The event is a reset. *)
Definition isReset (e : Event) : bool :=
  match e with resetKey _ => true | _ => false end.

(** The event is a fresh (not auto-repeated) press of [key]. *)
Definition freshPress (key : string) (e : KeyEvent) : bool :=
  match e with
  | keydown key' repeat _ => bool_decide (key' = key) && negb repeat
  | keyup _ => false
  end.

(** The centre and the top-left corner of a tile, in world coordinates. *)
Definition tileCentre (c : Z * Z) : Vec2 :=
  mkVec2 (inject_Z c.1 * TILE + TILE / 2) (inject_Z c.2 * TILE + TILE / 2).

Definition tileCorner (c : Z * Z) : Vec2 :=
  mkVec2 (inject_Z c.1 * TILE) (inject_Z c.2 * TILE).

(** The cells that hold the spawn digit of actor [idx], and those that
    hold its gate letter, in scan order. *)
Definition spawnCellsIn (level : Level.t) (idx : Z) (cells : list (Z * Z))
    : list (Z * Z) :=
  List.filter
    (fun c => bool_decide (spawnDigit (tileAt level c.1 c.2) = Some idx)) cells.

Definition gateCellsIn (level : Level.t) (p : Z) (cells : list (Z * Z))
    : list (Z * Z) :=
  List.filter
    (fun c => bool_decide (gateLetter (tileAt level c.1 c.2) = Some p)) cells.

Definition spawnCells (level : Level.t) (idx : Z) : list (Z * Z) :=
  spawnCellsIn level idx (gridCells level).

Definition gateCells (level : Level.t) (p : Z) : list (Z * Z) :=
  gateCellsIn level p (gridCells level).

(** What one update does to one particle: it is dropped when its life is
    over after ageing, and moved otherwise. *)
Definition particleStep (dt : Q) (p : Particle.t) : option Particle.t :=
  let p := ageParticle dt p in
  if Qle_bool (Particle.maxLife p) (Particle.life p) then None
  else Some (moveParticle dt p).

(** * Example scenarios *)

(** A stand-in for [Math.hypot] in the examples; it agrees with it on
    axis-aligned vectors. *)
Definition axisHypot (dx dy : Q) : Q := (Qabs dx + Qabs dy)%Q.

(** A spawn table and sessions used in the examples. *)
Definition demoSpawns (id : Z) : Vec2 := mkVec2 (inject_Z (32 * id + 16)) 48.

(** The exit tiles of the shipped map: A, B, C and D in row 22. *)
Definition demoExits : gmap Z (list Vec2) :=
  list_to_map [(1, [mkVec2 (29 * 32) (22 * 32)]); (2, [mkVec2 (31 * 32) (22 * 32)]);
               (3, [mkVec2 (33 * 32) (22 * 32)]); (4, [mkVec2 (37 * 32) (22 * 32)])].

Definition demoGame : Game.t := initGame createLevel demoSpawns.

(** The same session after the player pressed the pause key. *)
Definition pausedGame : Game.t := togglePause demoGame.

(** A small level: a poison pool at (5, 2), dark holes at (2, 2), (3, 2)
    and (3, 3), plates at (7, 2) and (8, 2). *)
Definition demoLevel : Level.t :=
  Level.mk (map list_ascii_of_string
              ["##########"; "#........#"; "#.OO.~.PP#"; "#..O.....#";
               "##########"]%string)
           10 5 TILE false.

Definition demoWorld : World.t := initWorld demoLevel.

(** The Fire actor in the air over the poison pool, with the jump key held
    since its last jump. *)
Definition airborneFire : Player.t :=
  Player.with_jumpLock true
    (Player.with_pos (mkVec2 176 80) (mkPlayer demoSpawns bindings 1 0)).

(** The Fire actor at the left edge of the poison pool, about to walk into
    it from the side. *)
Definition fireBesidePool : Player.t :=
  Player.with_pos (mkVec2 159 80) (mkPlayer demoSpawns bindings 1 0).

(** The Earth actor over the poison pool, 1.5 s into its cooldown. *)
Definition earthOnCooldown : Player.t :=
  Player.with_abilityCooldownUntil 4000
    (Player.with_pos (mkVec2 176 80) (mkPlayer demoSpawns bindings 3 0)).

(** An empty field two rows high, and the Earth actor standing over column
    [i] of its lower row. *)
Definition earthField : Level.t :=
  Level.mk (replicate 2 (replicate 16 "."%char)) 16 2 TILE false.

Definition earthAt (i : Z) : Player.t :=
  Player.with_pos (mkVec2 (inject_Z (32 * i + 16)) 16)
                  (mkPlayer demoSpawns bindings 3 0).

(** Thirteen placement calls, 4 s apart, over columns 0 to 12. *)
Definition thirteenCalls : list (Q * Player.t) :=
  (fun i => (inject_Z (4000 * i), earthAt i)) <$> seqZ 0 13.

(** The field after a platform was placed on tile (0, 1) at time 0, and the
    registry of that placement. *)
Definition fieldWithPlatform : Level.t := setTile earthField 0 1 "X".

Definition onePlatform : list TempPlatform := [mkTempPlatform 0 1 7000].

Definition platformGame : Game.t :=
  Game.mk (World.with_tempPlatforms onePlatform (initWorld fieldWithPlatform))
          [earthAt 3] false false 0 0 false false false.

(** The Water actor next to the dark holes of [demoLevel], and away from
    them. *)
Definition waterNearHoles : Player.t :=
  Player.with_pos (mkVec2 48 48) (mkPlayer demoSpawns bindings 2 0).

Definition waterAwayFromHoles : Player.t :=
  Player.with_pos (mkVec2 240 48) (mkPlayer demoSpawns bindings 2 0).

(** A session on the shipped map in which every plate is pressed and every
    actor stands on its exit tile. *)
Definition gateSpawns (id : Z) : Vec2 :=
  mkVec2 (inject_Z (32 * (if id =? 1 then 29 else if id =? 2 then 31
                          else if id =? 3 then 33 else 37) + 16))
         (22 * 32 + 16).

Definition pressPlate (st : PlateState) : PlateState :=
  mkPlateState (pl_tx st) (pl_ty st) true 0.

Definition nearWinGame : Game.t :=
  Game.mk (World.with_plates (pressPlate <$> initPlates createLevel)
                             (initWorld createLevel))
          (createPlayers gateSpawns bindings)
          false false 0 0 false false false.

(** The same session with no plate pressed, and the same session with the
    Fire actor at its spawn tile of the shipped map, away from its gate. *)
Definition unpressedGame : Game.t := initGame createLevel gateSpawns.

Definition offGateSpawns (id : Z) : Vec2 :=
  if id =? 1 then mkVec2 80 432 else gateSpawns id.

Definition offGateGame : Game.t :=
  Game.mk (World.with_plates (pressPlate <$> initPlates createLevel)
                             (initWorld createLevel))
          (createPlayers offGateSpawns bindings)
          false false 0 0 false false false.



(** * Properties *)

(** ** Tile semantics *)

(** C2. For each of the four coloured-hole symbols and each actor identity
    in 1..4, exactly one of liquid, hazard and neutral holds: the symbol has
    one designated owner in 1..4, for whom it is liquid and not a hazard,
    and for each of the other identities it is a hazard and not liquid. *)
Theorem colored_hole_classification (c : ascii) (playerId : Z) :
  c ∈ coloredHoles ->
  1 <= playerId <= 4 ->
  exists owner : Z,
    1 <= owner <= 4 /\
    safePlayerForColoredHole (Some c) = Some owner /\
    (exists! k : TileClass, classHolds k (Some c) playerId = true) /\
    (playerId = owner ->
       isLiquidForPlayer (Some c) playerId = true /\
       isHazardFor (Some c) playerId = false) /\
    (playerId <> owner ->
       isHazardFor (Some c) playerId = true /\
       isLiquidForPlayer (Some c) playerId = false).
Proof.
  intros Hc Hid.
  assert (Hcases : c = "f"%char \/ c = "a"%char \/ c = "e"%char \/ c = "n"%char).
  { unfold coloredHoles in Hc. rewrite !elem_of_cons, elem_of_nil in Hc. tauto. }
  assert (Hids : playerId = 1 \/ playerId = 2 \/ playerId = 3 \/ playerId = 4)
    by lia.
  destruct Hcases as [-> | [-> | [-> | ->]]];
    [exists 1 | exists 2 | exists 3 | exists 4];
    (split; [lia |]); (split; [reflexivity |]);
    destruct Hids as [-> | [-> | [-> | ->]]];
    (split;
     [ first [ exists Liquid; split; [reflexivity |];
               intros [] Hk; first [reflexivity | discriminate Hk]
             | exists Hazard; split; [reflexivity |];
               intros [] Hk; first [reflexivity | discriminate Hk] ]
     | split; intros Ho; first [lia | split; reflexivity] ]).
Qed.

Lemma colored_hole_classification_witness :
  exists owner : Z,
    1 <= owner <= 4 /\
    safePlayerForColoredHole (Some "e"%char) = Some owner /\
    (exists! k : TileClass, classHolds k (Some "e"%char) 3 = true) /\
    (3 = owner ->
       isLiquidForPlayer (Some "e"%char) 3 = true /\
       isHazardFor (Some "e"%char) 3 = false) /\
    (3 <> owner ->
       isHazardFor (Some "e"%char) 3 = true /\
       isLiquidForPlayer (Some "e"%char) 3 = false).
Proof.
  apply (colored_hole_classification "e" 3).
  - unfold coloredHoles. rewrite !elem_of_cons. tauto.
  - lia.
Defined.

(** ** Grid access *)

Lemma outOfBounds_spec level tx ty :
  outOfBounds level tx ty = true <->
  tx < 0 \/ tx >= Level.w level \/ ty < 0 \/ ty >= Level.h level.
Proof.
  unfold outOfBounds. rewrite !orb_true_iff, !Z.ltb_lt, !Z.geb_le. lia.
Qed.

Lemma outOfBounds_false level tx ty :
  outOfBounds level tx ty = false <->
  0 <= tx < Level.w level /\ 0 <= ty < Level.h level.
Proof.
  rewrite <- not_true_iff_false, outOfBounds_spec. lia.
Qed.

(** C7. Every tile coordinate outside the grid bounds reads as the wall
    symbol, whatever the grid holds (the rows are not consulted, so nothing
    is indexed outside the grid); the symbol is solid for either door
    state, and so is every world point that falls on such a tile. *)
Theorem out_of_bounds_is_wall (level : Level.t) (tx ty : Z) :
  tx < 0 \/ tx >= Level.w level \/ ty < 0 \/ ty >= Level.h level ->
  tileAt level tx ty = Some "#"%char /\
  (forall rows, tileAt (Level.with_tiles rows level) tx ty = Some "#"%char) /\
  (forall doorOpen, isSolid (tileAt level tx ty) doorOpen = true) /\
  (forall x y, worldToTile x y (Level.tileSize level) = (tx, ty) ->
               solidAt level x y = true).
Proof.
  intros Hout. apply outOfBounds_spec in Hout.
  assert (Hread : tileAt level tx ty = Some "#"%char).
  { unfold tileAt. now rewrite Hout. }
  split; [exact Hread |]. split; [| split].
  - intros rows. unfold tileAt.
    replace (outOfBounds (Level.with_tiles rows level) tx ty)
      with (outOfBounds level tx ty) by reflexivity.
    now rewrite Hout.
  - intros doorOpen. rewrite Hread. reflexivity.
  - intros x y Hxy. unfold solidAt. rewrite Hxy, Hread. reflexivity.
Qed.

Lemma out_of_bounds_is_wall_witness :
  tileAt createLevel 40 12 = Some "#"%char /\
  (forall rows, tileAt (Level.with_tiles rows createLevel) 40 12 = Some "#"%char) /\
  (forall doorOpen, isSolid (tileAt createLevel 40 12) doorOpen = true) /\
  (forall x y, worldToTile x y (Level.tileSize createLevel) = (40, 12) ->
               solidAt createLevel x y = true).
Proof.
  apply (out_of_bounds_is_wall createLevel 40 12).
  right; left. vm_compute. discriminate.
Defined.

(** On a rectangular grid every in-bounds read returns a symbol of the
    grid. *)
Lemma tileAt_in_bounds level tx ty :
  level_rect level ->
  0 <= tx < Level.w level -> 0 <= ty < Level.h level ->
  exists c, tileAt level tx ty = Some c.
Proof.
  intros [[Hh Hlen] [Hw Hrows]] Hx Hy. unfold tileAt.
  assert (Hb : outOfBounds level tx ty = false) by (apply outOfBounds_false; lia).
  rewrite Hb.
  destruct (lookup_lt_is_Some_2 (Level.tiles level) (Z.to_nat ty)) as [row Hrow];
    [lia |].
  rewrite Hrow.
  rewrite Forall_forall in Hrows.
  assert (Hr : length row = Z.to_nat (Level.w level)).
  { apply Hrows. eapply list_elem_of_lookup_2; eauto. }
  destruct (lookup_lt_is_Some_2 row (Z.to_nat tx)) as [c Hc]; [lia |].
  eauto.
Qed.

(** The shipped map is not rectangular: rows 12, 15 and 21 have 39 symbols,
    so the in-bounds tile (39, 12) reads as [undefined], which is not
    solid. *)
Example level_map_short_row :
  Level.w createLevel = 40 /\ tileAt createLevel 39 12 = None /\
  isSolid (tileAt createLevel 39 12) false = false.
Proof. vm_compute. auto. Qed.

(** *** Reading after writing *)

Lemma tileAt_inGrid level tx ty c :
  tileAt level tx ty = Some c -> c <> "#"%char -> inGrid level tx ty.
Proof.
  unfold tileAt, inGrid. intros Hread Hc.
  destruct (outOfBounds level tx ty) eqn:Hb.
  - congruence.
  - split; [reflexivity |].
    destruct (Level.tiles level !! Z.to_nat ty) as [row |] eqn:Hrow;
      [| discriminate].
    eauto.
Qed.

Lemma replaceChar_insert row tx c :
  0 <= tx -> (Z.to_nat tx < length row)%nat ->
  replaceChar row tx c = <[Z.to_nat tx := c]> row.
Proof.
  intros Htx Hlt. unfold replaceChar.
  replace (Z.to_nat (tx + 1)) with (S (Z.to_nat tx)) by lia.
  symmetry. now apply insert_take_drop.
Qed.

Lemma setTile_inGrid level tx ty c :
  inGrid level tx ty ->
  exists row,
    Level.tiles level !! Z.to_nat ty = Some row /\
    (Z.to_nat tx < length row)%nat /\
    setTile level tx ty c =
      Level.with_tiles
        (<[Z.to_nat ty := <[Z.to_nat tx := c]> row]> (Level.tiles level)) level.
Proof.
  intros [Hb (row & c0 & Hrow & Hc0)].
  exists row. split; [exact Hrow |].
  assert (Hlt : (Z.to_nat tx < length row)%nat) by (eapply lookup_lt_Some; eauto).
  split; [exact Hlt |].
  unfold setTile. rewrite Hb, Hrow.
  apply outOfBounds_false in Hb.
  rewrite replaceChar_insert by lia. reflexivity.
Qed.

Lemma setTile_bounds level tx ty c tx' ty' :
  outOfBounds (setTile level tx ty c) tx' ty' = outOfBounds level tx' ty'.
Proof.
  unfold setTile.
  destruct (outOfBounds level tx ty); [reflexivity |].
  destruct (Level.tiles level !! Z.to_nat ty); reflexivity.
Qed.

Lemma setTile_doorOpen level tx ty c :
  Level.doorOpen (setTile level tx ty c) = Level.doorOpen level.
Proof.
  unfold setTile.
  destruct (outOfBounds level tx ty); [reflexivity |].
  destruct (Level.tiles level !! Z.to_nat ty); reflexivity.
Qed.

Lemma setTile_tileSize level tx ty c :
  Level.tileSize (setTile level tx ty c) = Level.tileSize level.
Proof.
  unfold setTile.
  destruct (outOfBounds level tx ty); [reflexivity |].
  destruct (Level.tiles level !! Z.to_nat ty); reflexivity.
Qed.

(** Writing a tile inside the grid changes that tile and no other. *)
Lemma tileAt_setTile level tx ty c tx' ty' :
  inGrid level tx ty ->
  tileAt (setTile level tx ty c) tx' ty' =
    if decide ((tx', ty') = (tx, ty)) then Some c else tileAt level tx' ty'.
Proof.
  intros Hin.
  destruct (setTile_inGrid level tx ty c Hin) as (row & Hrow & Hlt & Hset).
  destruct Hin as [Hb _]. pose proof Hb as Hb'. apply outOfBounds_false in Hb'.
  unfold tileAt at 1. rewrite setTile_bounds, Hset. simpl.
  case_decide as Heq.
  - injection Heq as -> ->. rewrite Hb.
    rewrite list_lookup_insert_eq by (eapply lookup_lt_Some; eauto).
    now rewrite list_lookup_insert_eq.
  - unfold tileAt. destruct (outOfBounds level tx' ty') eqn:Hb2; [reflexivity |].
    apply outOfBounds_false in Hb2.
    destruct (decide (ty' = ty)) as [-> | Hty].
    + rewrite list_lookup_insert_eq by (eapply lookup_lt_Some; eauto).
      rewrite Hrow. apply list_lookup_insert_ne.
      intros Hn. apply Heq. f_equal. lia.
    + rewrite list_lookup_insert_ne by lia. reflexivity.
Qed.

Lemma tileAt_setTile_eq level tx ty c :
  inGrid level tx ty -> tileAt (setTile level tx ty c) tx ty = Some c.
Proof.
  intros Hin. rewrite tileAt_setTile by exact Hin. now rewrite decide_True.
Qed.

Lemma tileAt_setTile_ne level tx ty c tx' ty' :
  inGrid level tx ty -> (tx', ty') <> (tx, ty) ->
  tileAt (setTile level tx ty c) tx' ty' = tileAt level tx' ty'.
Proof.
  intros Hin Hne. rewrite tileAt_setTile by exact Hin. now rewrite decide_False.
Qed.

Lemma inGrid_setTile level tx ty c tx' ty' :
  inGrid level tx ty -> inGrid level tx' ty' ->
  inGrid (setTile level tx ty c) tx' ty'.
Proof.
  intros Hin [Hb' (row' & c' & Hrow' & Hc')].
  destruct (setTile_inGrid level tx ty c Hin) as (row & Hrow & Hlt & Hset).
  split; [now rewrite setTile_bounds |].
  rewrite Hset. simpl.
  destruct (decide (Z.to_nat ty' = Z.to_nat ty)) as [Hty | Hty].
  - rewrite Hty in *. rewrite Hrow in Hrow'. injection Hrow' as <-.
    exists (<[Z.to_nat tx := c]> row).
    rewrite list_lookup_insert_eq by (eapply lookup_lt_Some; eauto).
    destruct (lookup_lt_is_Some_2 (<[Z.to_nat tx := c]> row) (Z.to_nat tx'))
      as [c2 Hc2].
    { rewrite length_insert. eapply lookup_lt_Some; eauto. }
    eauto.
  - exists row', c'. rewrite list_lookup_insert_ne by congruence. eauto.
Qed.

Lemma level_wf_setTile level tx ty c :
  level_wf level -> level_wf (setTile level tx ty c).
Proof.
  unfold level_wf, setTile. intros [Hh Hlen].
  destruct (outOfBounds level tx ty); [easy |].
  destruct (Level.tiles level !! Z.to_nat ty); [| easy].
  simpl. now rewrite length_insert.
Qed.

(** ** Pause control of the dialogs *)

(** With the value of [paused] at the time of the call, opening and
    closing a dialog restores the pause state. *)
Lemma modal_restores_with_current_pause (g : Game.t) (which : Dialog) :
  Game.modalCount g = 0 ->
  Game.paused
    (handleModalOpenChangeWith false false which
       (handleModalOpenChangeWith (Game.paused g) true which g))
  = Game.paused g.
Proof.
  intros H0. unfold handleModalOpenChangeWith. rewrite H0.
  destruct which; reflexivity.
Qed.

(** The callback of the component reads the [paused] of the first render:
    whatever the pause state was, the game is running once the dialog is
    closed. *)
Lemma modal_close_unpauses (g : Game.t) (which : Dialog) :
  Game.modalCount g = 0 ->
  Game.paused
    (handleModalOpenChange false which (handleModalOpenChange true which g))
  = false.
Proof.
  intros H0. unfold handleModalOpenChange, handleModalOpenChangeWith.
  rewrite H0. destruct which; reflexivity.
Qed.

Lemma handleModalOpenChange_count next which g :
  Game.modalCount (handleModalOpenChange next which g)
  = Game.modalCount g + (if next then 1 else -1).
Proof.
  unfold handleModalOpenChange, handleModalOpenChangeWith. cbv zeta.
  destruct (next && (Game.modalCount g =? 0)),
    (negb next && (Game.modalCount g + (if next then 1 else -1) =? 0)), which;
    reflexivity.
Qed.

(** While a dialog is open, the stored pause state is that of the first
    render. *)
Lemma modal_events_store_false evs : forall g,
  0 <= Game.modalCount g ->
  (0 < Game.modalCount g -> Game.pausedBeforeModal g = false) ->
  countsStayNonneg evs (Game.modalCount g) ->
  0 < Game.modalCount (runModalEvents evs g) ->
  Game.pausedBeforeModal (runModalEvents evs g) = false.
Proof.
  unfold runModalEvents.
  induction evs as [| [next which] evs IH]; intros g Hn Hstored Hvalid; simpl.
  - exact Hstored.
  - simpl in Hvalid. destruct Hvalid as [Hn' Hvalid].
    apply IH; rewrite ?handleModalOpenChange_count; auto.
    intros Hpos. unfold handleModalOpenChange, handleModalOpenChangeWith.
    cbv zeta. destruct next; simpl.
    + destruct (Game.modalCount g =? 0) eqn:H0; destruct which; simpl;
        try reflexivity; apply Hstored; apply Z.eqb_neq in H0; lia.
    + destruct (Game.modalCount g + -1 =? 0) eqn:H0; destruct which; simpl;
        try (apply Z.eqb_eq in H0; lia); apply Hstored; lia.
Qed.

(** For every interleaving of dialog events that starts with no dialog open
    and ends with the close that returns the count to zero, the game is
    left running, whatever the pause state was before. *)
Lemma modal_events_end_unpaused evs which g :
  Game.modalCount g = 0 ->
  countsStayNonneg (evs ++ [(false, which)]) (Game.modalCount g) ->
  Game.modalCount (runModalEvents (evs ++ [(false, which)]) g) = 0 ->
  Game.paused (runModalEvents (evs ++ [(false, which)]) g) = false.
Proof.
  intros H0 Hvalid Hend.
  assert (Hvalid' : countsStayNonneg evs (Game.modalCount g)).
  { clear - Hvalid. revert Hvalid. generalize (Game.modalCount g).
    induction evs as [| ev evs IH]; intros n; simpl; [auto |].
    intros [Hn Hrest]. split; auto. }
  unfold runModalEvents in *. rewrite foldl_app in *. simpl in *.
  set (g1 := foldl (fun g ev => handleModalOpenChange ev.1 ev.2 g) g evs) in *.
  rewrite handleModalOpenChange_count in Hend.
  assert (Hstored : Game.pausedBeforeModal g1 = false).
  { apply (modal_events_store_false evs g); try lia; auto.
    fold (runModalEvents evs g). unfold runModalEvents. fold g1. lia. }
  unfold handleModalOpenChange, handleModalOpenChangeWith. cbv zeta.
  simpl. rewrite (proj2 (Z.eqb_eq _ _) Hend).
  destruct which; simpl; exact Hstored.
Qed.

(** C8 (the code departs from the claim). A session paused with the pause
    key, with no dialog open: opening and closing the settings dialog, or
    the two dialogs overlapping, returns the count of open dialogs to zero
    and leaves the game running, not paused as it was before the first
    dialog opened. *)
Theorem modal_close_loses_prior_pause :
  Game.paused pausedGame = true /\
  Game.modalCount pausedGame = 0 /\
  Game.modalCount
    (runModalEvents [(true, settings); (false, settings)] pausedGame) = 0 /\
  Game.paused
    (runModalEvents [(true, settings); (false, settings)] pausedGame) = false /\
  Game.modalCount
    (runModalEvents [(true, settings); (true, help); (false, settings);
                     (false, help)] pausedGame) = 0 /\
  Game.paused
    (runModalEvents [(true, settings); (true, help); (false, settings);
                     (false, help)] pausedGame) = false.
Proof. repeat split; reflexivity. Qed.

(** ** What the abilities leave alone *)

#[local] Arguments worldToTile : simpl never.
#[local] Arguments tileAt : simpl never.
#[local] Arguments setTile : simpl never.
#[local] Arguments Qplus : simpl never.
#[local] Arguments Qminus : simpl never.
#[local] Arguments Qmult : simpl never.
#[local] Arguments Qdiv : simpl never.
#[local] Arguments Qopp : simpl never.
#[local] Arguments Qle_bool : simpl never.
#[local] Arguments Qeq_bool : simpl never.
#[local] Arguments Qabs : simpl never.
#[local] Arguments inject_Z : simpl never.
#[local] Arguments clamp : simpl never.

Lemma sameFrame_refl l : sameFrame l l.
Proof. repeat split. Qed.

Lemma sameFrame_trans l1 l2 l3 :
  sameFrame l1 l2 -> sameFrame l2 l3 -> sameFrame l1 l3.
Proof. unfold sameFrame. intros (-> & -> & -> & ->) (-> & -> & -> & ->). auto. Qed.

Lemma samePlates_refl l : samePlates l l.
Proof. intros tx ty. reflexivity. Qed.

Lemma samePlates_trans l1 l2 l3 :
  samePlates l1 l2 -> samePlates l2 l3 -> samePlates l1 l3.
Proof. intros H12 H23 tx ty. now rewrite H23, H12. Qed.

Lemma sameFrame_setTile l tx ty c : sameFrame l (setTile l tx ty c).
Proof.
  unfold sameFrame, setTile.
  destruct (outOfBounds l tx ty); [easy |].
  destruct (Level.tiles l !! Z.to_nat ty); easy.
Qed.

(** Replacing a symbol that is neither a wall nor a plate by one that is
    not a plate keeps the plates where they are. *)
Lemma samePlates_setTile l tx ty c0 c :
  tileAt l tx ty = Some c0 -> c0 <> "#"%char -> c0 <> "P"%char ->
  c <> "P"%char -> samePlates l (setTile l tx ty c).
Proof.
  intros Hread Hwall HP HcP x y.
  rewrite tileAt_setTile by (eapply tileAt_inGrid; eauto).
  case_decide as Heq; [| reflexivity].
  injection Heq as -> ->. rewrite Hread. unfold isPlate, is_ch.
  rewrite !bool_decide_eq_false_2; congruence.
Qed.

Lemma is_ch_true ch c : is_ch ch c = true <-> ch = Some c.
Proof. unfold is_ch. apply bool_decide_eq_true. Qed.

Lemma is_ch_false ch c : is_ch ch c = false <-> ch <> Some c.
Proof. unfold is_ch. apply bool_decide_eq_false. Qed.

(** A fold whose every step keeps a reflexive and transitive relation to
    the start keeps it overall. *)
Lemma foldl_preserves {A B} (R : A -> A -> Prop) (f : A -> B -> A) :
  (forall a, R a a) -> (forall a b c, R a b -> R b c -> R a c) ->
  (forall a b, R a (f a b)) ->
  forall l a, R a (foldl f a l).
Proof.
  intros Hrefl Htrans Hstep l. induction l as [| b l IH]; intros a; simpl.
  - apply Hrefl.
  - eapply Htrans; [apply Hstep | apply IH].
Qed.

Lemma levelKept_refl l : levelKept l l.
Proof. split; [apply sameFrame_refl | apply samePlates_refl]. Qed.

Lemma levelKept_trans l1 l2 l3 :
  levelKept l1 l2 -> levelKept l2 l3 -> levelKept l1 l3.
Proof.
  intros [F1 P1] [F2 P2].
  split; [eapply sameFrame_trans | eapply samePlates_trans]; eauto.
Qed.

Lemma levelKept_setTile l tx ty c0 c :
  tileAt l tx ty = Some c0 -> c0 <> "#"%char -> c0 <> "P"%char ->
  c <> "P"%char -> levelKept l (setTile l tx ty c).
Proof.
  intros. split; [apply sameFrame_setTile | eapply samePlates_setTile; eauto].
Qed.

Lemma levelKept_breakTile l c : levelKept l (breakTile l c).
Proof.
  unfold breakTile.
  destruct (is_ch (tileAt l c.1 c.2) "b") eqn:Hb; simpl.
  - apply is_ch_true in Hb. eapply levelKept_setTile; eauto; discriminate.
  - destruct (is_ch (tileAt l c.1 c.2) "X") eqn:HX; [| apply levelKept_refl].
    apply is_ch_true in HX. eapply levelKept_setTile; eauto; discriminate.
Qed.

Lemma levelKept_doFireAction l reg p : levelKept l (doFireAction l reg p).1.
Proof.
  unfold doFireAction. cbv zeta. cbn [fst].
  apply (foldl_preserves levelKept breakTile).
  - apply levelKept_refl.
  - intros; eapply levelKept_trans; eauto.
  - apply levelKept_breakTile.
Qed.

(** A reflexive and transitive relation on levels that every conversion of
    a dark hole to water respects is respected by the whole fill. *)
Lemma fillLoop_preserves (R : Level.t -> Level.t -> Prop) :
  (forall l, R l l) -> (forall l1 l2 l3, R l1 l2 -> R l2 l3 -> R l1 l3) ->
  (forall l c, isDarkHole l c = true -> R l (setTile l c.1 c.2 "W")) ->
  forall fuel s, R (f_level s) (f_level (fillLoop fuel s)).
Proof.
  intros Hrefl Htrans Hstep fuel.
  induction fuel as [| fuel IH]; intros s; simpl; [apply Hrefl |].
  destruct (fillStep s) as [s' |] eqn:Hs; [| apply Hrefl].
  apply Htrans with (f_level s'); [| apply IH].
  unfold fillStep in Hs. destruct (f_q s) as [| c q']; [discriminate Hs |].
  destruct (f_count s <? maxFill); [| discriminate Hs].
  destruct (isDarkHole (f_level s) c) eqn:HO;
    apply (inj Some) in Hs; subst s'; cbn [f_level]; auto.
Qed.

Lemma levelKept_fillLoop fuel s : levelKept (f_level s) (f_level (fillLoop fuel s)).
Proof.
  apply fillLoop_preserves.
  - apply levelKept_refl.
  - apply levelKept_trans.
  - intros l c HO. apply is_ch_true in HO.
    eapply levelKept_setTile; eauto; discriminate.
Qed.

Lemma levelKept_doWaterAction l p : levelKept l (doWaterAction l p).
Proof.
  unfold doWaterAction. destruct (waterSeeds l p) as [| c seeds];
    [apply levelKept_refl |].
  generalize (fillFuel (c :: seeds)). intros fuel.
  apply (levelKept_fillLoop fuel (mkFill l _ _ 0)).
Qed.

Lemma canPlace_read l tx ty :
  canPlace l tx ty = true ->
  exists c0, tileAt l tx ty = Some c0 /\ c0 <> "#"%char /\ c0 <> "P"%char /\
             c0 <> "X"%char.
Proof.
  unfold canPlace, isColoredHole. rewrite !orb_true_iff, !is_ch_true.
  intros H. destruct (tileAt l tx ty) as [c0 |]; [| intuition discriminate].
  exists c0. split; [reflexivity |].
  repeat split; intros ->; intuition discriminate.
Qed.

Lemma earthTarget_canPlace l p c :
  earthTarget l p = Some c -> canPlace l c.1 c.2 = true.
Proof.
  unfold earthTarget.
  repeat match goal with
         | |- context [if canPlace l ?a ?b then _ else _] =>
             destruct (canPlace l a b) eqn:?
         end; intros H; try discriminate; apply (inj Some) in H; now subst c.
Qed.

Lemma evictOldest_cases l reg :
  (Z.of_nat (length reg) <= 12 /\ evictOldest l reg = (l, reg)) \/
  (exists oldest rest, reg = oldest :: rest /\ 12 < Z.of_nat (length reg) /\
     evictOldest l reg = (setTile l (tp_tx oldest) (tp_ty oldest) ".", rest)).
Proof.
  unfold evictOldest. destruct (12 <? Z.of_nat (length reg)) eqn:Hlen.
  - apply Z.ltb_lt in Hlen. destruct reg as [| oldest rest].
    + simpl in Hlen. lia.
    + right. eauto.
  - apply Z.ltb_ge in Hlen. left. auto.
Qed.

Lemma levelKept_evictOldest l reg :
  registryOnPlatforms l reg -> levelKept l (evictOldest l reg).1.
Proof.
  intros Hreg.
  destruct (evictOldest_cases l reg) as [[_ ->] | (o & rest & -> & _ & ->)];
    cbn [fst]; [apply levelKept_refl |].
  apply Forall_cons_1 in Hreg as [Ho _]. unfold holdsPlatform in Ho.
  eapply levelKept_setTile; eauto; discriminate.
Qed.

Lemma sameFrame_evictOldest l reg : sameFrame l (evictOldest l reg).1.
Proof.
  destruct (evictOldest_cases l reg) as [[_ ->] | (o & rest & -> & _ & ->)];
    cbn [fst]; [apply sameFrame_refl | apply sameFrame_setTile].
Qed.

Lemma sameFrame_doEarthAction now l reg p :
  sameFrame l (doEarthAction now l reg p).1.1.
Proof.
  unfold doEarthAction. destruct (earthTarget l p) as [c |];
    [| apply sameFrame_refl].
  destruct (evictOldest _ _) as [l2 reg2] eqn:Hev. cbn [fst].
  eapply sameFrame_trans; [apply sameFrame_setTile |].
  pose proof (sameFrame_evictOldest (setTile l c.1 c.2 "X")
                (reg ++ [mkTempPlatform c.1 c.2 (now + 7000)%Q])) as H.
  rewrite Hev in H. exact H.
Qed.

Lemma sameFrame_abilities now l reg p :
  sameFrame l (abilities now l reg p).1.1.
Proof.
  unfold abilities.
  repeat case_bool_decide.
  - pose proof (levelKept_doFireAction l reg p) as [Hf _].
    destruct (doFireAction l reg p) as [l' reg']. exact Hf.
  - cbn [fst]. apply levelKept_doWaterAction.
  - destruct (Qle_bool _ _); [| apply sameFrame_refl].
    pose proof (sameFrame_doEarthAction now l reg p) as Hf.
    destruct (doEarthAction now l reg p) as [[l' reg'] placed].
    destruct placed; exact Hf.
  - apply sameFrame_refl.
Qed.

Section SimulationFacts.

Variable hypot : Q -> Q -> Q.
Variable exits : gmap Z (list Vec2).

Lemma updatePlayer_sameFrame now pressed dt s p :
  sameFrame (World.level s)
            (World.level (updatePlayer hypot exits now pressed dt s p).1).
Proof.
  unfold updatePlayer. cbv zeta.
  destruct (movePlayer _ _ _ _ _ _ _) as [p1 dtap].
  destruct (hazardCheck _ _ _ _) as [p2 deaths'].
  destruct (justPressedAction _ _ _); [| apply sameFrame_refl].
  match goal with
  | |- context [abilities ?n ?l ?r ?q] =>
      pose proof (sameFrame_abilities n l r q) as H;
      destruct (abilities n l r q) as [[l' reg'] p3]
  end.
  exact H.
Qed.

Lemma updatePlayers_sameFrame now pressed dt ps : forall s,
  sameFrame (World.level s)
            (World.level (updatePlayers hypot exits now pressed dt s ps).1).
Proof.
  induction ps as [| p ps IH]; intros s; simpl.
  - apply sameFrame_refl.
  - pose proof (updatePlayer_sameFrame now pressed dt s p) as H1.
    destruct (updatePlayer _ _ _ _ _ _ _) as [s1 p'].
    pose proof (IH s1) as H2.
    destruct (updatePlayers _ _ _ _ _ _ _) as [s2 ps'].
    eapply sameFrame_trans; eauto.
Qed.

End SimulationFacts.

(** *** The expiry sweep *)



Lemma Qle_bool_false (a b : Q) : Qle_bool a b = false <-> (b < a)%Q.
Proof.
  rewrite <- not_true_iff_false, Qle_bool_iff. split.
  - apply Qnot_le_lt.
  - apply Qlt_not_le.
Qed.

(** *** Counting the actors on plates *)





(** *** The feet sample point *)








(** ** The door *)

Section DoorAndWin.

Variable hypot : Q -> Q -> Q.
Variable exits : gmap Z (list Vec2).

Lemma simulate_world now pressed dt g :
  exists s ps,
    let swept :=
      expirePlatforms now (World.level (Game.world g))
                      (World.tempPlatforms (Game.world g)) in
    updatePlayers hypot exits now pressed dt
      (World.with_level (updateDoorOpen swept.1 (Game.players g))
         (World.with_tempPlatforms swept.2
            (World.with_level swept.1 (Game.world g))))
      (Game.players g) = (s, ps) /\
    Game.world (simulate hypot exits now pressed dt g) = s /\
    Game.players (simulate hypot exits now pressed dt g) = ps /\
    Game.won (simulate hypot exits now pressed dt g)
      = Game.won g || (allPlayersAtGates ps && allPlatesPressed (World.plates s)).
Proof.
  unfold simulate. cbv zeta.
  destruct (expirePlatforms _ _ _) as [l1 reg1]. cbn [fst snd].
  destruct (updatePlayers _ _ _ _ _ _ _) as [s ps].
  exists s, ps. split; [reflexivity |].
  destruct (allPlayersAtGates ps && allPlatesPressed (World.plates s)); simpl.
  - rewrite orb_true_r. auto.
  - rewrite orb_false_r. auto.
Qed.



(** ** The win check *)

Lemma allPlatesPressed_spec (m : gmap (Z * Z) PlateState) :
  allPlatesPressed m = true <-> platesAllPressed m.
Proof.
  unfold allPlatesPressed, platesAllPressed.
  apply (map_fold_weak_ind
           (fun (b : bool) (m : gmap (Z * Z) PlateState) =>
              b = true <-> forall k st, m !! k = Some st -> pressed st = true)).
  - split; [| reflexivity]. intros _ k st Hk. now rewrite lookup_empty in Hk.
  - intros k st m' b Hfresh IH. split.
    + intros Hb k' st' Hk'. destruct (pressed st) eqn:Hst; [| discriminate Hb].
      simpl in Hb. rewrite lookup_insert in Hk'. case_decide as Hkk.
      * injection Hk' as <-. exact Hst.
      * exact (proj1 IH Hb k' st' Hk').
    + intros Hall. assert (Hst : pressed st = true).
      { apply (Hall k). now rewrite lookup_insert_eq. }
      rewrite Hst. simpl. apply IH. intros k' st' Hk'. apply (Hall k').
      rewrite lookup_insert_ne; [exact Hk' |]. intros ->. congruence.
Qed.

Lemma overlapsExit_tileSize l l' p ex :
  Level.tileSize l' = Level.tileSize l ->
  overlapsExit l' p ex = overlapsExit l p ex.
Proof. intros Hts. unfold overlapsExit, exitRect. now rewrite Hts. Qed.

Lemma overlapsExit_spec l p ex :
  overlapsExit l p ex = true <-> overlapsGate l p ex.
Proof.
  unfold overlapsExit, overlapsGate, rectIntersect, playerRect, exitRect.
  cbn [r_x r_y r_w r_h].
  rewrite negb_true_iff, !orb_false_iff, !Qle_bool_false.
  change (Player.w p / 2)%Q with (Player.w p * (1 # 2))%Q.
  change (Player.h p / 2)%Q with (Player.h p * (1 # 2))%Q.
  split; intros H; decompose [and] H; clear H; repeat split; lra.
Qed.

Lemma atOwnGate_existsb l p :
  existsb (overlapsExit l p) (default [] (exits !! Player.id p)) = true
  <-> atOwnGate exits l p.
Proof.
  unfold atOwnGate. rewrite existsb_exists.
  split; intros (ex & Hin & Hov); exists ex; split;
    solve [now apply list_elem_of_In | now apply overlapsExit_spec].
Qed.

Lemma exitCheck_current l p : exitFlagCurrent exits l (exitCheck exits l p).
Proof. reflexivity. Qed.

Lemma exitFlagCurrent_tileSize l l' p :
  Level.tileSize l' = Level.tileSize l ->
  exitFlagCurrent exits l p -> exitFlagCurrent exits l' p.
Proof.
  unfold exitFlagCurrent. intros Hts ->.
  induction (default [] (exits !! Player.id p)) as [| ex exs IH]; simpl;
    [reflexivity |].
  now rewrite (overlapsExit_tileSize l l' p ex Hts), IH.
Qed.

Lemma updatePlayer_exitFlag now pressed dt s p :
  exitFlagCurrent exits
    (World.level (updatePlayer hypot exits now pressed dt s p).1)
                  (updatePlayer hypot exits now pressed dt s p).2.
Proof.
  unfold updatePlayer. cbv zeta.
  destruct (movePlayer _ _ _ _ _ _ _) as [p1 dtap].
  destruct (hazardCheck _ _ _ _) as [p2 deaths'].
  destruct (justPressedAction _ _ _).
  - destruct (abilities _ _ _ _) as [[l' reg'] p3]. apply exitCheck_current.
  - apply exitCheck_current.
Qed.

Lemma updatePlayers_exitFlag now pressed dt ps : forall s,
  Forall (exitFlagCurrent exits
            (World.level (updatePlayers hypot exits now pressed dt s ps).1))
         (updatePlayers hypot exits now pressed dt s ps).2.
Proof.
  induction ps as [| p ps IH]; intros s; simpl; [constructor |].
  pose proof (updatePlayer_exitFlag now pressed dt s p) as Hp.
  destruct (updatePlayer _ _ _ _ _ _ _) as [s1 p'].
  pose proof (IH s1) as Hps.
  pose proof (updatePlayers_sameFrame hypot exits now pressed dt ps s1)
    as (_ & _ & Hts & _).
  destruct (updatePlayers _ _ _ _ _ _ _) as [s2 ps'].
  cbn [fst snd] in *. constructor; [| exact Hps].
  eapply exitFlagCurrent_tileSize; eauto.
Qed.

(** C1. At the end of an unpaused step the game is won exactly when every
    actor's rectangle, at its position after the step, overlaps the
    rectangle of one of its own exits and every plate record is pressed.
    In particular one unpressed plate keeps the step from winning, and so
    does one actor whose rectangle overlaps none of its exits. *)
Theorem win_iff_all_gates_and_all_plates (t now : Q) (held : gset string)
    (g : Game.t) :
  Game.paused g = false ->
  Game.won g = false ->
  let g' := loop hypot exits t now held g in
  let level' := World.level (Game.world g') in
  (Game.won g' = true <->
   (forall p, p ∈ Game.players g' -> atOwnGate exits level' p) /\
   platesAllPressed (World.plates (Game.world g'))) /\
  (forall k st, World.plates (Game.world g') !! k = Some st ->
                pressed st = false -> Game.won g' = false) /\
  (forall p, p ∈ Game.players g' ->
             (forall ex, ex ∈ default [] (exits !! Player.id p) ->
                         ~ overlapsGate level' p ex) ->
             Game.won g' = false).
Proof.
  intros Hp Hw g' level'.
  assert (Hiff : Game.won g' = true <->
                 (forall p, p ∈ Game.players g' -> atOwnGate exits level' p) /\
                 platesAllPressed (World.plates (Game.world g'))).
  { subst level' g'. unfold loop. cbv zeta.
    cbn [Game.paused Game.won Game.with_lastTime]. rewrite Hp, Hw.
    cbn [negb andb].
    set (g0 := Game.with_lastTime t g).
    set (dt := clamp _ _ _).
    destruct (simulate_world now held dt g0)
      as (s & ps & Hups & -> & -> & ->).
    cbv zeta in Hups.
    match type of Hups with
    | updatePlayers _ _ _ _ _ ?s0 ?ps0 = _ =>
        pose proof (updatePlayers_exitFlag now held dt ps0 s0) as Hflags
    end.
    rewrite Hups in Hflags. cbn [fst snd] in Hflags.
    replace (Game.won g0) with false by (symmetry; exact Hw).
    rewrite orb_false_l, andb_true_iff, allPlatesPressed_spec.
    unfold allPlayersAtGates. rewrite forallb_forall.
    rewrite Forall_forall in Hflags.
    split; intros [Hgates Hplates]; (split; [| exact Hplates]).
    - intros p Hin. apply atOwnGate_existsb. rewrite <- (Hflags p Hin).
      apply Hgates. now apply list_elem_of_In.
    - intros p Hin. apply list_elem_of_In in Hin.
      rewrite (Hflags p Hin). apply atOwnGate_existsb. auto. }
  split; [exact Hiff |]. split.
  - intros k st Hk Hst. apply not_true_iff_false. intros Hwon.
    apply Hiff in Hwon as [_ Hplates]. specialize (Hplates k st Hk).
    congruence.
  - intros p Hin Hoff. apply not_true_iff_false. intros Hwon.
    apply Hiff in Hwon as [Hgates _].
    destruct (Hgates p Hin) as (ex & Hex & Hov). exact (Hoff ex Hex Hov).
Qed.

End DoorAndWin.


Lemma win_iff_all_gates_and_all_plates_witness :
  (let g' := loop axisHypot demoExits 16 16 ∅ nearWinGame in
   (forall p, p ∈ Game.players g' ->
              atOwnGate demoExits (World.level (Game.world g')) p) /\
   platesAllPressed (World.plates (Game.world g'))) /\
  Game.won (loop axisHypot demoExits 16 16 ∅ unpressedGame) = false /\
  Game.won (loop axisHypot demoExits 16 16 ∅ offGateGame) = false.
Proof.
  split; [| split].
  - apply (proj1 (win_iff_all_gates_and_all_plates axisHypot demoExits
                    16 16 ∅ nearWinGame eq_refl eq_refl)).
    vm_compute. reflexivity.
  - apply (proj1 (proj2 (win_iff_all_gates_and_all_plates axisHypot demoExits
                           16 16 ∅ unpressedGame eq_refl eq_refl))
             (18, 1) (mkPlateState 18 1 false 0)).
    + vm_compute. reflexivity.
    + reflexivity.
  - eapply (proj2 (proj2 (win_iff_all_gates_and_all_plates axisHypot demoExits
                            16 16 ∅ offGateGame eq_refl eq_refl))).
    + eapply (list_elem_of_lookup_2 _ 0%nat). vm_compute. reflexivity.
    + intros ex Hin. vm_compute in Hin.
      apply list_elem_of_singleton in Hin. subst ex.
      intros (Hx & _). vm_compute in Hx. discriminate Hx.
Defined.

(** ** What the movement blocks leave alone *)

Lemma sameActor_refl p : sameActor p p.
Proof. repeat split. Qed.

Lemma sameActor_trans p1 p2 p3 :
  sameActor p1 p2 -> sameActor p2 p3 -> sameActor p1 p3.
Proof.
  unfold sameActor.
  intros (-> & -> & -> & -> & -> & -> & -> & ->)
         (-> & -> & -> & -> & -> & -> & -> & ->).
  repeat split.
Qed.

Ltac split_cases :=
  repeat match goal with
         | |- context [if ?b then _ else _] => destruct b
         | |- context [match ?o with Some _ => _ | None => _ end] => destruct o
         end.

Ltac same_actor := split_cases; cbn [fst]; repeat split.

Section MovementFacts.

Variable hypot : Q -> Q -> Q.

Lemma sameActor_tryStartWindDash now pressed dtap p :
  sameActor p (tryStartWindDash hypot now pressed dtap p).1.
Proof. unfold tryStartWindDash. cbv zeta. same_actor. Qed.

Lemma sameActor_windDash now pressed dtap p :
  sameActor p (windDash hypot now pressed dtap p).1.
Proof.
  unfold windDash. cbv zeta.
  destruct (bool_decide _); [| apply sameActor_refl].
  destruct (Player.isDashing p && Qle_bool (Player.dashUntil p) now).
  - destruct (negb _); [| repeat split].
    eapply sameActor_trans; [| apply sameActor_tryStartWindDash].
    repeat split.
  - destruct (negb _); [| repeat split].
    apply sameActor_tryStartWindDash.
Qed.

Lemma sameActor_horizontalMovement l r q p :
  sameActor p (horizontalMovement l r q p).
Proof. unfold horizontalMovement. cbv zeta. same_actor. Qed.

Lemma sameActor_verticalPhysics j q dt p :
  sameActor p (verticalPhysics j q dt p).
Proof. unfold verticalPhysics. cbv zeta. same_actor. Qed.

Lemma sameActor_jumpOnLand j q p : sameActor p (jumpOnLand j q p).
Proof. unfold jumpOnLand. cbv zeta. same_actor. Qed.

Lemma sameActor_moveAndCollide level p dt :
  sameActor p (moveAndCollide level p dt).
Proof.
  unfold moveAndCollide. cbv zeta.
  destruct (collideX level p _) as [nx velx]. same_actor.
Qed.

Lemma sameActor_movePlayer now pressed dt level dtap p :
  sameActor p (movePlayer hypot now pressed dt level dtap p).1.
Proof.
  unfold movePlayer. cbv zeta.
  pose proof (sameActor_windDash now pressed dtap p) as Hw.
  destruct (windDash hypot now pressed dtap p) as [p1 dtap1].
  cbn [fst] in *.
  eapply sameActor_trans; [exact Hw |].
  eapply sameActor_trans; [apply sameActor_horizontalMovement |].
  eapply sameActor_trans; [apply sameActor_verticalPhysics |].
  eapply sameActor_trans; [apply sameActor_jumpOnLand |].
  apply sameActor_moveAndCollide.
Qed.

End MovementFacts.

(** ** Hazard contact and respawn *)

Lemma sameBody_refl p : sameBody p p.
Proof. repeat split. Qed.

Lemma sameBody_trans p1 p2 p3 :
  sameBody p1 p2 -> sameBody p2 p3 -> sameBody p1 p3.
Proof.
  unfold sameBody.
  intros (-> & -> & -> & -> & -> & -> & -> & -> & -> & -> & -> & ->)
         (-> & -> & -> & -> & -> & -> & -> & -> & -> & -> & -> & ->).
  repeat split.
Qed.

Lemma abilities_player now l reg p :
  sameBody p (abilities now l reg p).2 /\
  (Player.id p <> 3 \/ Qle_bool (Player.abilityCooldownUntil p) now = false ->
   Player.abilityCooldownUntil (abilities now l reg p).2
   = Player.abilityCooldownUntil p).
Proof.
  unfold abilities.
  destruct (bool_decide (Player.id p = 1)).
  { destruct (doFireAction l reg p). split; [apply sameBody_refl | reflexivity]. }
  destruct (bool_decide (Player.id p = 2)).
  { split; [apply sameBody_refl | reflexivity]. }
  case_bool_decide as H3; [| split; [apply sameBody_refl | reflexivity]].
  destruct (Qle_bool _ _); [| split; [apply sameBody_refl | reflexivity]].
  destruct (doEarthAction now l reg p) as [[l' reg'] placed].
  destruct placed; split;
    solve [repeat split | intros [Hne | Hcd]; congruence].
Qed.

Lemma sameBody_stepParticles now q p : sameBody p (stepParticles now q p).
Proof. unfold stepParticles. split_cases; repeat split. Qed.

Section RespawnFacts.

Variable hypot : Q -> Q -> Q.
Variable exits : gmap Z (list Vec2).

Lemma sameBody_exitCheck l p : sameBody p (exitCheck exits l p).
Proof. repeat split. Qed.

(** The actor and the death counter that [updatePlayer] returns are those
    of the hazard check, up to the fields the later blocks assign. *)
Lemma updatePlayer_after_hazard now pressed dt s p :
  let level := World.level s in
  let pm := (movePlayer hypot now pressed dt level (World.doubleTap s) p).1 in
  let ph := hazardCheck level (centerCharOf level p) pm (World.deaths s) in
  let r := updatePlayer hypot exits now pressed dt s p in
  sameBody ph.1 r.2 /\ World.deaths r.1 = ph.2 /\
  (Player.id p <> 3 \/ justPressedAction pressed s p = false
   \/ Qle_bool (Player.abilityCooldownUntil p) now = false ->
   Player.abilityCooldownUntil r.2 = Player.abilityCooldownUntil p).
Proof.
  cbv zeta. unfold updatePlayer. cbv zeta.
  cbn [World.level World.with_prevActionDown World.doubleTap World.deaths
       World.plates World.with_doubleTap World.with_plates].
  pose proof (sameActor_movePlayer hypot now pressed dt (World.level s)
                (World.doubleTap s) p) as (Hid & _ & _ & Hcdm & _).
  destruct (movePlayer _ _ _ _ _ _ _) as [pm dtap]. cbn [fst] in *.
  assert (Hh : Player.id
                 (hazardCheck (World.level s) (centerCharOf (World.level s) p)
                    pm (World.deaths s)).1 = Player.id p /\
               Player.abilityCooldownUntil
                 (hazardCheck (World.level s) (centerCharOf (World.level s) p)
                    pm (World.deaths s)).1 = Player.abilityCooldownUntil p).
  { unfold hazardCheck. destruct (hazardContact _ _ _); cbn [fst]; auto. }
  destruct Hh as [Hidh Hcdh].
  destruct (hazardCheck _ _ _ _) as [ph deaths']. cbn [fst snd] in *.
  destruct (justPressedAction pressed s p).
  - match goal with
    | |- context [abilities ?n ?l ?r ?q] =>
        pose proof (abilities_player n l r q) as [Hb Hcd];
        destruct (abilities n l r q) as [[l' reg'] pa]
    end.
    cbn [fst snd] in *. split; [| split; [reflexivity |]].
    + eapply sameBody_trans; [exact Hb |].
      eapply sameBody_trans; [apply sameBody_stepParticles |].
      apply sameBody_exitCheck.
    + intros Hcase. rewrite <- Hcdh, <- Hcd.
      * unfold stepParticles. split_cases; reflexivity.
      * rewrite Hidh, Hcdh. destruct Hcase as [? | [? | ?]]; auto; discriminate.
  - cbn [fst snd]. split; [| split; [reflexivity |]].
    + eapply sameBody_trans; [apply sameBody_stepParticles |].
      apply sameBody_exitCheck.
    + intros _. rewrite <- Hcdh. unfold stepParticles. split_cases; reflexivity.
Qed.

End RespawnFacts.

Section Respawn.

Variable hypot : Q -> Q -> Q.
Variable exits : gmap Z (list Vec2).

(** C4 (as the code has it). The hazard check of an update tests the symbol
    under the actor's centre, sampled at the start of the update, and the
    symbol 2 units below its feet at the position collision resolution
    produced.  On contact the update ends with the actor at its spawn
    point, with zero velocity, a full air-jump budget, no dash in progress
    and a cleared dash end time, alive, and with the death counter one
    higher; the jump lock is the one collision resolution left.  Without
    contact the counter is unchanged. *)
Theorem hazard_contact_respawns (now : Q) (pressed : gset string) (dt : Q)
    (s : World.t) (p : Player.t) :
  let level := World.level s in
  let pm := (movePlayer hypot now pressed dt level (World.doubleTap s) p).1 in
  let contact :=
    isHazardFor (centerCharOf level p) (Player.id p)
    || isHazardFor (tileCharAt level (vec_x (Player.pos pm))
                      (vec_y (Player.pos pm) + Player.h pm / 2 + 2)%Q)
                   (Player.id p) in
  let r := updatePlayer hypot exits now pressed dt s p in
  (contact = true ->
     Player.pos r.2 = Player.spawn p /\
     Player.vel r.2 = mkVec2 0 0 /\
     Player.airJumpsLeft r.2 = Player.maxAirJumps p /\
     Player.isDashing r.2 = false /\
     Player.dashUntil r.2 = 0%Q /\
     Player.alive r.2 = true /\
     World.deaths r.1 = World.deaths s + 1 /\
     Player.jumpLock r.2 = Player.jumpLock pm) /\
  (contact = false -> World.deaths r.1 = World.deaths s).
Proof.
  cbv zeta.
  pose proof (updatePlayer_after_hazard hypot exits now pressed dt s p) as H.
  cbv zeta in H. destruct H as (Hb & Hd & _).
  pose proof (sameActor_movePlayer hypot now pressed dt (World.level s)
                (World.doubleTap s) p) as (Hid & Hsp & Hmax & _).
  unfold hazardCheck, hazardContact in Hb, Hd. rewrite Hid in Hb, Hd.
  destruct Hb as (_ & _ & Hpos & Hvel & _ & Hlock & Halive & _ & Hair & Hdash
                  & Huntil & _).
  split; intros Hc; rewrite Hc in *; cbn [fst snd] in *.
  - rewrite Hpos, Hvel, Hair, Hdash, Huntil, Halive, Hlock, Hd.
    cbn. rewrite Hsp, Hmax. destruct (Player.spawn p). repeat split.
  - exact Hd.
Qed.

End Respawn.

(** C4 (as stated, refuted). The Fire actor is over the poison pool with
    its jump lock set; the update respawns it (spawn point, one more death)
    and the jump lock is still set: the jump state is not cleared. *)
Lemma respawn_keeps_jump_lock :
  let r := updatePlayer axisHypot demoExits 0 {["w"%string]} (1 # 60)
                        demoWorld airborneFire in
  isHazardFor (centerCharOf demoLevel airborneFire) 1 = true /\
  Player.pos r.2 = Player.spawn airborneFire /\
  World.deaths r.1 = World.deaths demoWorld + 1 /\
  Player.jumpLock r.2 = true.
Proof. vm_compute. repeat split. Qed.

Lemma hazard_contact_respawns_witness :
  let r := updatePlayer axisHypot demoExits 0 {["w"%string]} (1 # 60)
                        demoWorld airborneFire in
  Player.pos r.2 = Player.spawn airborneFire /\
  Player.vel r.2 = mkVec2 0 0 /\
  Player.airJumpsLeft r.2 = Player.maxAirJumps airborneFire /\
  Player.isDashing r.2 = false /\
  Player.dashUntil r.2 = 0%Q /\
  Player.alive r.2 = true /\
  World.deaths r.1 = World.deaths demoWorld + 1 /\
  Player.jumpLock r.2
  = Player.jumpLock
      (movePlayer axisHypot 0 {["w"%string]} (1 # 60) demoLevel
                  (World.doubleTap demoWorld) airborneFire).1.
Proof.
  apply (hazard_contact_respawns axisHypot demoExits 0 {["w"%string]} (1 # 60)
           demoWorld airborneFire).
  vm_compute. reflexivity.
Defined.

(** The centre symbol is the one read before the movement: an actor that
    walks into the pool from the side ends the update with its centre on
    the pool tile and is not respawned in that update. *)
Example hazard_center_sampled_before_move :
  let r := updatePlayer axisHypot demoExits 0 {["d"%string]} (1 # 60)
                        demoWorld fireBesidePool in
  isHazardFor (centerCharOf demoLevel r.2) 1 = true /\
  World.deaths r.1 = World.deaths demoWorld /\
  Player.pos r.2 <> Player.spawn fireBesidePool.
Proof. vm_compute. repeat split. discriminate. Qed.

Section Cooldowns.

Variable hypot : Q -> Q -> Q.
Variable exits : gmap Z (list Vec2).

(** C10. A respawn leaves the cooldown time stamps and the jump lock as
    they were: the hazard check returns the actor with the dash cooldown,
    the ability cooldown and the jump lock it received; and an update with
    hazard contact ends with the dash cooldown and the jump lock that
    collision resolution left, and with the ability cooldown the update
    started with unless the Earth actor placed a platform in that update
    (any other actor, no fresh action press, or a cooldown still
    running). *)
Theorem respawn_keeps_cooldowns (now : Q) (pressed : gset string) (dt : Q)
    (s : World.t) (p : Player.t) :
  let level := World.level s in
  let pm := (movePlayer hypot now pressed dt level (World.doubleTap s) p).1 in
  let r := updatePlayer hypot exits now pressed dt s p in
  (forall centerChar q deaths,
     hazardContact level centerChar q = true ->
     let q' := (hazardCheck level centerChar q deaths).1 in
     Player.dashCooldownUntil q' = Player.dashCooldownUntil q /\
     Player.abilityCooldownUntil q' = Player.abilityCooldownUntil q /\
     Player.jumpLock q' = Player.jumpLock q) /\
  (hazardContact level (centerCharOf level p) pm = true ->
     Player.dashCooldownUntil r.2 = Player.dashCooldownUntil pm /\
     Player.jumpLock r.2 = Player.jumpLock pm /\
     (Player.id p <> 3 \/ justPressedAction pressed s p = false
      \/ Qle_bool (Player.abilityCooldownUntil p) now = false ->
      Player.abilityCooldownUntil r.2 = Player.abilityCooldownUntil p)).
Proof.
  cbv zeta. split.
  - intros cc q deaths Hc. unfold hazardCheck. rewrite Hc. repeat split.
  - intros Hc.
    pose proof (updatePlayer_after_hazard hypot exits now pressed dt s p) as H.
    cbv zeta in H. destruct H as (Hb & _ & Hcd).
    unfold hazardCheck in Hb. rewrite Hc in Hb. cbn [fst] in Hb.
    destruct Hb as (_ & _ & _ & _ & _ & Hlock & _ & _ & _ & _ & _ & Hdcd).
    rewrite Hlock, Hdcd. repeat split. exact Hcd.
Qed.

End Cooldowns.

Lemma respawn_keeps_cooldowns_witness :
  let pm := (movePlayer axisHypot 1500 {["ArrowDown"%string]} (1 # 60)
               demoLevel (World.doubleTap demoWorld) earthOnCooldown).1 in
  let r := updatePlayer axisHypot demoExits 1500 {["ArrowDown"%string]} (1 # 60)
                        demoWorld earthOnCooldown in
  Player.pos r.2 = Player.spawn earthOnCooldown /\
  Player.dashCooldownUntil r.2 = Player.dashCooldownUntil pm /\
  Player.jumpLock r.2 = Player.jumpLock pm /\
  Player.abilityCooldownUntil r.2 = 4000%Q.
Proof.
  split; [vm_compute; reflexivity |].
  destruct (respawn_keeps_cooldowns axisHypot demoExits 1500
              {["ArrowDown"%string]} (1 # 60) demoWorld earthOnCooldown)
    as [_ H].
  destruct H as (Hd & Hl & Ha); [vm_compute; reflexivity |].
  split; [exact Hd |]. split; [exact Hl |].
  apply Ha. right; right. vm_compute. reflexivity.
Defined.

(** ** The ephemeral platform registry *)

Lemma holdsPlatform_setTile_ne l tx ty c tp :
  inGrid l tx ty -> tpCoord tp <> (tx, ty) ->
  holdsPlatform (setTile l tx ty c) tp <-> holdsPlatform l tp.
Proof.
  intros Hin Hne. unfold holdsPlatform.
  rewrite tileAt_setTile_ne; [reflexivity | exact Hin | exact Hne].
Qed.

Lemma registryOnPlatforms_coord l reg tp :
  registryOnPlatforms l reg -> tp ∈ reg ->
  tileAt l (tpCoord tp).1 (tpCoord tp).2 = Some "X"%char.
Proof.
  unfold registryOnPlatforms. rewrite Forall_forall. intros H Hin.
  exact (H tp Hin).
Qed.

(** A tile that does not hold the platform symbol is not registered. *)
Lemma unregistered_coord l reg c :
  registryOnPlatforms l reg -> tileAt l c.1 c.2 <> Some "X"%char ->
  c ∉ tpCoord <$> reg.
Proof.
  intros Hreg Hc Hin. apply list_elem_of_fmap in Hin as (tp & -> & Htp).
  apply Hc. eapply registryOnPlatforms_coord; eauto.
Qed.

Lemma registryOnPlatforms_setTile l reg tx ty c :
  inGrid l tx ty -> (tx, ty) ∉ tpCoord <$> reg ->
  registryOnPlatforms l reg -> registryOnPlatforms (setTile l tx ty c) reg.
Proof.
  unfold registryOnPlatforms. rewrite !Forall_forall.
  intros Hin Hfresh Hreg tp Htp.
  apply holdsPlatform_setTile_ne; [exact Hin | | auto].
  intros Heq. apply Hfresh. rewrite <- Heq. now apply list_elem_of_fmap_2.
Qed.

(** Placement: the symbol is written, then the entry is pushed. *)
Lemma place_keeps_platforms l reg c e :
  registryOnPlatforms l reg -> NoDup (tpCoord <$> reg) ->
  canPlace l c.1 c.2 = true ->
  registryOnPlatforms (setTile l c.1 c.2 "X") (reg ++ [mkTempPlatform c.1 c.2 e])
  /\ NoDup (tpCoord <$> reg ++ [mkTempPlatform c.1 c.2 e]).
Proof.
  intros Hreg Hnd Hcan.
  destruct (canPlace_read l c.1 c.2 Hcan) as (c0 & Hread & Hwall & _ & HX).
  assert (Hin : inGrid l c.1 c.2) by (eapply tileAt_inGrid; eauto).
  assert (Hfresh : (c.1, c.2) ∉ tpCoord <$> reg).
  { apply (unregistered_coord l reg (c.1, c.2) Hreg). cbn [fst snd].
    rewrite Hread. congruence. }
  split.
  - apply Forall_app. split.
    + apply registryOnPlatforms_setTile; auto.
    + constructor; [| constructor]. unfold holdsPlatform. cbn [tp_tx tp_ty].
      now apply tileAt_setTile_eq.
  - rewrite fmap_app. apply NoDup_app. split; [exact Hnd |]. split.
    + intros x Hx Hx'. cbn in Hx'. apply list_elem_of_singleton in Hx'.
      subst x. auto.
    + cbn. apply NoDup_singleton.
Qed.

(** Eviction: the oldest entry is removed and its tile reverts to empty. *)
Lemma evict_keeps_platforms l oldest rest :
  registryOnPlatforms l (oldest :: rest) -> NoDup (tpCoord <$> oldest :: rest) ->
  registryOnPlatforms (setTile l (tp_tx oldest) (tp_ty oldest) ".") rest /\
  NoDup (tpCoord <$> rest) /\
  tileAt (setTile l (tp_tx oldest) (tp_ty oldest) ".")
         (tp_tx oldest) (tp_ty oldest) = Some "."%char.
Proof.
  intros Hreg Hnd. rewrite fmap_cons in Hnd. apply NoDup_cons in Hnd as [Hfresh Hnd].
  apply Forall_cons_1 in Hreg as [Ho Hrest].
  assert (Hin : inGrid l (tp_tx oldest) (tp_ty oldest)).
  { eapply tileAt_inGrid; [exact Ho | discriminate]. }
  split; [| split; [exact Hnd |]].
  - apply registryOnPlatforms_setTile; auto.
  - now apply tileAt_setTile_eq.
Qed.

(** A successful placement in terms of its target tile. *)
Lemma doEarthAction_placed now l reg p l' reg' :
  doEarthAction now l reg p = (l', reg', true) ->
  exists c, earthTarget l p = Some c /\ canPlace l c.1 c.2 = true /\
    evictOldest (setTile l c.1 c.2 "X")
                (reg ++ [mkTempPlatform c.1 c.2 (now + 7000)%Q]) = (l', reg').
Proof.
  unfold doEarthAction. destruct (earthTarget l p) as [c |] eqn:Ht;
    [| intros H; discriminate H].
  destruct (evictOldest _ _) as [l2 reg2] eqn:Hev.
  intros H. exists c. split; [reflexivity |].
  split; [now apply earthTarget_canPlace with (p := p) |].
  congruence.
Qed.

Lemma doEarthAction_failed now l reg p l' reg' :
  doEarthAction now l reg p = (l', reg', false) ->
  earthTarget l p = None /\ l' = l /\ reg' = reg.
Proof.
  unfold doEarthAction. destruct (earthTarget l p) as [c |] eqn:Ht.
  - destruct (evictOldest _ _) as [l2 reg2]. intros H; discriminate H.
  - intros H. split; [reflexivity |]. split; congruence.
Qed.

(** *** Placement, cooldown and the cap *)

Lemma placements_app a b l reg :
  placements (a ++ b) l reg
  = match placements a l reg with
    | Some (l', reg') => placements b l' reg'
    | None => None
    end.
Proof.
  revert l reg. induction a as [| call a IH]; intros l reg; simpl;
    [reflexivity |].
  destruct (doEarthAction call.1 l reg call.2) as [[l' reg'] []]; auto.
Qed.

(** Below the cap every placement appends one entry. *)
Lemma placements_below_cap calls : forall l reg l' reg',
  registryOnPlatforms l reg -> NoDup (tpCoord <$> reg) ->
  (length reg + length calls <= 12)%nat ->
  placements calls l reg = Some (l', reg') ->
  registryOnPlatforms l' reg' /\ NoDup (tpCoord <$> reg') /\
  exists news, reg' = reg ++ news /\ length news = length calls.
Proof.
  induction calls as [| call calls IH]; intros l reg l' reg' Hreg Hnd Hlen Hrun.
  - simpl in Hrun. apply (inj Some) in Hrun. injection Hrun as <- <-.
    split; [exact Hreg |]. split; [exact Hnd |].
    exists []. now rewrite app_nil_r.
  - simpl in Hrun, Hlen.
    destruct (doEarthAction call.1 l reg call.2) as [[l1 reg1] placed] eqn:Hcall.
    destruct placed; [| discriminate Hrun].
    apply doEarthAction_placed in Hcall as (c & _ & Hcan & Hev).
    destruct (place_keeps_platforms l reg c (call.1 + 7000)%Q Hreg Hnd Hcan)
      as [Hreg1 Hnd1].
    destruct (evictOldest_cases (setTile l c.1 c.2 "X")
                (reg ++ [mkTempPlatform c.1 c.2 (call.1 + 7000)%Q]))
      as [[_ Hsame] | (o & rest & _ & Hbig & _)].
    + rewrite Hsame in Hev. injection Hev as <- <-.
      assert (Hlen1 : (length (reg ++ [mkTempPlatform c.1 c.2 (call.1 + 7000)%Q])
                       + length calls <= 12)%nat).
      { rewrite length_app. simpl. lia. }
      destruct (IH _ _ _ _ Hreg1 Hnd1 Hlen1 Hrun)
        as (Hreg' & Hnd' & news & -> & Hnews).
      split; [exact Hreg' |]. split; [exact Hnd' |].
      exists (mkTempPlatform c.1 c.2 (call.1 + 7000)%Q :: news).
      rewrite <- app_assoc. simpl. auto.
    + rewrite length_app in Hbig. simpl in Hbig. lia.
Qed.

Lemma abilities_earth now l reg p :
  Player.id p = 3 ->
  abilities now l reg p
  = if Qle_bool (Player.abilityCooldownUntil p) now then
      let '(l', reg', placed) := doEarthAction now l reg p in
      if placed
      then (l', reg',
            Player.with_abilityCooldownUntil (now + EARTH_COOLDOWN * 1000) p)
      else (l', reg', p)
    else (l, reg, p).
Proof.
  intros Hid. unfold abilities. rewrite Hid.
  rewrite (bool_decide_eq_false_2 (3 = 1)) by lia.
  rewrite (bool_decide_eq_false_2 (3 = 2)) by lia.
  rewrite (bool_decide_eq_true_2 (3 = 3)) by lia.
  reflexivity.
Qed.

Section EarthFacts.

Variable hypot : Q -> Q -> Q.
Variable exits : gmap Z (list Vec2).

(** The level and registry an update returns are those of the ability
    dispatch, run on the actor the hazard check returned. *)
Lemma updatePlayer_abilities now pressed dt s p :
  let level := World.level s in
  let pm := (movePlayer hypot now pressed dt level (World.doubleTap s) p).1 in
  let ph := (hazardCheck level (centerCharOf level p) pm (World.deaths s)).1 in
  let r := updatePlayer hypot exits now pressed dt s p in
  Player.id ph = Player.id p /\
  Player.abilityCooldownUntil ph = Player.abilityCooldownUntil p /\
  (World.level r.1, World.tempPlatforms r.1)
  = if justPressedAction pressed s p
    then (abilities now level (World.tempPlatforms s) ph).1
    else (level, World.tempPlatforms s).
Proof.
  cbv zeta. unfold updatePlayer. cbv zeta.
  cbn [World.level World.with_prevActionDown World.doubleTap World.deaths
       World.plates World.with_doubleTap World.with_plates
       World.tempPlatforms World.with_deaths].
  pose proof (sameActor_movePlayer hypot now pressed dt (World.level s)
                (World.doubleTap s) p) as (Hid & _ & _ & Hcd & _).
  destruct (movePlayer _ _ _ _ _ _ _) as [pm dtap]. cbn [fst] in *.
  assert (Hh : Player.id
                 (hazardCheck (World.level s) (centerCharOf (World.level s) p)
                    pm (World.deaths s)).1 = Player.id p /\
               Player.abilityCooldownUntil
                 (hazardCheck (World.level s) (centerCharOf (World.level s) p)
                    pm (World.deaths s)).1 = Player.abilityCooldownUntil p).
  { unfold hazardCheck. destruct (hazardContact _ _ _); cbn [fst]; auto. }
  destruct (hazardCheck _ _ _ _) as [ph deaths']. cbn [fst snd] in *.
  destruct Hh as [Hidh Hcdh]. split; [exact Hidh |]. split; [exact Hcdh |].
  destruct (justPressedAction pressed s p); [| reflexivity].
  destruct (abilities _ _ _ _) as [[l' reg'] pa]. reflexivity.
Qed.

End EarthFacts.

(** C5. (a) An update of the Earth actor while its cooldown is running
    leaves the registry and the cooldown time stamp as they were.  (b) Off
    cooldown, the dispatch arms the cooldown (4 s from now) exactly when a
    platform is placed, the new entry then being the last of the registry;
    with no eligible tile, level, registry and actor are unchanged.  (c)
    Thirteen successive successful placements from an empty registry leave
    twelve entries, none of them on the tile of the first placement, which
    is empty again. *)
Theorem earth_cooldown_and_cap :
  (forall hypot exits now pressed dt s p,
     Player.id p = 3 ->
     (now < Player.abilityCooldownUntil p)%Q ->
     let r := updatePlayer hypot exits now pressed dt s p in
     World.tempPlatforms r.1 = World.tempPlatforms s /\
     Player.abilityCooldownUntil r.2 = Player.abilityCooldownUntil p) /\
  (forall now l reg p,
     Player.id p = 3 ->
     (Player.abilityCooldownUntil p <= now)%Q ->
     (earthTarget l p = None -> abilities now l reg p = (l, reg, p)) /\
     (forall c, earthTarget l p = Some c ->
        Player.abilityCooldownUntil (abilities now l reg p).2 = (now + 4000)%Q /\
        last (abilities now l reg p).1.2
        = Some (mkTempPlatform c.1 c.2 (now + 7000)%Q))) /\
  (forall calls l l' reg',
     length calls = 13%nat ->
     placements calls l [] = Some (l', reg') ->
     length reg' = 12%nat /\
     exists call rest c,
       calls = call :: rest /\ earthTarget l call.2 = Some c /\
       tileAt l' c.1 c.2 = Some "."%char /\ c ∉ tpCoord <$> reg').
Proof.
  split; [| split].
  - intros hypot exits now pressed dt s p Hid Hcd. cbv zeta.
    assert (Hoff : Qle_bool (Player.abilityCooldownUntil p) now = false).
    { apply not_true_iff_false. rewrite Qle_bool_iff.
      now apply Qlt_not_le. }
    pose proof (updatePlayer_abilities hypot exits now pressed dt s p) as H.
    cbv zeta in H. destruct H as (Hidh & Hcdh & Hlr).
    pose proof (updatePlayer_after_hazard hypot exits now pressed dt s p) as H.
    cbv zeta in H. destruct H as (_ & _ & Hkeep).
    split; [| apply Hkeep; auto].
    rewrite abilities_earth in Hlr by congruence.
    rewrite Hcdh, Hoff in Hlr.
    destruct (justPressedAction pressed s p); now inversion Hlr.
  - intros now l reg p Hid Hcd.
    apply Qle_bool_iff in Hcd.
    rewrite abilities_earth by exact Hid. rewrite Hcd.
    unfold doEarthAction. split.
    + intros ->. reflexivity.
    + intros c ->.
      destruct (evictOldest_cases (setTile l c.1 c.2 "X")
                  (reg ++ [mkTempPlatform c.1 c.2 (now + 7000)%Q]))
        as [[_ ->] | (o & rest & Heq & Hbig & ->)]; cbn [fst snd];
        (split; [reflexivity |]).
      * apply last_snoc.
      * destruct reg as [| o' reg0].
        { simpl in Hbig. lia. }
        simpl in Heq. injection Heq as _ <-. apply last_snoc.
  - intros calls l l' reg' Hlen Hrun.
    destruct calls as [| call calls]; [discriminate Hlen |]. simpl in Hlen.
    assert (Hsplit : calls = take 11 calls ++ drop 11 calls)
      by (symmetry; apply take_drop).
    assert (Hmid : length (take 11 calls) = 11%nat)
      by (rewrite length_take; lia).
    assert (Hlast : length (drop 11 calls) = 1%nat)
      by (rewrite length_drop; lia).
    destruct (drop 11 calls) as [| final [| ? ?]] eqn:Hd; try discriminate Hlast.
    set (mid := take 11 calls) in *. clearbody mid. subst calls.
    change (call :: mid ++ [final]) with ([call] ++ (mid ++ [final])) in Hrun.
    rewrite placements_app in Hrun.
    destruct (placements [call] l []) as [[l1 reg1] |] eqn:Hfirst;
      [| discriminate Hrun].
    rewrite placements_app in Hrun.
    destruct (placements mid l1 reg1) as [[l12 reg12] |] eqn:Hmiddle;
      [| discriminate Hrun].
    (* the first placement *)
    simpl in Hfirst.
    destruct (doEarthAction call.1 l [] call.2) as [[l1' reg1'] placed] eqn:Hc1.
    destruct placed; [| discriminate Hfirst].
    apply (inj Some) in Hfirst. injection Hfirst as -> ->.
    apply doEarthAction_placed in Hc1 as (c1 & Ht1 & Hcan1 & Hev1).
    destruct (place_keeps_platforms l [] c1 (call.1 + 7000)%Q)
      as [Hreg1 Hnd1]; [constructor | constructor | exact Hcan1 |].
    unfold evictOldest in Hev1. simpl in Hev1. injection Hev1 as <- <-.
    (* the next eleven *)
    simpl in Hreg1, Hnd1.
    assert (Hroom : (length [mkTempPlatform c1.1 c1.2 (call.1 + 7000)%Q]
                     + length mid <= 12)%nat) by (simpl; lia).
    destruct (placements_below_cap mid _ _ _ _ Hreg1 Hnd1 Hroom Hmiddle)
      as (Hreg12 & Hnd12 & news & -> & Hnews).
    (* the thirteenth *)
    simpl in Hrun.
    destruct (doEarthAction final.1 l12 _ final.2) as [[l13 reg13] placed]
      eqn:Hc13.
    destruct placed; [| discriminate Hrun].
    apply (inj Some) in Hrun. injection Hrun as -> ->.
    apply doEarthAction_placed in Hc13 as (c13 & _ & Hcan13 & Hev13).
    destruct (place_keeps_platforms l12 _ c13 (final.1 + 7000)%Q Hreg12 Hnd12
                Hcan13) as [Hreg13 Hnd13].
    unfold evictOldest in Hev13.
    rewrite (proj2 (Z.ltb_lt _ _)) in Hev13
      by (rewrite !length_app; simpl; lia).
    simpl in Hev13. injection Hev13 as <- <-.
    destruct (evict_keeps_platforms _ _ _ Hreg13 Hnd13) as (_ & _ & Hempty).
    split; [rewrite length_app; simpl; lia |].
    exists call, (mid ++ [final]), c1.
    split; [reflexivity |]. split; [exact Ht1 |]. split; [exact Hempty |].
    simpl in Hnd13. apply NoDup_cons in Hnd13 as [Hfresh _].
    destruct c1 as [x1 y1]. exact Hfresh.
Qed.

Lemma earth_cooldown_and_cap_witness :
  (let r := updatePlayer axisHypot demoExits 1500 {["ArrowDown"%string]}
                         (1 # 60) demoWorld earthOnCooldown in
   World.tempPlatforms r.1 = World.tempPlatforms demoWorld /\
   Player.abilityCooldownUntil r.2 = 4000%Q) /\
  (Player.abilityCooldownUntil (abilities 0 earthField [] (earthAt 0)).2
   = (0 + 4000)%Q /\
   last (abilities 0 earthField [] (earthAt 0)).1.2
   = Some (mkTempPlatform 0 1 (0 + 7000)%Q)) /\
  (let final := default (earthField, []) (placements thirteenCalls earthField [])
   in length final.2 = 12%nat /\ tileAt final.1 0 1 = Some "."%char).
Proof.
  destruct earth_cooldown_and_cap as (Ha & Hb & Hc).
  split; [| split].
  - apply (Ha axisHypot demoExits 1500%Q {["ArrowDown"%string]} (1 # 60)%Q
              demoWorld earthOnCooldown); vm_compute; reflexivity.
  - assert (Hid : Player.id (earthAt 0) = 3) by reflexivity.
    assert (Hcd : (Player.abilityCooldownUntil (earthAt 0) <= 0)%Q)
      by (vm_compute; discriminate).
    destruct (Hb 0%Q earthField [] (earthAt 0) Hid Hcd) as [_ Hplace].
    apply (Hplace (0, 1)). vm_compute. reflexivity.
  - cbv zeta.
    assert (Hlen : length thirteenCalls = 13%nat) by reflexivity.
    set (final := default (earthField, []) (placements thirteenCalls earthField [])).
    assert (Hrun : placements thirteenCalls earthField []
                   = Some (final.1, final.2)).
    { vm_compute. reflexivity. }
    destruct (Hc thirteenCalls earthField _ _ Hlen Hrun)
      as (Hsize & call & rest & c & Hcalls & Htarget & Hempty & _).
    split; [exact Hsize |].
    assert (Hc1 : c = (0, 1)).
    { unfold thirteenCalls in Hcalls. simpl in Hcalls.
      injection Hcalls as <- _. vm_compute in Htarget. congruence. }
    rewrite Hc1 in Hempty. exact Hempty.
Defined.

(** *** The registry invariant *)

Lemma sublist_fmap_coord (k l : list TempPlatform) :
  sublist k l -> sublist (tpCoord <$> k) (tpCoord <$> l).
Proof. induction 1; simpl; constructor; auto. Qed.

Lemma Forall_of_sublist {A} (P : A -> Prop) (k l : list A) :
  sublist k l -> Forall P l -> Forall P k.
Proof.
  rewrite !Forall_forall. intros Hsub H x Hx. apply H.
  eapply elem_of_sublist; eauto.
Qed.

Lemma StronglySorted_of_sublist {A} (R : A -> A -> Prop) (k l : list A) :
  sublist k l -> StronglySorted R l -> StronglySorted R k.
Proof.
  induction 1 as [| x k l Hsub IH | x k l Hsub IH]; intros Hs.
  - constructor.
  - apply StronglySorted_cons in Hs as [Hx Hs].
    apply StronglySorted_cons. split; [| auto].
    eapply Forall_of_sublist; eauto.
  - apply StronglySorted_cons in Hs as [_ Hs]. auto.
Qed.

(** Dropping entries keeps the registry without duplicates and in order. *)
Lemma registry_order_sublist now reg kept :
  sublist kept reg ->
  NoDup (tpCoord <$> reg) -> StronglySorted olderOrEqual reg ->
  Forall (fun tp => (expiresAt tp <= now + 7000)%Q) reg ->
  NoDup (tpCoord <$> kept) /\ StronglySorted olderOrEqual kept /\
  Forall (fun tp => (expiresAt tp <= now + 7000)%Q) kept.
Proof.
  intros Hsub Hnd Hs Hb. split; [| split].
  - eapply sublist_NoDup; [exact Hnd | now apply sublist_fmap_coord].
  - eapply StronglySorted_of_sublist; eauto.
  - eapply Forall_of_sublist; eauto.
Qed.

Lemma registry_bound_mono now now' reg :
  (now <= now')%Q ->
  Forall (fun tp => (expiresAt tp <= now + 7000)%Q) reg ->
  Forall (fun tp => (expiresAt tp <= now' + 7000)%Q) reg.
Proof.
  intros Hle H. eapply Forall_impl; [exact H |].
  intros tp Htp. simpl in Htp. lra.
Qed.

Lemma registryInv_later now now' l reg :
  (now <= now')%Q -> registryInv now l reg -> registryInv now' l reg.
Proof.
  intros Hle [Ht Hn Ho Hb]. constructor; auto.
  eapply registry_bound_mono; eauto.
Qed.

(** The sweep, with its accumulator: the entries kept are a subsequence of
    the registry and still refer to platform tiles. *)
Lemma expire_fold now reg : forall l acc,
  registryOnPlatforms l (acc ++ reg) -> NoDup (tpCoord <$> acc ++ reg) ->
  registryOnPlatforms (foldl (expireOne now) (l, acc) reg).1
                      (foldl (expireOne now) (l, acc) reg).2 /\
  exists kept, (foldl (expireOne now) (l, acc) reg).2 = acc ++ kept /\
               sublist kept reg.
Proof.
  induction reg as [| tp reg IH]; intros l acc Hreg Hnd; simpl.
  - rewrite app_nil_r in Hreg. split; [exact Hreg |].
    exists []. rewrite app_nil_r. split; [reflexivity | constructor].
  - unfold expireOne at 2 4 6. cbn [fst snd].
    destruct (Qle_bool (expiresAt tp) now).
    + assert (HX : tileAt l (tp_tx tp) (tp_ty tp) = Some "X"%char).
      { apply (registryOnPlatforms_coord l (acc ++ tp :: reg) tp Hreg).
        apply elem_of_app. right. left. }
      rewrite (proj2 (is_ch_true _ _) HX).
      assert (Hnd' : NoDup (tpCoord <$> acc ++ reg) /\
                     tpCoord tp ∉ tpCoord <$> acc ++ reg).
      { rewrite fmap_app, fmap_cons in Hnd. rewrite fmap_app.
        apply NoDup_app in Hnd as (Ha & Hdisj & Hr).
        apply NoDup_cons in Hr as [Hfresh Hr]. split.
        - apply NoDup_app. split; [exact Ha |]. split; [| exact Hr].
          intros x Hx Hx'. apply (Hdisj x Hx). now right.
        - intros Hin. apply elem_of_app in Hin as [Hin | Hin]; [| auto].
          apply (Hdisj _ Hin). left. }
      destruct Hnd' as [Hnd' Hfresh].
      destruct (IH (setTile l (tp_tx tp) (tp_ty tp) ".") acc)
        as (Hreg' & kept & Hkept & Hsub); [| exact Hnd' |].
      * apply registryOnPlatforms_setTile.
        -- eapply tileAt_inGrid; [exact HX | discriminate].
        -- exact Hfresh.
        -- unfold registryOnPlatforms in *. rewrite Forall_app in *.
           destruct Hreg as [Ha Hr]. apply Forall_cons_1 in Hr as [_ Hr]. auto.
      * split; [exact Hreg' |]. exists kept. split; [exact Hkept |].
        now constructor.
    + destruct (IH l (acc ++ [tp])) as (Hreg' & kept & Hkept & Hsub).
      * now rewrite <- app_assoc.
      * now rewrite <- app_assoc.
      * split; [exact Hreg' |]. exists (tp :: kept).
        rewrite Hkept, <- app_assoc. split; [reflexivity | now constructor].
Qed.

Lemma registryInv_expirePlatforms now now' l reg :
  registryInv now l reg -> (now <= now')%Q ->
  registryInv now' (expirePlatforms now' l reg).1 (expirePlatforms now' l reg).2.
Proof.
  intros [Ht Hn Ho Hb] Hle. unfold expirePlatforms.
  destruct (expire_fold now' reg l []) as (Hreg' & kept & Hkept & Hsub);
    [exact Ht | exact Hn |].
  simpl in Hkept.
  destruct (registry_order_sublist now' reg kept Hsub Hn Ho)
    as (Hn' & Ho' & Hb'); [eapply registry_bound_mono; eauto |].
  rewrite Hkept in *. constructor; auto.
Qed.

Lemma registryInv_doFireAction now l reg p :
  registryInv now l reg ->
  registryInv now (doFireAction l reg p).1 (doFireAction l reg p).2.
Proof.
  intros [Ht Hn Ho Hb]. unfold doFireAction. cbv zeta. cbn [fst snd].
  set (l' := foldl breakTile l (fireCandidates l p)).
  destruct (registry_order_sublist now reg (filter (holdsPlatform l') reg))
    as (Hn' & Ho' & Hb'); auto using sublist_filter.
  constructor; auto.
  unfold registryOnPlatforms. apply Forall_forall. intros tp Htp.
  now apply list_elem_of_filter in Htp as [Htp _].
Qed.

Lemma registryInv_doWaterAction now l reg p :
  registryInv now l reg -> registryInv now (doWaterAction l p) reg.
Proof.
  intros [Ht Hn Ho Hb]. constructor; auto.
  unfold doWaterAction. destruct (waterSeeds l p) as [| c seeds]; [exact Ht |].
  generalize (fillFuel (c :: seeds)). intros fuel.
  revert Ht.
  apply (fillLoop_preserves
           (fun l l' => registryOnPlatforms l reg -> registryOnPlatforms l' reg))
    with (s := mkFill l (c :: seeds) (list_to_set (c :: seeds)) 0); auto.
  intros l0 c0 HO Hreg. apply is_ch_true in HO.
  apply registryOnPlatforms_setTile; [| | exact Hreg].
  - eapply tileAt_inGrid; [exact HO | discriminate].
  - destruct c0 as [x y]. apply (unregistered_coord l0 reg (x, y) Hreg).
    cbn [fst snd] in *. rewrite HO. discriminate.
Qed.

Lemma registryInv_doEarthAction now l reg p :
  registryInv now l reg ->
  registryInv now (doEarthAction now l reg p).1.1 (doEarthAction now l reg p).1.2.
Proof.
  intros [Ht Hn Ho Hb].
  destruct (doEarthAction now l reg p) as [[l' reg'] placed] eqn:Hcall.
  cbn [fst snd]. destruct placed.
  - apply doEarthAction_placed in Hcall as (c & _ & Hcan & Hev).
    set (new := mkTempPlatform c.1 c.2 (now + 7000)%Q) in *.
    destruct (place_keeps_platforms l reg c (now + 7000)%Q Ht Hn Hcan)
      as [Ht1 Hn1]. fold new in Ht1, Hn1.
    assert (Ho1 : StronglySorted olderOrEqual (reg ++ [new])).
    { apply StronglySorted_app_2; [| exact Ho | repeat constructor].
      intros a b Ha Hb'. apply list_elem_of_singleton in Hb'. subst b.
      rewrite Forall_forall in Hb. exact (Hb a Ha). }
    assert (Hb1 : Forall (fun tp => (expiresAt tp <= now + 7000)%Q) (reg ++ [new])).
    { apply Forall_app. split; [exact Hb |]. repeat constructor. simpl. lra. }
    destruct (evictOldest_cases (setTile l c.1 c.2 "X") (reg ++ [new]))
      as [[_ Hsame] | (o & rest & Heq & _ & Hevict)].
    + rewrite Hsame in Hev. injection Hev as <- <-. constructor; auto.
    + rewrite Hevict in Hev. injection Hev as <- <-.
      rewrite Heq in *.
      destruct (evict_keeps_platforms _ _ _ Ht1 Hn1) as (Ht2 & Hn2 & _).
      apply StronglySorted_cons in Ho1 as [_ Ho2].
      apply Forall_cons_1 in Hb1 as [_ Hb2].
      constructor; auto.
  - apply doEarthAction_failed in Hcall as (_ & -> & ->). constructor; auto.
Qed.

Lemma registryInv_abilities now l reg p :
  registryInv now l reg ->
  registryInv now (abilities now l reg p).1.1 (abilities now l reg p).1.2.
Proof.
  intros Hinv. unfold abilities.
  destruct (bool_decide (Player.id p = 1)).
  { pose proof (registryInv_doFireAction now l reg p Hinv) as Hf.
    destruct (doFireAction l reg p). exact Hf. }
  destruct (bool_decide (Player.id p = 2)).
  { now apply registryInv_doWaterAction. }
  destruct (bool_decide (Player.id p = 3)); [| exact Hinv].
  destruct (Qle_bool _ _); [| exact Hinv].
  pose proof (registryInv_doEarthAction now l reg p Hinv) as He.
  destruct (doEarthAction now l reg p) as [[l' reg'] []]; exact He.
Qed.

Section RegistryStep.

Variable hypot : Q -> Q -> Q.
Variable exits : gmap Z (list Vec2).

Lemma registryInv_updatePlayer now pressed dt s p :
  registryInv now (World.level s) (World.tempPlatforms s) ->
  let r := updatePlayer hypot exits now pressed dt s p in
  registryInv now (World.level r.1) (World.tempPlatforms r.1).
Proof.
  intros Hinv. cbv zeta.
  pose proof (updatePlayer_abilities hypot exits now pressed dt s p) as H.
  cbv zeta in H. destruct H as (_ & _ & Hlr).
  destruct (justPressedAction pressed s p).
  - match type of Hlr with
    | _ = (abilities ?n ?l ?r ?q).1 =>
        pose proof (registryInv_abilities n l r q Hinv) as Ha;
        rewrite <- Hlr in Ha
    end.
    exact Ha.
  - injection Hlr as -> ->. exact Hinv.
Qed.

Lemma registryInv_updatePlayers now pressed dt ps : forall s,
  registryInv now (World.level s) (World.tempPlatforms s) ->
  let r := updatePlayers hypot exits now pressed dt s ps in
  registryInv now (World.level r.1) (World.tempPlatforms r.1).
Proof.
  induction ps as [| p ps IH]; intros s Hinv; simpl; [exact Hinv |].
  pose proof (registryInv_updatePlayer now pressed dt s p Hinv) as Hp.
  cbv zeta in Hp.
  destruct (updatePlayer _ _ _ _ _ _ _) as [s1 p'].
  pose proof (IH s1 Hp) as Hps. cbv zeta in Hps.
  destruct (updatePlayers _ _ _ _ _ _ _) as [s2 ps']. exact Hps.
Qed.

Lemma registryInv_simulate now now' pressed dt g :
  registryInv now (World.level (Game.world g))
              (World.tempPlatforms (Game.world g)) ->
  (now <= now')%Q ->
  let g' := simulate hypot exits now' pressed dt g in
  registryInv now' (World.level (Game.world g'))
              (World.tempPlatforms (Game.world g')).
Proof.
  intros Hinv Hle. cbv zeta.
  destruct (simulate_world hypot exits now' pressed dt g)
    as (s & ps & Hups & -> & _).
  cbv zeta in Hups.
  match type of Hups with
  | updatePlayers _ _ _ _ _ ?s0 ?ps0 = _ =>
      pose proof (registryInv_updatePlayers now' pressed dt ps0 s0) as Hstep
  end.
  cbv zeta in Hstep. rewrite Hups in Hstep. apply Hstep.
  pose proof (registryInv_expirePlatforms now now' _ _ Hinv Hle) as [Ht Hn Ho Hb].
  constructor; auto.
Qed.

End RegistryStep.

(** C9. The registry invariant (every entry refers to a tile that holds
    the platform symbol, no tile is registered twice, entries in insertion
    order, oldest first) holds for the empty registry and, as long as the
    clock does not run backwards, is kept by each operation (the expiry
    sweep, the Fire break with its filter, the Water fill, the Earth
    placement with its eviction) and by a whole simulation step. *)
Theorem registry_invariant_preserved :
  (forall now l, registryInv now l []) /\
  (forall now now' l reg p,
     registryInv now l reg -> (now <= now')%Q ->
     registryInv now' (expirePlatforms now' l reg).1
                 (expirePlatforms now' l reg).2 /\
     registryInv now' (doFireAction l reg p).1 (doFireAction l reg p).2 /\
     registryInv now' (doWaterAction l p) reg /\
     registryInv now' (doEarthAction now' l reg p).1.1
                 (doEarthAction now' l reg p).1.2) /\
  (forall hypot exits now now' pressed dt g,
     registryInv now (World.level (Game.world g))
                 (World.tempPlatforms (Game.world g)) ->
     (now <= now')%Q ->
     let g' := simulate hypot exits now' pressed dt g in
     registryInv now' (World.level (Game.world g'))
                 (World.tempPlatforms (Game.world g'))).
Proof.
  split; [| split].
  - intros now l. constructor; constructor.
  - intros now now' l reg p Hinv Hle.
    pose proof (registryInv_later now now' l reg Hle Hinv) as Hinv'.
    split; [now apply registryInv_expirePlatforms with (now := now) |].
    split; [now apply registryInv_doFireAction |].
    split; [now apply registryInv_doWaterAction |].
    now apply registryInv_doEarthAction.
  - intros hypot exits now now' pressed dt g Hinv Hle.
    now apply registryInv_simulate with (now := now).
Qed.

Lemma registry_invariant_preserved_witness :
  registryInv 0 fieldWithPlatform onePlatform /\
  (let r := doEarthAction 4000 fieldWithPlatform onePlatform (earthAt 3) in
   registryInv 4000 r.1.1 r.1.2) /\
  (let g' := simulate axisHypot demoExits 8000 {["ArrowDown"%string]} (1 # 60)
                      platformGame in
   registryInv 8000 (World.level (Game.world g'))
               (World.tempPlatforms (Game.world g'))).
Proof.
  assert (Hinv : registryInv 0 fieldWithPlatform onePlatform).
  { constructor.
    - constructor; [vm_compute; reflexivity | constructor].
    - apply NoDup_singleton.
    - repeat constructor.
    - constructor; [vm_compute; discriminate | constructor]. }
  assert (Hle1 : (0 <= 4000)%Q) by (vm_compute; discriminate).
  assert (Hle2 : (0 <= 8000)%Q) by (vm_compute; discriminate).
  destruct registry_invariant_preserved as (_ & Hops & Hstep).
  split; [exact Hinv |]. split.
  - apply (Hops 0%Q 4000%Q fieldWithPlatform onePlatform (earthAt 3) Hinv Hle1).
  - apply (Hstep axisHypot demoExits 0%Q 8000%Q {["ArrowDown"%string]}
                 (1 # 60)%Q platformGame Hinv Hle2).
Defined.

(** ** The flood fill *)

#[local] Set Warnings "-clear-no-such-hyp".

Lemma isDarkHole_spec l c : isDarkHole l c = true <-> darkHole l c.
Proof. unfold isDarkHole, darkHole. apply is_ch_true. Qed.

Lemma reachable_darkHole l seeds c : reachable l seeds c -> darkHole l c.
Proof. now destruct 1. Qed.

(** The scan of the eight neighbours appends the unseen dark holes among
    them to the queue and marks them seen. *)
Lemma visit_fold level tx ty ds : forall q seen,
  exists new,
    foldl (visitNeighbor level tx ty) (q, seen) ds
    = (q ++ new, list_to_set new ∪ seen) /\
    NoDup new /\ (length new <= length ds)%nat /\
    (forall n, n ∈ new ->
       (n ∉ seen) /\ isDarkHole level n = true /\
       exists d, d ∈ ds /\ n = (tx + d.1, ty + d.2)) /\
    (forall d, d ∈ ds -> isDarkHole level (tx + d.1, ty + d.2) = true ->
       (tx + d.1, ty + d.2) ∈@{gset (Z * Z)} list_to_set new ∪ seen).
Proof.
  induction ds as [| d ds IH]; intros q seen.
  - exists []. simpl. rewrite app_nil_r, (left_id_L ∅ (∪)).
    split; [reflexivity |]. split; [constructor |]. split; [lia |].
    split; intros x Hx; now apply elem_of_nil in Hx.
  - simpl. unfold visitNeighbor at 2. cbn [fst snd].
    set (n0 := (tx + d.1, ty + d.2)).
    destruct (negb (bool_decide (n0 ∈ seen)) && isDarkHole level n0) eqn:Hvisit.
    + apply andb_true_iff in Hvisit as [Hunseen Hdark].
      apply negb_true_iff, bool_decide_eq_false in Hunseen.
      destruct (IH (q ++ [n0]) ({[n0]} ∪ seen))
        as (new & Hfold & Hnd & Hlen & Hnew & Hall).
      exists (n0 :: new). rewrite Hfold, <- app_assoc. simpl.
      split; [f_equal; clearbody n0; clear; set_solver |].
      split.
      { constructor; [| exact Hnd]. intros Hin.
        destruct (Hnew n0 Hin) as [Hnot _]. clearbody n0. clear - Hnot.
        set_solver. }
      split; [lia |]. split.
      * intros n Hn. apply elem_of_cons in Hn as [-> | Hn].
        -- split; [exact Hunseen |]. split; [exact Hdark |].
           exists d. split; [left | reflexivity].
        -- destruct (Hnew n Hn) as (Hnot & Hd & d' & Hd' & ->).
           split; [clearbody n0; clear - Hnot; set_solver |].
           split; [exact Hd |].
           exists d'. split; [now right | reflexivity].
      * intros d' Hd' Hdark'. apply elem_of_cons in Hd' as [-> | Hd'].
        -- fold n0. clearbody n0. clear. set_solver.
        -- specialize (Hall d' Hd' Hdark'). clearbody n0. clear - Hall. set_solver.
    + destruct (IH q seen) as (new & Hfold & Hnd & Hlen & Hnew & Hall).
      exists new. rewrite Hfold. split; [reflexivity |].
      split; [exact Hnd |]. split; [lia |]. split.
      * intros n Hn. destruct (Hnew n Hn) as (Hnot & Hd & d' & Hd' & ->).
        split; [exact Hnot |]. split; [exact Hd |].
        exists d'. split; [now right | reflexivity].
      * intros d' Hd' Hdark'. apply elem_of_cons in Hd' as [-> | Hd'].
        -- fold n0 in Hdark' |- *. rewrite Hdark', andb_true_r in Hvisit.
           apply negb_false_iff, bool_decide_eq_true in Hvisit.
           clearbody n0. clear - Hvisit. set_solver.
        -- now apply Hall.
Qed.

Lemma tileAt_pair l (c : Z * Z) x y ch :
  tileAt l c.1 c.2 = Some ch -> ch <> "#"%char ->
  tileAt (setTile l c.1 c.2 x) y.1 y.2
  = if decide (y = c) then Some x else tileAt l y.1 y.2.
Proof.
  intros Hread Hwall. rewrite tileAt_setTile by (eapply tileAt_inGrid; eauto).
  destruct c as [cx cy], y as [yx yy]. cbn [fst snd].
  repeat case_decide; congruence.
Qed.

(** One conversion keeps the invariant, with the converted tile added. *)
Lemma fillStep_inv l0 seeds conv s s' :
  fillInv l0 seeds conv s -> fillStep s = Some s' ->
  exists conv', fillInv l0 seeds conv' s'.
Proof.
  intros [Htiles Hcount Hcnd Hcreach Hqnd Hqreach Hseen Hclosed Hseeds Hcap].
  unfold fillStep.
  destruct (f_q s) as [| c q'] eqn:Hq; [discriminate |].
  destruct (f_count s <? maxFill) eqn:Hlt; [| discriminate].
  apply Z.ltb_lt in Hlt.
  destruct (Hqreach c) as [Hreach Hfresh]; [left |].
  assert (Hdark0 : darkHole l0 c) by (eapply reachable_darkHole; eauto).
  assert (Hdark : tileAt (f_level s) c.1 c.2 = Some "O"%char).
  { rewrite Htiles, decide_False by exact Hfresh. exact Hdark0. }
  rewrite (proj2 (isDarkHole_spec _ _) Hdark).
  set (level' := setTile (f_level s) c.1 c.2 "W").
  destruct (visit_fold level' c.1 c.2 dirs8 q' (f_seen s))
    as (new & Hfold & Hnnd & _ & Hnew & Hall).
  rewrite Hfold. cbn [fst snd]. intros Hs'. apply (inj Some) in Hs'. subst s'.
  apply NoDup_cons in Hqnd as [Hcq' Hq'nd].
  assert (Htiles' : forall x, tileAt level' x.1 x.2
                      = if decide (x ∈ conv ++ [c]) then Some "W"%char
                        else tileAt l0 x.1 x.2).
  { intros x. unfold level'.
    rewrite (tileAt_pair _ c "W" x "O") by (auto; discriminate).
    rewrite Htiles. destruct (decide (x = c)) as [-> | Hne].
    - rewrite decide_True; [reflexivity |]. apply elem_of_app. right. left.
    - destruct (decide (x ∈ conv)) as [Hin | Hnin].
      + rewrite decide_True; [reflexivity |]. apply elem_of_app. now left.
      + rewrite decide_False; [reflexivity |]. intros Hin.
        apply elem_of_app in Hin as [Hin | Hin]; [auto |].
        apply list_elem_of_singleton in Hin. auto. }
  (* what the scan found *)
  assert (Hnew' : forall n, n ∈ new ->
            (n ∉ f_seen s) /\ n <> c /\ (n ∉ conv) /\ darkHole l0 n /\ adjacent8 c n).
  { intros n Hn. destruct (Hnew n Hn) as (Hunseen & Hd & d & Hdin & Heq).
    apply isDarkHole_spec in Hd. unfold darkHole in Hd.
    rewrite Htiles' in Hd.
    destruct (decide (n ∈ conv ++ [c])) as [Hin | Hnin]; [discriminate Hd |].
    rewrite elem_of_app, list_elem_of_singleton in Hnin.
    split; [exact Hunseen |]. split; [tauto |]. split; [tauto |].
    split; [exact Hd |]. exists d. auto. }
  exists (conv ++ [c]). constructor; cbn [f_level f_q f_seen f_count].
  - exact Htiles'.
  - rewrite length_app. simpl. lia.
  - apply NoDup_app. split; [exact Hcnd |]. split; [| apply NoDup_singleton].
    intros x Hx Hx'. apply list_elem_of_singleton in Hx'. subst x. auto.
  - intros x Hx. apply elem_of_app in Hx as [Hx | Hx]; [auto |].
    apply list_elem_of_singleton in Hx. now subst x.
  - apply NoDup_app. split; [exact Hq'nd |]. split; [| exact Hnnd].
    intros x Hx Hx'. destruct (Hnew' x Hx') as (Hunseen & _).
    apply Hunseen, Hseen. right. now right.
  - intros x Hx. apply elem_of_app in Hx as [Hx | Hx].
    + destruct (Hqreach x) as [Hr Hnc]; [now right |].
      split; [exact Hr |]. rewrite elem_of_app, list_elem_of_singleton.
      intros [? | ->]; auto.
    + destruct (Hnew' x Hx) as (_ & Hne & Hnc & Hd & Hadj).
      split; [eapply reach_step; eauto |].
      rewrite elem_of_app, list_elem_of_singleton. tauto.
  - intros x. rewrite elem_of_union, elem_of_list_to_set, Hseen.
    rewrite !elem_of_app, elem_of_cons, list_elem_of_singleton. tauto.
  - intros x n Hx Hadj Hd. rewrite elem_of_union, elem_of_list_to_set.
    apply elem_of_app in Hx as [Hx | Hx]; [right; eauto |].
    apply list_elem_of_singleton in Hx. subst x.
    destruct (decide (n ∈ f_seen s)) as [? | Hunseen]; [now right |].
    destruct Hadj as (d & Hdin & ->).
    assert (Hdl : isDarkHole level' (c.1 + d.1, c.2 + d.2) = true).
    { apply isDarkHole_spec. unfold darkHole. rewrite Htiles'.
      rewrite decide_False; [exact Hd |].
      rewrite elem_of_app, list_elem_of_singleton. intros [Hin | Heq].
      - apply Hunseen, Hseen. now left.
      - apply Hunseen, Hseen. right. rewrite Heq. left. }
    specialize (Hall d Hdin Hdl).
    now rewrite elem_of_union, elem_of_list_to_set in Hall.
  - intros x Hx. rewrite elem_of_union. right. auto.
  - lia.
Qed.

Lemma fillStep_measure s s' :
  fillStep s = Some s' -> (fillMeasure s' < fillMeasure s)%nat.
Proof.
  unfold fillStep, fillMeasure.
  destruct (f_q s) as [| c q']; [discriminate |].
  destruct (f_count s <? maxFill) eqn:Hlt; [| discriminate].
  apply Z.ltb_lt in Hlt.
  destruct (isDarkHole (f_level s) c).
  - destruct (visit_fold (setTile (f_level s) c.1 c.2 "W") c.1 c.2 dirs8 q'
                (f_seen s)) as (new & Hfold & _ & Hlen & _).
    rewrite Hfold. intros Hs'. apply (inj Some) in Hs'. subst s'.
    cbn [f_q f_count fst]. rewrite length_app.
    change (length dirs8) with 8%nat in Hlen. simpl length. lia.
  - intros Hs'. apply (inj Some) in Hs'. subst s'. cbn [f_q f_count].
    simpl length. lia.
Qed.

(** The loop leaves by its own condition: the fuel is not exhausted. *)
Lemma fillLoop_exits fuel : forall s,
  (fillMeasure s <= fuel)%nat -> fillStep (fillLoop fuel s) = None.
Proof.
  induction fuel as [| fuel IH]; intros s Hm; simpl.
  - destruct (fillStep s) as [s' |] eqn:Hs; [| reflexivity].
    apply fillStep_measure in Hs. lia.
  - destruct (fillStep s) as [s' |] eqn:Hs; [| exact Hs].
    apply IH. apply fillStep_measure in Hs. lia.
Qed.

Lemma fillLoop_inv l0 seeds fuel : forall s conv,
  fillInv l0 seeds conv s ->
  exists conv', fillInv l0 seeds conv' (fillLoop fuel s).
Proof.
  induction fuel as [| fuel IH]; intros s conv Hinv; simpl; [eauto |].
  destruct (fillStep s) as [s' |] eqn:Hs; [| eauto].
  destruct (fillStep_inv l0 seeds conv s s' Hinv Hs) as [conv' Hinv'].
  eauto.
Qed.

(** When the loop stops below the cap, everything reachable is converted. *)
Lemma fill_complete l0 seeds conv s :
  fillInv l0 seeds conv s -> fillStep s = None -> f_count s < maxFill ->
  forall c, reachable l0 seeds c -> c ∈ conv.
Proof.
  intros [_ _ _ _ _ _ Hseen Hclosed Hseeds _] Hstop Hlt.
  assert (Hq : f_q s = []).
  { unfold fillStep in Hstop. destruct (f_q s); [reflexivity |].
    rewrite (proj2 (Z.ltb_lt _ _) Hlt) in Hstop.
    destruct (isDarkHole _ _); discriminate Hstop. }
  assert (Hconv : forall c, c ∈ f_seen s -> c ∈ conv).
  { intros c Hc. apply Hseen in Hc as [Hc | Hc]; [exact Hc |].
    rewrite Hq in Hc. now apply elem_of_nil in Hc. }
  induction 1 as [c Hc Hd | a b Ha IH Hadj Hd]; eauto.
Qed.

Lemma NoDup_window3x3 tx ty : NoDup (window3x3 tx ty).
Proof.
  unfold window3x3.
  repeat (apply NoDup_cons; split;
          [rewrite ?elem_of_cons, elem_of_nil;
           intros H; repeat destruct H as [H | H]; try exact H;
           injection H; lia |]).
  constructor.
Qed.

Lemma waterSeeds_spec l p c :
  c ∈ waterSeeds l p <->
  c ∈ window3x3
        (worldToTile (vec_x (Player.pos p)) (vec_y (Player.pos p))
                     (Level.tileSize l)).1
        (worldToTile (vec_x (Player.pos p)) (vec_y (Player.pos p))
                     (Level.tileSize l)).2
  /\ darkHole l c.
Proof.
  unfold waterSeeds. cbv zeta.
  rewrite !list_elem_of_In, filter_In, isDarkHole_spec. reflexivity.
Qed.

Lemma fill_start l seeds :
  NoDup seeds -> (forall c, c ∈ seeds -> darkHole l c) ->
  fillInv l seeds [] (mkFill l seeds (list_to_set seeds) 0).
Proof.
  intros Hnd Hdark. constructor; cbn [f_level f_q f_seen f_count].
  - intros c. rewrite decide_False; [reflexivity | apply not_elem_of_nil].
  - reflexivity.
  - constructor.
  - intros c Hc. now apply elem_of_nil in Hc.
  - exact Hnd.
  - intros c Hc. split; [apply reach_seed; auto | apply not_elem_of_nil].
  - intros c. rewrite elem_of_list_to_set, elem_of_nil. tauto.
  - intros c n Hc. now apply elem_of_nil in Hc.
  - intros c Hc. now apply elem_of_list_to_set.
  - unfold maxFill. lia.
Qed.

(** C6. The seeds of a Water action are the dark holes of the 3x3 window
    around the actor's centre tile; with no seed the level is unchanged.
    In general the action turns a duplicate-free list [conv] of tiles into
    water and changes nothing else: every tile of [conv] is a dark hole
    reachable from the seeds, [conv] has at most 2000 tiles, and if it has
    fewer than 2000 it contains every reachable dark hole; so when the
    reachable dark holes number N < 2000, exactly those N tiles are
    converted. *)
Theorem water_flood_fill (l : Level.t) (p : Player.t) :
  let center :=
    worldToTile (vec_x (Player.pos p)) (vec_y (Player.pos p))
                (Level.tileSize l) in
  let seeds := waterSeeds l p in
  let l' := doWaterAction l p in
  (forall c, c ∈ seeds <-> c ∈ window3x3 center.1 center.2 /\ darkHole l c) /\
  (seeds = [] -> l' = l) /\
  exists conv : list (Z * Z),
    NoDup conv /\
    sameFrame l l' /\
    (forall c, tileAt l' c.1 c.2
               = if decide (c ∈ conv) then Some "W"%char else tileAt l c.1 c.2) /\
    (forall c, c ∈ conv -> reachable l seeds c) /\
    Z.of_nat (length conv) <= 2000 /\
    (Z.of_nat (length conv) < 2000 ->
     forall c, reachable l seeds c -> c ∈ conv) /\
    (forall region : list (Z * Z),
       NoDup region -> (forall c, c ∈ region <-> reachable l seeds c) ->
       Z.of_nat (length region) < 2000 -> conv ≡ₚ region).
Proof.
  cbv zeta.
  split; [apply waterSeeds_spec |].
  split; [unfold doWaterAction; now intros -> |].
  assert (Hgoal : exists conv : list (Z * Z),
            NoDup conv /\
            (forall c, tileAt (doWaterAction l p) c.1 c.2
               = if decide (c ∈ conv) then Some "W"%char else tileAt l c.1 c.2) /\
            (forall c, c ∈ conv -> reachable l (waterSeeds l p) c) /\
            Z.of_nat (length conv) <= 2000 /\
            (Z.of_nat (length conv) < 2000 ->
             forall c, reachable l (waterSeeds l p) c -> c ∈ conv)).
  { unfold doWaterAction.
    destruct (waterSeeds l p) as [| c0 seeds0] eqn:Hseeds.
    - exists []. split; [constructor |]. split.
      { intros c. rewrite decide_False; [reflexivity | apply not_elem_of_nil]. }
      split; [intros c Hc; now apply elem_of_nil in Hc |].
      split; [simpl; lia |].
      intros _ c Hr. exfalso.
      induction Hr as [c Hc _ | a b _ IH _ _]; [| exact IH].
      now apply elem_of_nil in Hc.
    - set (seeds := c0 :: seeds0) in *.
      assert (Hstart : fillInv l seeds [] (mkFill l seeds (list_to_set seeds) 0)).
      { apply fill_start.
        - rewrite <- Hseeds. unfold waterSeeds. cbv zeta.
          apply NoDup_ListNoDup, List.NoDup_filter, NoDup_ListNoDup,
            NoDup_window3x3.
        - intros c Hc. rewrite <- Hseeds in Hc.
          now apply waterSeeds_spec in Hc as [_ Hd]. }
      assert (Hfuel : (fillMeasure (mkFill l seeds (list_to_set seeds) 0)
                       <= fillFuel seeds)%nat).
      { unfold fillMeasure, fillFuel. cbn [f_q f_count].
        rewrite Z.sub_0_r. lia. }
      generalize dependent (fillFuel seeds). intros fuel Hfuel.
      destruct (fillLoop_inv l seeds fuel _ _ Hstart) as [conv Hinv].
      pose proof (fillLoop_exits fuel _ Hfuel) as Hstop.
      exists conv. pose proof Hinv as [Ht Hc Hnd Hr _ _ _ _ _ Hcap].
      split; [exact Hnd |]. split; [exact Ht |]. split; [exact Hr |].
      split; [unfold maxFill in Hcap; lia |].
      intros Hlt. apply (fill_complete l seeds conv _ Hinv Hstop).
      unfold maxFill. lia. }
  destruct Hgoal as (conv & Hnd & Ht & Hr & Hcap & Hall).
  exists conv. split; [exact Hnd |].
  split; [apply levelKept_doWaterAction |].
  split; [exact Ht |]. split; [exact Hr |]. split; [exact Hcap |].
  split; [exact Hall |].
  intros region Hrnd Hregion Hsmall.
  assert (Hsub : forall c, c ∈ conv -> c ∈ region).
  { intros c Hc. apply Hregion. auto. }
  assert (Hlen : (length conv <= length region)%nat).
  { apply submseteq_length, NoDup_submseteq; auto. }
  apply NoDup_Permutation; auto.
  intros c. split; [auto |]. intros Hc. apply Hall; [lia |].
  now apply Hregion.
Qed.

Lemma water_flood_fill_witness :
  doWaterAction demoLevel waterAwayFromHoles = demoLevel /\
  exists conv : list (Z * Z),
    conv ≡ₚ [(2, 2); (3, 2); (3, 3)] /\
    forall c, tileAt (doWaterAction demoLevel waterNearHoles) c.1 c.2
              = if decide (c ∈ conv) then Some "W"%char
                else tileAt demoLevel c.1 c.2.
Proof.
  split.
  - destruct (water_flood_fill demoLevel waterAwayFromHoles) as (_ & Hnone & _).
    apply Hnone. vm_compute. reflexivity.
  - destruct (water_flood_fill demoLevel waterNearHoles)
      as (_ & _ & conv & _ & _ & Htiles & _ & _ & _ & Hexact).
    exists conv. split; [| exact Htiles].
    assert (Hseeds : waterSeeds demoLevel waterNearHoles = [(2, 2)])
      by (vm_compute; reflexivity).
    assert (Hmem : forall c : Z * Z,
              In c [(2, 2); (3, 2); (3, 3)] -> c ∈ [(2, 2); (3, 2); (3, 3)])
      by (intros c; apply list_elem_of_In).
    apply Hexact.
    + apply NoDup_ListNoDup. repeat constructor; simpl; intuition congruence.
    + rewrite Hseeds. intros c. split.
      * rewrite !elem_of_cons, elem_of_nil.
        assert (H22 : reachable demoLevel [(2, 2)] (2, 2)).
        { apply reach_seed; [left | vm_compute; reflexivity]. }
        assert (H32 : reachable demoLevel [(2, 2)] (3, 2)).
        { apply (reach_step _ _ (2, 2)); [exact H22 | | vm_compute; reflexivity].
          exists (1, 0). split; [| reflexivity].
          apply list_elem_of_In. simpl. auto 10. }
        assert (H33 : reachable demoLevel [(2, 2)] (3, 3)).
        { apply (reach_step _ _ (3, 2)); [exact H32 | | vm_compute; reflexivity].
          exists (0, 1). split; [| reflexivity].
          apply list_elem_of_In. simpl. auto 10. }
        intros [-> | [-> | [-> | []]]]; assumption.
      * induction 1 as [c Hc _ | a b _ IH Hadj Hd].
        -- apply list_elem_of_singleton in Hc. subst c. apply Hmem. simpl. auto.
        -- destruct Hadj as (d & Hdin & ->).
           apply list_elem_of_In in IH, Hdin. simpl in IH, Hdin.
           unfold darkHole in Hd.
           destruct IH as [<- | [<- | [<- | []]]];
             repeat (destruct Hdin as [<- | Hdin]); try contradiction;
             vm_compute in Hd; try discriminate Hd;
             apply Hmem; vm_compute; auto 10.
    + simpl. lia.
Defined.

(** * Further properties of the code *)

(** ** Utilities *)

Lemma clamp_range (v lo hi : Q) :
  (lo <= hi)%Q -> (lo <= clamp v lo hi)%Q /\ (clamp v lo hi <= hi)%Q.
Proof.
  intros Hle. unfold clamp. split; [apply Q.le_max_l |].
  apply Q.max_lub; [exact Hle | apply Q.le_min_l].
Qed.

(** X1. [clamp] with ordered bounds returns a value between them, and
    returns its argument (up to the equality of rationals) when that lies
    between them; so the frame time of [loop] is between 0 and 1/30
    whatever the two time stamps are. *)
Theorem clamp_bounds (v lo hi : Q) :
  (lo <= hi)%Q ->
  (lo <= clamp v lo hi)%Q /\ (clamp v lo hi <= hi)%Q /\
  ((lo <= v)%Q -> (v <= hi)%Q -> (clamp v lo hi == v)%Q) /\
  (forall t last : Q,
     (0 <= clamp ((t - last) / 1000) 0 (1 # 30))%Q /\
     (clamp ((t - last) / 1000) 0 (1 # 30) <= 1 # 30)%Q).
Proof.
  intros Hle. destruct (clamp_range v lo hi Hle) as [H1 H2].
  split; [exact H1 |]. split; [exact H2 |]. split.
  - intros Hlo Hhi. unfold clamp.
    rewrite (Q.min_r hi v Hhi). apply Q.max_r. exact Hlo.
  - intros t last. apply clamp_range. discriminate.
Qed.

Lemma clamp_bounds_witness :
  (0 <= clamp 5 0 (1 # 30))%Q /\ (clamp 5 0 (1 # 30) <= 1 # 30)%Q.
Proof.
  destruct (clamp_bounds 5 0 (1 # 30)) as (H1 & H2 & _); [discriminate |].
  split; [exact H1 | exact H2].
Defined.

(** X2. [rectIntersect] is the overlap of two half-open rectangles: it is
    true exactly when each rectangle starts strictly before the other ends,
    on both axes.  It is symmetric, and rectangles that only share an edge
    do not intersect. *)
Theorem rectIntersect_half_open (a b : Rect) :
  (rectIntersect a b = true <->
   (r_x b < r_x a + r_w a)%Q /\ (r_x a < r_x b + r_w b)%Q /\
   (r_y b < r_y a + r_h a)%Q /\ (r_y a < r_y b + r_h b)%Q) /\
  rectIntersect a b = rectIntersect b a /\
  ((r_x a + r_w a == r_x b)%Q -> rectIntersect a b = false).
Proof.
  assert (Hspec : forall a b : Rect,
            rectIntersect a b = true <->
            (r_x b < r_x a + r_w a)%Q /\ (r_x a < r_x b + r_w b)%Q /\
            (r_y b < r_y a + r_h a)%Q /\ (r_y a < r_y b + r_h b)%Q).
  { intros a0 b0. unfold rectIntersect.
    rewrite negb_true_iff, !orb_false_iff, !Qle_bool_false. tauto. }
  split; [apply Hspec |]. split.
  - apply eq_true_iff_eq. rewrite !Hspec. tauto.
  - intros Hedge. apply not_true_iff_false. rewrite Hspec.
    intros (H1 & _). rewrite Hedge in H1. revert H1. apply Qlt_irrefl.
Qed.

(** X3. With a positive tile size, [worldToTile] returns the tile whose
    half-open square contains the point. *)
Theorem worldToTile_contains (x y tileSize : Q) :
  (0 < tileSize)%Q ->
  let t := worldToTile x y tileSize in
  (inject_Z t.1 * tileSize <= x)%Q /\ (x < inject_Z (t.1 + 1) * tileSize)%Q /\
  (inject_Z t.2 * tileSize <= y)%Q /\ (y < inject_Z (t.2 + 1) * tileSize)%Q.
Proof.
  intros Hts. cbv zeta. unfold worldToTile. cbn [fst snd].
  assert (Haxis : forall v : Q,
            (inject_Z (Qfloor (v / tileSize)) * tileSize <= v)%Q /\
            (v < inject_Z (Qfloor (v / tileSize) + 1) * tileSize)%Q).
  { intros v.
    pose proof (Qfloor_le (v / tileSize)) as Hlo.
    pose proof (Qlt_floor (v / tileSize)) as Hhi.
    assert (Hv : (v == v / tileSize * tileSize)%Q).
    { field. intros H0. rewrite H0 in Hts. revert Hts. apply Qlt_irrefl. }
    split.
    - rewrite Hv at 2. apply Qmult_le_compat_r; [exact Hlo |].
      now apply Qlt_le_weak.
    - rewrite Hv at 1. apply Qmult_lt_compat_r; assumption. }
  destruct (Haxis x) as [Hx1 Hx2]. destruct (Haxis y) as [Hy1 Hy2]. auto.
Qed.

Lemma worldToTile_contains_witness :
  (inject_Z (worldToTile 100 70 TILE).1 * TILE <= 100)%Q /\
  (100 < inject_Z ((worldToTile 100 70 TILE).1 + 1) * TILE)%Q /\
  (inject_Z (worldToTile 100 70 TILE).2 * TILE <= 70)%Q /\
  (70 < inject_Z ((worldToTile 100 70 TILE).2 + 1) * TILE)%Q.
Proof.
  apply (worldToTile_contains 100 70 TILE). reflexivity.
Defined.

(** ** Tile semantics and grid access *)

(** X4. For every symbol (also [undefined]), every actor identity and
    either door state, at most one of solid, liquid and hazardous holds;
    and only the door symbol is solid in one door state and not in the
    other. *)
Theorem tile_classes_exclusive (ch : option ascii) (playerId : Z)
    (doorOpen : bool) :
  (isSolid ch doorOpen = true ->
   isLiquidForPlayer ch playerId = false /\ isHazardFor ch playerId = false) /\
  (isLiquidForPlayer ch playerId = true -> isHazardFor ch playerId = false) /\
  (isSolid ch true <> isSolid ch false -> ch = Some "Z"%char).
Proof.
  unfold isSolid, isLiquidForPlayer, isHazardFor, isColoredHole,
    safePlayerForColoredHole, is_ch.
  repeat split;
    repeat (case_bool_decide; simplify_eq; cbn [negb orb andb]);
    try destruct doorOpen; cbn [negb orb andb]; intros; try congruence;
    try (split; congruence).
Qed.

(** X5. [replaceChar] at an index inside the string keeps its length, puts
    the character at that index and leaves the other positions; at an index
    at or past the end it appends the character. *)
Theorem replaceChar_in_and_out_of_range (str : list ascii) (index : Z)
    (char : ascii) :
  0 <= index ->
  (index < Z.of_nat (length str) ->
   length (replaceChar str index char) = length str /\
   replaceChar str index char !! Z.to_nat index = Some char /\
   forall j, j <> Z.to_nat index ->
             replaceChar str index char !! j = str !! j) /\
  (Z.of_nat (length str) <= index ->
   replaceChar str index char = str ++ [char]).
Proof.
  intros H0. split.
  - intros Hlt. rewrite replaceChar_insert by lia.
    split; [apply length_insert |]. split.
    + apply list_lookup_insert_eq. lia.
    + intros j Hj. now apply list_lookup_insert_ne.
  - intros Hge. unfold replaceChar.
    rewrite take_ge by lia. rewrite drop_ge by lia. reflexivity.
Qed.

Lemma replaceChar_in_and_out_of_range_witness :
  replaceChar (list_ascii_of_string "#..#") 4 "X"
  = list_ascii_of_string "#..#" ++ ["X"%char].
Proof.
  apply (replaceChar_in_and_out_of_range (list_ascii_of_string "#..#") 4 "X");
    simpl; lia.
Defined.

(** X6. Writing a tile and reading the grid: a write outside the bounds
    leaves the level as it is; a write to a tile that reads as a symbol
    other than the wall is read back at that tile, changes no other tile
    and keeps the dimensions, the tile size and the door flag. *)
Theorem setTile_then_tileAt (level : Level.t) (tx ty : Z) (ch : ascii) :
  ((tx < 0 \/ tx >= Level.w level \/ ty < 0 \/ ty >= Level.h level) ->
   setTile level tx ty ch = level) /\
  (forall c0, tileAt level tx ty = Some c0 -> c0 <> "#"%char ->
     tileAt (setTile level tx ty ch) tx ty = Some ch /\
     (forall tx' ty', (tx', ty') <> (tx, ty) ->
        tileAt (setTile level tx ty ch) tx' ty' = tileAt level tx' ty') /\
     sameFrame level (setTile level tx ty ch)).
Proof.
  split.
  - intros Hout. apply outOfBounds_spec in Hout. unfold setTile.
    now rewrite Hout.
  - intros c0 Hread Hwall.
    assert (Hin : inGrid level tx ty) by (eapply tileAt_inGrid; eauto).
    split; [now apply tileAt_setTile_eq |]. split.
    + intros tx' ty' Hne. now apply tileAt_setTile_ne.
    + apply sameFrame_setTile.
Qed.

(** ** Physics *)

Lemma Qltb_true (a b : Q) : Qltb a b = true <-> (a < b)%Q.
Proof. unfold Qltb. rewrite negb_true_iff. apply Qle_bool_false. Qed.

Lemma Qltb_false (a b : Q) : Qltb a b = false <-> (b <= a)%Q.
Proof. unfold Qltb. rewrite negb_false_iff. apply Qle_bool_iff. Qed.

(** What [moveAndCollide] does to the ground flag, the jump lock and the
    air-jump budget. *)
Lemma moveAndCollide_cases level p dt :
  let p' := moveAndCollide level p dt in
  (Player.onGround p' = true /\ (0 < vec_y (Player.vel p))%Q /\
   vec_y (Player.vel p') = 0%Q /\ Player.jumpLock p' = false /\
   Player.airJumpsLeft p' = Player.maxAirJumps p /\
   exists ty : Z,
     vec_y (Player.pos p')
     = (inject_Z ty * Level.tileSize level - half (Player.h p) - (1 # 100))%Q)
  \/
  (Player.onGround p' = false /\ Player.jumpLock p' = Player.jumpLock p /\
   Player.airJumpsLeft p' = Player.airJumpsLeft p).
Proof.
  cbv zeta. unfold moveAndCollide. cbv zeta.
  destruct (collideX level p _) as [nx velx].
  cbn [Player.vel Player.with_vel Player.with_onGround vec_y vec_x].
  destruct (Qltb 0 (vec_y (Player.vel p))) eqn:Hdown.
  - apply Qltb_true in Hdown.
    destruct (_ || _).
    + left. cbn. repeat split; try assumption. eauto.
    + right. cbn. auto.
  - destruct (Qltb (vec_y (Player.vel p)) 0); [destruct (_ || _) |];
      right; cbn; auto.
Qed.

(** X7. [moveAndCollide] sets the ground flag only on a downward
    collision: the actor was moving down, its vertical speed becomes zero,
    its jump lock is cleared, its air-jump budget is refilled to the
    maximum and its centre is put half its height plus 0.01 above a tile
    boundary.  When the actor is not grounded by the call, jump lock and
    air-jump budget are as before. *)
Theorem grounded_only_by_downward_collision (level : Level.t) (p : Player.t)
    (dt : Q) :
  let p' := moveAndCollide level p dt in
  (Player.onGround p' = true ->
   (0 < vec_y (Player.vel p))%Q /\ vec_y (Player.vel p') = 0%Q /\
   Player.jumpLock p' = false /\
   Player.airJumpsLeft p' = Player.maxAirJumps p /\
   exists ty : Z,
     vec_y (Player.pos p')
     = (inject_Z ty * Level.tileSize level - half (Player.h p) - (1 # 100))%Q) /\
  (Player.onGround p' = false ->
   Player.jumpLock p' = Player.jumpLock p /\
   Player.airJumpsLeft p' = Player.airJumpsLeft p).
Proof.
  cbv zeta.
  destruct (moveAndCollide_cases level p dt) as [(Hg & H) | (Hg & H)];
    cbv zeta in *; rewrite Hg; split; intros Heq;
    first [discriminate Heq | exact H].
Qed.

(** X8. Horizontal input: while the actor is not dashing, exactly one of
    left and right held sets the horizontal speed to the movement speed
    (swim speed in liquid) in that direction and turns the actor; otherwise
    the speed does not grow, keeps the facing, and is either zero or at
    least 6 in absolute value.  A dashing actor is left as it is. *)
Theorem horizontal_input_and_damping (leftDown rightDown inLiquid : bool)
    (p : Player.t) :
  let p' := horizontalMovement leftDown rightDown inLiquid p in
  let speed := if inLiquid then SWIM_SPEED else MOVE_SPEED in
  (Player.isDashing p = true -> p' = p) /\
  (Player.isDashing p = false ->
   (leftDown = true -> rightDown = false ->
    vec_x (Player.vel p') = (- speed)%Q /\ Player.facing p' = -1) /\
   (rightDown = true -> leftDown = false ->
    vec_x (Player.vel p') = speed /\ Player.facing p' = 1) /\
   (leftDown = rightDown ->
    Player.facing p' = Player.facing p /\
    (Qabs (vec_x (Player.vel p')) <= Qabs (vec_x (Player.vel p)))%Q /\
    (vec_x (Player.vel p') = 0%Q \/ (6 <= Qabs (vec_x (Player.vel p')))%Q))).
Proof.
  cbv zeta. unfold horizontalMovement. cbv zeta. split.
  - intros ->. reflexivity.
  - intros ->. cbn [negb]. split; [| split].
    + intros -> ->. cbn. auto.
    + intros -> ->. cbn. auto.
    + intros <-. rewrite andb_negb_r. cbn [Player.facing Player.with_vel].
      split; [reflexivity |].
      assert (Hdecay : forall f : Q, (0 <= f)%Q -> (f <= 1)%Q ->
                (Qabs (vec_x (Player.vel p) * f)
                 <= Qabs (vec_x (Player.vel p)))%Q).
      { intros f H0 H1. rewrite Qabs_Qmult, (Qabs_pos f H0).
        rewrite <- (Qmult_1_r (Qabs (vec_x (Player.vel p)))) at 2.
        rewrite (Qmult_comm _ f), (Qmult_comm _ 1).
        apply Qmult_le_compat_r; [exact H1 | apply Qabs_nonneg]. }
      set (vx := if Player.onGround p && negb inLiquid
                 then (vec_x (Player.vel p) * FRICTION)%Q
                 else (vec_x (Player.vel p)
                       * (if inLiquid then WATER_DRAG_X else AIR_DRAG))%Q).
      assert (Hvx : (Qabs vx <= Qabs (vec_x (Player.vel p)))%Q).
      { unfold vx. destruct (Player.onGround p && negb inLiquid);
          [| destruct inLiquid]; apply Hdecay; discriminate. }
      cbn [Player.vel vec_x].
      destruct (Qltb (Qabs vx) 6) eqn:Hsmall; cbn [vec_x].
      * split; [apply Qabs_nonneg | now left].
      * split; [exact Hvx |]. right. now apply Qltb_false.
Qed.

(** X9. Vertical physics: after the block the vertical speed of an actor
    that is not dashing lies in the swim band [-260, 420] in liquid and in
    the band [-700, 1200] otherwise; the horizontal speed is untouched, and
    a dashing actor is left as it is. *)
Theorem vertical_speed_bands (jumpDown inLiquid : bool) (dt : Q)
    (p : Player.t) :
  let p' := verticalPhysics jumpDown inLiquid dt p in
  (Player.isDashing p = true -> p' = p) /\
  (Player.isDashing p = false ->
   vec_x (Player.vel p') = vec_x (Player.vel p) /\
   (if inLiquid
    then (-260 <= vec_y (Player.vel p'))%Q /\ (vec_y (Player.vel p') <= 420)%Q
    else (-700 <= vec_y (Player.vel p'))%Q /\ (vec_y (Player.vel p') <= 1200)%Q)).
Proof.
  cbv zeta. unfold verticalPhysics. cbv zeta. split.
  - intros ->. reflexivity.
  - intros ->. cbn [negb]. destruct inLiquid; cbn [Player.vel Player.with_vel vec_x vec_y];
      (split; [reflexivity |]).
    + apply (clamp_range _ SWIM_MAX_UP SWIM_MAX_DOWN). discriminate.
    + apply (clamp_range _ (- JUMP_SPEED) MAX_FALL). discriminate.
Qed.

(** ** The jump lock *)

Lemma hazardCheck_flags level cc p deaths :
  Player.onGround (hazardCheck level cc p deaths).1 = Player.onGround p /\
  Player.jumpLock (hazardCheck level cc p deaths).1 = Player.jumpLock p.
Proof. unfold hazardCheck. destruct (hazardContact _ _ _); auto. Qed.

Section JumpLock.

Variable hypot : Q -> Q -> Q.
Variable exits : gmap Z (list Vec2).

Lemma movePlayer_unfold now pressed dt level dtap p :
  Player.id p <> 4 ->
  movePlayer hypot now pressed dt level dtap p
  = (moveAndCollide level
       (jumpOnLand (has pressed (kb_jump (Player.controls p)))
          (isLiquidForPlayer (centerCharOf level p) (Player.id p))
          (verticalPhysics (has pressed (kb_jump (Player.controls p)))
             (isLiquidForPlayer (centerCharOf level p) (Player.id p)) dt
             (horizontalMovement (has pressed (kb_left (Player.controls p)))
                (has pressed (kb_right (Player.controls p)))
                (isLiquidForPlayer (centerCharOf level p) (Player.id p)) p)))
       dt, dtap).
Proof.
  intros Hid. unfold movePlayer, windDash. cbv zeta.
  now rewrite (bool_decide_eq_false_2 _ Hid).
Qed.

(** X10. After every update a grounded actor has its jump lock cleared.
    So the lock never holds back a ground jump: an actor other than Wind
    that an update left grounded and not dashing, with the jump key held
    and its centre not in liquid, has left the ground after the movement
    blocks of the next update (ground flag false, jump lock set). *)
Theorem grounded_actor_is_unlocked (now : Q) (pressed : gset string) (dt : Q)
    (s : World.t) (p : Player.t) :
  let p1 := (updatePlayer hypot exits now pressed dt s p).2 in
  (Player.onGround p1 = true -> Player.jumpLock p1 = false) /\
  (forall now' pressed' dt' level' dtap',
     Player.onGround p1 = true -> Player.isDashing p1 = false ->
     Player.id p1 <> 4 ->
     has pressed' (kb_jump (Player.controls p1)) = true ->
     isLiquidForPlayer (centerCharOf level' p1) (Player.id p1) = false ->
     let p2 := (movePlayer hypot now' pressed' dt' level' dtap' p1).1 in
     Player.onGround p2 = false /\ Player.jumpLock p2 = true).
Proof.
  cbv zeta.
  assert (Hunlocked : Player.onGround (updatePlayer hypot exits now pressed dt s p).2
                      = true ->
                      Player.jumpLock (updatePlayer hypot exits now pressed dt s p).2
                      = false).
  { pose proof (updatePlayer_after_hazard hypot exits now pressed dt s p) as H.
    cbv zeta in H. destruct H as (Hb & _).
    destruct Hb as (_ & _ & _ & _ & Hg & Hl & _). rewrite Hg, Hl.
    match goal with
    | |- context [hazardCheck ?l ?c ?q ?d] =>
        destruct (hazardCheck_flags l c q d) as [Hg' Hl']
    end.
    rewrite Hg', Hl'.
    unfold movePlayer. cbv zeta.
    destruct (windDash _ _ _ _ _) as [q dtap]. cbn [fst].
    match goal with
    | |- context [moveAndCollide ?l ?q ?d] =>
        destruct (moveAndCollide_cases l q d) as [(_ & _ & _ & Hlock & _) | (Hair & _)]
    end; cbv zeta in *.
    - intros _. exact Hlock.
    - rewrite Hair. discriminate. }
  split; [exact Hunlocked |].
  set (p1 := (updatePlayer hypot exits now pressed dt s p).2) in *.
  intros now' pressed' dt' level' dtap' Hg Hdash Hid Hjump Hdry.
  specialize (Hunlocked Hg).
  rewrite movePlayer_unfold by exact Hid. cbn [fst]. rewrite Hjump, Hdry.
  set (q := verticalPhysics true false dt' (horizontalMovement _ _ false p1)).
  assert (Hq : Player.isDashing q = false /\ Player.onGround q = true /\
               Player.jumpLock q = false).
  { unfold q, verticalPhysics, horizontalMovement. cbv zeta.
    rewrite Hdash. cbn [negb]. split_cases; cbn; auto. }
  destruct Hq as (Hqd & Hqg & Hql).
  assert (Hj : vec_y (Player.vel (jumpOnLand true false q)) = (- JUMP_SPEED)%Q /\
               Player.jumpLock (jumpOnLand true false q) = true).
  { unfold jumpOnLand. rewrite Hqd, Hqg, Hql. cbn. auto. }
  destruct Hj as [Hvy Hlock].
  destruct (moveAndCollide_cases level' (jumpOnLand true false q) dt')
    as [(_ & Hdown & _) | (Hair & Hl & _)]; cbv zeta in *.
  - rewrite Hvy in Hdown. discriminate Hdown.
  - rewrite Hl. auto.
Qed.

End JumpLock.

(** ** Wind dash *)

(** X11. The dash of the Wind actor.  Any other actor is left alone.
    While the cooldown runs, an actor that is not dashing stays as it is
    and the pending double taps of its three keys are discarded.  A dash in
    progress goes on until its end time, with the pending taps kept.  When
    a dash starts, the cooldown had elapsed, one pending tap of a bound key
    is consumed, and the dash lasts 180 ms and blocks the next for 3 s. *)
Theorem wind_dash_rules (hypot : Q -> Q -> Q) (now : Q)
    (pressed dtap : gset string) (p : Player.t) :
  let r := windDash hypot now pressed dtap p in
  let c := Player.controls p in
  (Player.id p <> 4 -> r = (p, dtap)) /\
  (Player.id p = 4 -> Player.isDashing p = false ->
   (now < Player.dashCooldownUntil p)%Q ->
   r = (p, dtap ∖ {[kb_left c]} ∖ {[kb_right c]} ∖ {[kb_jump c]})) /\
  (Player.id p = 4 -> Player.isDashing p = true ->
   (now < Player.dashUntil p)%Q -> r = (p, dtap)) /\
  (Player.id p = 4 -> Player.isDashing p = false ->
   Player.isDashing r.1 = true ->
   (Player.dashCooldownUntil p <= now)%Q /\
   Player.dashUntil r.1 = (now + DASH_DURATION * 1000)%Q /\
   Player.dashCooldownUntil r.1 = (now + DASH_COOLDOWN * 1000)%Q /\
   (DASH_DURATION * 1000 == 180)%Q /\ (DASH_COOLDOWN * 1000 == 3000)%Q /\
   exists key, key ∈ [kb_left c; kb_right c; kb_jump c] /\
               key ∈ dtap /\ r.2 = dtap ∖ {[key]}).
Proof.
  cbv zeta. unfold windDash. split; [| split; [| split]].
  - intros Hid. now rewrite (bool_decide_eq_false_2 _ Hid).
  - intros Hid Hd Hcd. unfold tryStartWindDash. cbv zeta.
    repeat progress
      (rewrite ?(bool_decide_eq_true_2 _ Hid), ?Hd; cbn [andb negb]).
    now rewrite (proj2 (Qltb_true _ _) Hcd).
  - intros Hid Hd Hrun. cbv zeta. rewrite (bool_decide_eq_true_2 _ Hid), !Hd.
    apply Qle_bool_false in Hrun. rewrite Hrun. cbn [andb]. rewrite !Hd.
    reflexivity.
  - intros Hid Hd. unfold tryStartWindDash. cbv zeta.
    repeat progress
      (rewrite ?(bool_decide_eq_true_2 _ Hid), ?Hd; cbn [andb negb]).
    destruct (Qltb now (Player.dashCooldownUntil p)) eqn:Hcd.
    { cbn [fst]. rewrite Hd. discriminate. }
    apply Qltb_false in Hcd.
    destruct (List.find _ _) as [key |] eqn:Hfind;
      [| cbn [fst]; rewrite Hd; discriminate].
    apply find_some in Hfind as [Hin Hhas].
    case_bool_decide as Hempty; [cbn [fst]; rewrite Hd; discriminate |].
    destruct (if Qeq_bool _ _ then _ else _) as [dx dy]. cbn [fst snd].
    intros _. split; [exact Hcd |]. split; [reflexivity |].
    split; [reflexivity |]. split; [reflexivity |]. split; [reflexivity |].
    exists key. split; [now apply list_elem_of_In |].
    split; [| reflexivity]. unfold has in Hhas.
    now apply bool_decide_eq_true in Hhas.
Qed.

(** ** What one update and one step keep *)

Lemma platesLatched_refl m : platesLatched m m.
Proof. intros k. destruct (m !! k); auto. Qed.

Lemma platesLatched_trans m1 m2 m3 :
  platesLatched m1 m2 -> platesLatched m2 m3 -> platesLatched m1 m3.
Proof.
  intros H12 H23 k. specialize (H12 k). specialize (H23 k).
  destruct (m1 !! k) as [s1 |], (m2 !! k) as [s2 |], (m3 !! k) as [s3 |];
    try contradiction; auto.
  destruct H12 as (Hx & Hy & Hp), H23 as (Hx' & Hy' & Hp').
  split; [congruence |]. split; [congruence |].
  intros Hs1. specialize (Hp Hs1). subst s2. auto.
Qed.

Lemma platesLatched_pressPlateAt now level m c :
  platesLatched m (pressPlateAt now level m c).
Proof.
  unfold pressPlateAt. destruct (is_ch _ _); [| apply platesLatched_refl].
  destruct (m !! c) as [st |] eqn:Hc; [| apply platesLatched_refl].
  destruct (pressed st) eqn:Hp; cbn [negb]; [apply platesLatched_refl |].
  intros k. destruct (decide (k = c)) as [-> | Hne].
  - rewrite Hc, lookup_insert_eq. cbn. repeat split. congruence.
  - rewrite lookup_insert_ne by congruence. destruct (m !! k); auto.
Qed.

Lemma platesLatched_pressPlateIfStanding now level m p :
  platesLatched m (pressPlateIfStanding now level m p).
Proof.
  unfold pressPlateIfStanding. cbv zeta.
  apply (foldl_preserves platesLatched (pressPlateAt now level)).
  - apply platesLatched_refl.
  - apply platesLatched_trans.
  - intros a b. apply platesLatched_pressPlateAt.
Qed.

Lemma actorKept_refl p : actorKept p p.
Proof. repeat split; auto. Qed.

Lemma actorKept_trans p1 p2 p3 :
  actorKept p1 p2 -> actorKept p2 p3 -> actorKept p1 p3.
Proof.
  unfold actorKept.
  intros (-> & -> & -> & -> & -> & -> & Ha) (-> & -> & -> & -> & -> & -> & Ha').
  repeat split; auto.
Qed.

Lemma actorKept_abilities now l reg p : actorKept p (abilities now l reg p).2.
Proof.
  unfold abilities.
  destruct (bool_decide (Player.id p = 1)).
  { destruct (doFireAction l reg p). apply actorKept_refl. }
  destruct (bool_decide (Player.id p = 2)); [apply actorKept_refl |].
  destruct (bool_decide (Player.id p = 3)); [| apply actorKept_refl].
  destruct (Qle_bool _ _); [| apply actorKept_refl].
  destruct (doEarthAction now l reg p) as [[l' reg'] []];
    repeat split; auto.
Qed.

Section UpdateFacts.

Variable hypot : Q -> Q -> Q.
Variable exits : gmap Z (list Vec2).

(** The fields of the shared state after an update, and what the update
    keeps of the actor. *)
Lemma updatePlayer_world now pressed dt s p :
  let level := World.level s in
  let m := movePlayer hypot now pressed dt level (World.doubleTap s) p in
  let r := updatePlayer hypot exits now pressed dt s p in
  World.plates r.1 = pressPlateIfStanding now level (World.plates s) m.1 /\
  World.prevActionDown r.1
  = <[Player.id p := actionHeld pressed p]> (World.prevActionDown s) /\
  World.doubleTap r.1 = m.2 /\
  (World.deaths r.1 = World.deaths s \/ World.deaths r.1 = World.deaths s + 1) /\
  actorKept p r.2.
Proof.
  cbv zeta. unfold updatePlayer, actionHeld. cbv zeta.
  cbn [World.level World.with_prevActionDown World.doubleTap World.deaths
       World.plates World.with_doubleTap World.with_plates
       World.tempPlatforms World.with_deaths World.prevActionDown].
  pose proof (sameActor_movePlayer hypot now pressed dt (World.level s)
                (World.doubleTap s) p) as Hm.
  destruct (movePlayer _ _ _ _ _ _ _) as [pm dtap]. cbn [fst snd] in *.
  assert (Hkm : actorKept p pm).
  { destruct Hm as (? & ? & ? & ? & ? & ? & ? & Ha).
    repeat split; auto. intros Hal. congruence. }
  assert (Hh : actorKept pm
                 (hazardCheck (World.level s) (centerCharOf (World.level s) p)
                    pm (World.deaths s)).1 /\
               ((hazardCheck (World.level s) (centerCharOf (World.level s) p)
                   pm (World.deaths s)).2 = World.deaths s \/
                (hazardCheck (World.level s) (centerCharOf (World.level s) p)
                   pm (World.deaths s)).2 = World.deaths s + 1)).
  { unfold hazardCheck. destruct (hazardContact _ _ _); cbn [fst snd].
    - split; [repeat split; auto | now right].
    - split; [apply actorKept_refl | now left]. }
  destruct (hazardCheck _ _ _ _) as [ph deaths']. cbn [fst snd] in *.
  destruct Hh as [Hkh Hd].
  assert (Hlate : forall q l, actorKept q (exitCheck exits l (stepParticles now
                    (isLiquidForPlayer (centerCharOf (World.level s) p)
                       (Player.id p)) q))).
  { intros q l. unfold stepParticles. split_cases; repeat split; auto. }
  destruct (justPressedAction pressed s p).
  - match goal with
    | |- context [abilities ?n ?l ?r ?q] =>
        pose proof (actorKept_abilities n l r q) as Ha;
        destruct (abilities n l r q) as [[l' reg'] pa]
    end.
    cbn [fst snd World.plates World.prevActionDown World.doubleTap World.deaths
         World.with_tempPlatforms World.with_level] in *.
    split; [reflexivity |]. split; [reflexivity |]. split; [reflexivity |].
    split; [exact Hd |].
    eapply actorKept_trans; [exact Hkm |].
    eapply actorKept_trans; [exact Hkh |].
    eapply actorKept_trans; [exact Ha | apply Hlate].
  - cbn [fst snd World.plates World.prevActionDown World.doubleTap World.deaths].
    split; [reflexivity |]. split; [reflexivity |]. split; [reflexivity |].
    split; [exact Hd |].
    eapply actorKept_trans; [exact Hkm |].
    eapply actorKept_trans; [exact Hkh | apply Hlate].
Qed.

End UpdateFacts.

Section StepFacts.

Variable hypot : Q -> Q -> Q.
Variable exits : gmap Z (list Vec2).

Lemma updatePlayers_keeps now pressed dt ps : forall s,
  let r := updatePlayers hypot exits now pressed dt s ps in
  platesLatched (World.plates s) (World.plates r.1) /\
  World.deaths s <= World.deaths r.1 <= World.deaths s + Z.of_nat (length ps) /\
  Forall2 actorKept ps r.2.
Proof.
  induction ps as [| p ps IH]; intros s; cbv zeta; simpl.
  - split; [apply platesLatched_refl |]. split; [lia | constructor].
  - pose proof (updatePlayer_world hypot exits now pressed dt s p) as H.
    cbv zeta in H. destruct H as (Hpl & _ & _ & Hd & Hk).
    destruct (updatePlayer _ _ _ _ _ _ _) as [s1 p'].
    pose proof (IH s1) as H. cbv zeta in H. destruct H as (Hpl' & Hd' & Hk').
    destruct (updatePlayers _ _ _ _ _ _ _) as [s2 ps'].
    cbn [fst snd] in *. split; [| split].
    + eapply platesLatched_trans; [| exact Hpl'].
      rewrite Hpl. apply platesLatched_pressPlateIfStanding.
    + lia.
    + constructor; assumption.
Qed.

Lemma loop_keeps t now pressed g :
  let g' := loop hypot exits t now pressed g in
  platesLatched (World.plates (Game.world g)) (World.plates (Game.world g')) /\
  World.deaths (Game.world g) <= World.deaths (Game.world g')
    <= World.deaths (Game.world g) + Z.of_nat (length (Game.players g)) /\
  Forall2 actorKept (Game.players g) (Game.players g').
Proof.
  cbv zeta. unfold loop. cbv zeta.
  cbn [Game.paused Game.won Game.with_lastTime].
  destruct (negb (Game.paused g) && negb (Game.won g)).
  - set (g0 := Game.with_lastTime t g). set (dt := clamp _ _ _).
    destruct (simulate_world hypot exits now pressed dt g0)
      as (s & ps & Hups & -> & -> & _).
    cbv zeta in Hups.
    match type of Hups with
    | updatePlayers _ _ _ _ _ ?s0 ?ps0 = _ =>
        pose proof (updatePlayers_keeps now pressed dt ps0 s0) as H
    end.
    cbv zeta in H. rewrite Hups in H. exact H.
  - cbn. split; [apply platesLatched_refl |]. split; [lia |].
    apply Forall2_same_length_lookup_2; [reflexivity |].
    intros i x y Hx Hy. rewrite Hx in Hy. injection Hy as <-.
    apply actorKept_refl.
Qed.

(** X12. The plate latch: over any frame the plate map keeps its keys and
    the coordinates of its records, and a record that is pressed is left
    exactly as it is (a pressed plate is never released and its press time
    is not rewritten). *)
Theorem plates_latch_over_a_frame (t now : Q) (held : gset string)
    (g : Game.t) :
  let g' := loop hypot exits t now held g in
  platesLatched (World.plates (Game.world g)) (World.plates (Game.world g')) /\
  (forall k st, World.plates (Game.world g) !! k = Some st ->
                pressed st = true ->
                World.plates (Game.world g') !! k = Some st) /\
  dom (World.plates (Game.world g')) = dom (World.plates (Game.world g)).
Proof.
  cbv zeta. destruct (loop_keeps t now held g) as (Hl & _). cbv zeta in Hl.
  split; [exact Hl |]. split.
  - intros k st Hk Hp. specialize (Hl k). rewrite Hk in Hl.
    destruct (World.plates (Game.world (loop hypot exits t now held g)) !! k)
      as [st' |]; [| contradiction].
    destruct Hl as (_ & _ & Hsame). now rewrite (Hsame Hp).
  - apply set_eq. intros k. rewrite !elem_of_dom. specialize (Hl k).
    destruct (World.plates (Game.world g) !! k),
      (World.plates (Game.world (loop hypot exits t now held g)) !! k);
      try contradiction; split; intros [? ?]; try discriminate; eauto.
Qed.

(** X13. The death counter never decreases, and over one frame it grows by
    at most the number of actors. *)
Theorem deaths_grow_by_at_most_one_per_actor (t now : Q)
    (pressed : gset string) (g : Game.t) :
  let g' := loop hypot exits t now pressed g in
  World.deaths (Game.world g) <= World.deaths (Game.world g')
    <= World.deaths (Game.world g) + Z.of_nat (length (Game.players g)).
Proof. cbv zeta. now destruct (loop_keeps t now pressed g) as (_ & Hd & _). Qed.

(** X14. Actors are never created or destroyed: over any frame the list of
    actors keeps its length, and each actor keeps its identity, spawn
    point, size, key bindings and air-jump maximum; an actor that is alive
    is alive afterwards. *)
Theorem actors_persist_over_a_frame (t now : Q) (pressed : gset string)
    (g : Game.t) :
  let g' := loop hypot exits t now pressed g in
  length (Game.players g') = length (Game.players g) /\
  Forall2 actorKept (Game.players g) (Game.players g') /\
  (Forall (fun p => Player.alive p = true) (Game.players g) ->
   Forall (fun p => Player.alive p = true) (Game.players g')).
Proof.
  cbv zeta. destruct (loop_keeps t now pressed g) as (_ & _ & Hk).
  cbv zeta in Hk. split; [symmetry; eapply Forall2_length; eauto |].
  split; [exact Hk |].
  intros Halive. induction Hk as [| p p' ps ps' Hp _ IH]; [constructor |].
  apply Forall_cons_1 in Halive as [Ha Hrest].
  constructor; [| auto]. destruct Hp as (_ & _ & _ & _ & _ & _ & Hal). auto.
Qed.

End StepFacts.

(** ** Ability dispatch *)

Section ActionEdge.

Variable hypot : Q -> Q -> Q.
Variable exits : gmap Z (list Vec2).

(** X15. Abilities fire on a fresh press only.  An update without a fresh
    press of the action key leaves the level and the registry as they are;
    an actor with no action key bound never has a fresh press, and an actor
    that is none of Fire, Water and Earth changes nothing even with one.
    After an update during which the key was held, the next update sees no
    fresh press whatever is held then; after one during which it was not
    held, the next sees a fresh press exactly when the key is held. *)
Theorem ability_fires_on_fresh_press_only (now : Q) (pressed : gset string)
    (dt : Q) (s : World.t) (p : Player.t) :
  let r := updatePlayer hypot exits now pressed dt s p in
  let unchanged :=
    World.level r.1 = World.level s /\
    World.tempPlatforms r.1 = World.tempPlatforms s in
  (justPressedAction pressed s p = false -> unchanged) /\
  (kb_action (Player.controls p) = ""%string ->
   justPressedAction pressed s p = false) /\
  (Player.id p <> 1 -> Player.id p <> 2 -> Player.id p <> 3 -> unchanged) /\
  (forall pressed',
     justPressedAction pressed' r.1 r.2
     = actionHeld pressed' p && negb (actionHeld pressed p)).
Proof.
  cbv zeta.
  pose proof (updatePlayer_abilities hypot exits now pressed dt s p) as H.
  cbv zeta in H. destruct H as (Hid & _ & Hlr).
  pose proof (updatePlayer_world hypot exits now pressed dt s p) as H.
  cbv zeta in H. destruct H as (_ & Hprev & _ & _ & Hk).
  split; [| split; [| split]].
  - intros Hj. rewrite Hj in Hlr. now injection Hlr as -> ->.
  - intros Hnone. unfold justPressedAction. cbv zeta.
    now rewrite (bool_decide_eq_true_2 _ Hnone).
  - intros H1 H2 H3. destruct (justPressedAction pressed s p).
    + unfold abilities in Hlr. rewrite Hid in Hlr.
      rewrite !bool_decide_eq_false_2 in Hlr by assumption.
      now injection Hlr as -> ->.
    + now injection Hlr as -> ->.
  - intros pressed'. destruct Hk as (Hkid & _ & _ & _ & Hkc & _).
    unfold justPressedAction, actionHeld. cbv zeta.
    rewrite Hprev, Hkid, Hkc, lookup_insert_eq. reflexivity.
Qed.

End ActionEdge.

(** ** Fire *)

Lemma onlyBroken_refl l : onlyBroken l l.
Proof. intros tx ty. now left. Qed.

Lemma onlyBroken_trans l1 l2 l3 :
  onlyBroken l1 l2 -> onlyBroken l2 l3 -> onlyBroken l1 l3.
Proof.
  intros H12 H23 tx ty.
  destruct (H23 tx ty) as [H | [Hb H]]; destruct (H12 tx ty) as [H' | [Hb' H']].
  - left. congruence.
  - right. split; [exact Hb' | congruence].
  - right. rewrite H' in Hb. auto.
  - rewrite H' in Hb. destruct Hb; discriminate.
Qed.

Lemma breakTile_cases l c :
  (breakable (tileAt l c.1 c.2) /\ breakTile l c = setTile l c.1 c.2 "." /\
   inGrid l c.1 c.2) \/
  (~ breakable (tileAt l c.1 c.2) /\ breakTile l c = l).
Proof.
  unfold breakTile, breakable.
  destruct (is_ch (tileAt l c.1 c.2) "b") eqn:Hb.
  - apply is_ch_true in Hb. left. split; [now left |]. split; [reflexivity |].
    eapply tileAt_inGrid; [exact Hb | discriminate].
  - destruct (is_ch (tileAt l c.1 c.2) "X") eqn:HX; cbn [orb].
    + apply is_ch_true in HX. left. split; [now right |].
      split; [reflexivity |].
      eapply tileAt_inGrid; [exact HX | discriminate].
    + apply is_ch_false in Hb, HX. right. split; [| reflexivity].
      intros [? | ?]; contradiction.
Qed.

Lemma onlyBroken_breakTile l c : onlyBroken l (breakTile l c).
Proof.
  destruct (breakTile_cases l c) as [(Hb & -> & Hin) | (_ & ->)];
    [| apply onlyBroken_refl].
  intros tx ty. rewrite tileAt_setTile by exact Hin.
  case_decide as Heq; [| now left].
  injection Heq as -> ->. right. auto.
Qed.

Lemma onlyBroken_fold cs : forall l, onlyBroken l (foldl breakTile l cs).
Proof.
  intros l. apply (foldl_preserves onlyBroken breakTile).
  - apply onlyBroken_refl.
  - apply onlyBroken_trans.
  - apply onlyBroken_breakTile.
Qed.

(** A tile that is not breakable stays as it is. *)
Lemma onlyBroken_keeps l l' tx ty :
  onlyBroken l l' -> ~ breakable (tileAt l tx ty) ->
  tileAt l' tx ty = tileAt l tx ty.
Proof. intros H Hn. destruct (H tx ty) as [? | [? _]]; [auto | contradiction]. Qed.

Lemma fold_breaks_candidates cs : forall l c,
  c ∈ cs -> ~ breakable (tileAt (foldl breakTile l cs) c.1 c.2).
Proof.
  induction cs as [| c0 cs IH]; intros l c Hc; [now apply elem_of_nil in Hc |].
  simpl. apply elem_of_cons in Hc as [-> | Hc]; [| now apply IH].
  assert (Hnow : ~ breakable (tileAt (breakTile l c0) c0.1 c0.2)).
  { destruct (breakTile_cases l c0) as [(_ & -> & Hin) | (Hn & ->)];
      [| exact Hn].
    rewrite tileAt_setTile_eq by exact Hin. intros [? | ?]; discriminate. }
  rewrite (onlyBroken_keeps _ _ _ _ (onlyBroken_fold cs (breakTile l c0)) Hnow).
  exact Hnow.
Qed.

Lemma fold_nothing_to_break cs : forall l,
  (forall c, c ∈ cs -> ~ breakable (tileAt l c.1 c.2)) ->
  foldl breakTile l cs = l.
Proof.
  induction cs as [| c0 cs IH]; intros l Hn; [reflexivity |]. simpl.
  destruct (breakTile_cases l c0) as [(Hb & _) | (_ & ->)].
  - exfalso. apply (Hn c0); [left | exact Hb].
  - apply IH. intros c Hc. apply Hn. now right.
Qed.

Lemma filter_twice {A} (P : A -> Prop) `{!forall x, Decision (P x)}
    (l : list A) :
  filter P (filter P l) = filter P l.
Proof.
  induction l as [| x l IH]; [reflexivity |].
  rewrite filter_cons. destruct (decide (P x)) as [Hx | Hx]; [| exact IH].
  rewrite filter_cons, decide_True by exact Hx. now rewrite IH.
Qed.

(** X16. Fire changes only breakable tiles, and those to empty; after it
    none of its candidate tiles is breakable; and repeating the action from
    the same position changes neither the level nor the registry. *)
Theorem fire_breaks_only_breakables (l : Level.t) (reg : list TempPlatform)
    (p : Player.t) :
  let r := doFireAction l reg p in
  onlyBroken l r.1 /\
  (forall c, c ∈ fireCandidates l p -> ~ breakable (tileAt r.1 c.1 c.2)) /\
  doFireAction r.1 r.2 p = r.
Proof.
  cbv zeta. unfold doFireAction. cbv zeta. cbn [fst snd].
  set (cs := fireCandidates l p). set (l' := foldl breakTile l cs).
  assert (Hdone : forall c, c ∈ cs -> ~ breakable (tileAt l' c.1 c.2)).
  { intros c Hc. now apply fold_breaks_candidates. }
  split; [apply onlyBroken_fold |]. split; [exact Hdone |].
  assert (Hcs : fireCandidates l' p = cs).
  { pose proof (levelKept_doFireAction l reg p) as [(_ & _ & Hts & _) _].
    unfold doFireAction in Hts. cbv zeta in Hts. cbn [fst] in Hts.
    fold cs in Hts. fold l' in Hts.
    unfold cs, fireCandidates. now rewrite Hts. }
  rewrite Hcs, (fold_nothing_to_break cs l' Hdone).
  now rewrite filter_twice.
Qed.

(** ** Earth and the registry *)

(** X17. With a registry whose entries refer to platform tiles, a placement
    call changes at most two tiles: an eligible tile (empty, dark hole,
    water or coloured hole) becomes a platform, and a platform tile becomes
    empty (the evicted one); walls, plates, doors, barriers and gates are
    never changed. *)
Theorem earth_changes_only_eligible_tiles (now : Q) (l : Level.t)
    (reg : list TempPlatform) (p : Player.t) :
  registryOnPlatforms l reg ->
  NoDup (tpCoord <$> reg) ->
  let l' := (doEarthAction now l reg p).1.1 in
  forall tx ty,
    tileAt l' tx ty = tileAt l tx ty \/
    (canPlace l tx ty = true /\ tileAt l' tx ty = Some "X"%char) \/
    (tileAt l tx ty = Some "X"%char /\ tileAt l' tx ty = Some "."%char).
Proof.
  intros Hreg Hnd. cbv zeta. intros tx ty.
  destruct (doEarthAction now l reg p) as [[l' reg'] placed] eqn:Hcall.
  cbn [fst]. destruct placed.
  - apply doEarthAction_placed in Hcall as (c & _ & Hcan & Hev).
    destruct (canPlace_read l c.1 c.2 Hcan) as (c0 & Hread & Hwall & _ & HX).
    assert (Hin : inGrid l c.1 c.2) by (eapply tileAt_inGrid; eauto).
    destruct (place_keeps_platforms l reg c (now + 7000)%Q Hreg Hnd Hcan)
      as [Hreg1 Hnd1].
    assert (Hplaced : tileAt (setTile l c.1 c.2 "X") tx ty = tileAt l tx ty \/
                      (canPlace l tx ty = true /\
                       tileAt (setTile l c.1 c.2 "X") tx ty = Some "X"%char)).
    { rewrite tileAt_setTile by exact Hin. case_decide as Heq; [| now left].
      injection Heq as -> ->. right. auto. }
    destruct (evictOldest_cases (setTile l c.1 c.2 "X")
                (reg ++ [mkTempPlatform c.1 c.2 (now + 7000)%Q]))
      as [[_ Hsame] | (o & rest & Heq & Hbig & Hevict)].
    + rewrite Hsame in Hev. injection Hev as <- <-. tauto.
    + rewrite Hevict in Hev. injection Hev as <- <-.
      rewrite length_app in Hbig. rewrite Heq in *.
      apply Forall_cons_1 in Hreg1 as [Ho _]. unfold holdsPlatform in Ho.
      assert (Hino : inGrid (setTile l c.1 c.2 "X") (tp_tx o) (tp_ty o)).
      { eapply tileAt_inGrid; [exact Ho | discriminate]. }
      rewrite tileAt_setTile by exact Hino.
      case_decide as Heqo; [| tauto].
      injection Heqo as -> ->. right. right. split; [| reflexivity].
      (* the evicted entry is not the one just placed *)
      destruct reg as [| o' reg0].
      * simpl in Hbig. lia.
      * simpl in Heq. injection Heq as <- _.
        apply Forall_cons_1 in Hreg as [Ho' _]. exact Ho'.
  - apply doEarthAction_failed in Hcall as (_ & -> & _). now left.
Qed.

Lemma earth_changes_only_eligible_tiles_witness :
  let l' := (doEarthAction 4000 fieldWithPlatform onePlatform (earthAt 3)).1.1 in
  tileAt l' 3 1 = tileAt fieldWithPlatform 3 1 \/
  (canPlace fieldWithPlatform 3 1 = true /\ tileAt l' 3 1 = Some "X"%char) \/
  (tileAt fieldWithPlatform 3 1 = Some "X"%char /\
   tileAt l' 3 1 = Some "."%char).
Proof.
  apply (earth_changes_only_eligible_tiles 4000 fieldWithPlatform onePlatform
           (earthAt 3)).
  - constructor; [vm_compute; reflexivity | constructor].
  - apply NoDup_singleton.
Defined.

(** The sweep with its accumulator. *)
Lemma expire_fold_spec now reg : forall l acc,
  let r := foldl (expireOne now) (l, acc) reg in
  r.2 = acc ++ List.filter (fun tp => negb (expired now tp)) reg /\
  (forall tx ty,
     tileAt r.1 tx ty = tileAt l tx ty \/
     (tileAt l tx ty = Some "X"%char /\ tileAt r.1 tx ty = Some "."%char /\
      exists tp, tp ∈ reg /\ expired now tp = true /\ tpCoord tp = (tx, ty))) /\
  (forall tp, tp ∈ reg -> expired now tp = true ->
     tileAt r.1 (tp_tx tp) (tp_ty tp) <> Some "X"%char).
Proof.
  induction reg as [| tp reg IH]; intros l acc; cbv zeta.
  - simpl. rewrite app_nil_r. split; [reflexivity |].
    split; [intros; now left |]. intros tp Htp. now apply elem_of_nil in Htp.
  - set (l1 := if is_ch (tileAt l (tp_tx tp) (tp_ty tp)) "X"
               then setTile l (tp_tx tp) (tp_ty tp) "." else l).
    assert (Hone : expireOne now (l, acc) tp =
                   if expired now tp then (l1, acc) else (l, acc ++ [tp]))
      by reflexivity.
    cbn [foldl List.filter]. rewrite Hone. clear Hone.
    destruct (expired now tp) eqn:Hexp; cbn [negb].
    + 
      assert (Hl1 : (forall tx ty,
                       tileAt l1 tx ty = tileAt l tx ty \/
                       (tileAt l tx ty = Some "X"%char /\
                        tileAt l1 tx ty = Some "."%char /\
                        tpCoord tp = (tx, ty))) /\
                    tileAt l1 (tp_tx tp) (tp_ty tp) <> Some "X"%char).
      { unfold l1. destruct (is_ch _ _) eqn:HX.
        - apply is_ch_true in HX.
          assert (Hin : inGrid l (tp_tx tp) (tp_ty tp))
            by (eapply tileAt_inGrid; [exact HX | discriminate]).
          split.
          + intros tx ty. rewrite tileAt_setTile by exact Hin.
            case_decide as Heq; [| now left].
            injection Heq as -> ->. right. auto.
          + rewrite tileAt_setTile_eq by exact Hin. discriminate.
        - apply is_ch_false in HX. split; [intros; now left | exact HX]. }
      destruct Hl1 as [Hstep Hcleared].
      specialize (IH l1 acc). cbv zeta in IH.
      destruct IH as (Hreg & Htiles & Hgone).
      split; [exact Hreg |]. split.
      * intros tx ty.
        destruct (Htiles tx ty) as [Hsame | (HX & Hdot & tp' & Hin & He & Hc)];
          destruct (Hstep tx ty) as [Hs | (HX0 & Hdot0 & Hc0)].
        -- left. congruence.
        -- right. split; [exact HX0 |]. split; [congruence |].
           exists tp. split; [left |]. auto.
        -- right. split; [congruence |]. split; [exact Hdot |].
           exists tp'. split; [now right |]. auto.
        -- congruence.
      * intros tp' Hin He. apply elem_of_cons in Hin as [-> | Hin];
          [| now apply Hgone].
        destruct (Htiles (tp_tx tp) (tp_ty tp)) as [Hsame | (HX & _)];
          congruence.
    + specialize (IH l (acc ++ [tp])). cbv zeta in IH.
      destruct IH as (Hreg & Htiles & Hgone).
      split; [rewrite Hreg, <- app_assoc; reflexivity |]. split.
      * intros tx ty.
        destruct (Htiles tx ty) as [Hsame | (HX & Hdot & tp' & Hin & He & Hc)];
          [now left |].
        right. split; [exact HX |]. split; [exact Hdot |].
        exists tp'. split; [now right |]. auto.
      * intros tp' Hin He. apply elem_of_cons in Hin as [-> | Hin];
          [| now apply Hgone].
        congruence.
Qed.

(** X18. The expiry sweep keeps exactly the entries that have not expired,
    in their order.  After it no expired entry's tile holds the platform
    symbol, and the only tiles it changed are tiles of expired entries that
    held the platform symbol, now empty. *)
Theorem sweep_keeps_unexpired_entries (now : Q) (l : Level.t)
    (reg : list TempPlatform) :
  let r := expirePlatforms now l reg in
  r.2 = List.filter (fun tp => negb (expired now tp)) reg /\
  (forall tx ty,
     tileAt r.1 tx ty = tileAt l tx ty \/
     (tileAt l tx ty = Some "X"%char /\ tileAt r.1 tx ty = Some "."%char /\
      exists tp, tp ∈ reg /\ expired now tp = true /\ tpCoord tp = (tx, ty))) /\
  (forall tp, tp ∈ reg -> expired now tp = true ->
     tileAt r.1 (tp_tx tp) (tp_ty tp) <> Some "X"%char).
Proof. apply (expire_fold_spec now reg l []). Qed.

Lemma expirePlatforms_length now l reg :
  (length (expirePlatforms now l reg).2 <= length reg)%nat.
Proof.
  destruct (expire_fold_spec now reg l []) as (Hreg & _). cbv zeta in Hreg.
  unfold expirePlatforms. rewrite Hreg. cbn [app]. clear Hreg.
  induction reg as [| tp reg IH]; cbn [List.filter length]; [lia |].
  destruct (negb (expired now tp)); cbn [length]; lia.
Qed.

Lemma abilities_length now l reg p :
  (length reg <= 12)%nat -> (length (abilities now l reg p).1.2 <= 12)%nat.
Proof.
  intros Hlen. unfold abilities.
  destruct (bool_decide (Player.id p = 1)).
  { unfold doFireAction. cbv zeta. cbn [fst snd].
    etransitivity; [apply length_filter | exact Hlen]. }
  destruct (bool_decide (Player.id p = 2)); [exact Hlen |].
  destruct (bool_decide (Player.id p = 3)); [| exact Hlen].
  destruct (Qle_bool _ _); [| exact Hlen].
  destruct (doEarthAction now l reg p) as [[l' reg'] placed] eqn:Hcall.
  assert (Hreg' : (length reg' <= 12)%nat).
  { destruct placed.
    - apply doEarthAction_placed in Hcall as (c & _ & _ & Hev).
      destruct (evictOldest_cases (setTile l c.1 c.2 "X")
                  (reg ++ [mkTempPlatform c.1 c.2 (now + 7000)%Q]))
        as [[Hsmall Hsame] | (o & rest & Heq & _ & Hevict)].
      + rewrite Hsame in Hev. injection Hev as _ <-. lia.
      + rewrite Hevict in Hev. injection Hev as _ <-.
        apply (f_equal length) in Heq. rewrite length_app in Heq.
        simpl in Heq. lia.
    - apply doEarthAction_failed in Hcall as (_ & _ & ->). exact Hlen. }
  destruct placed; exact Hreg'.
Qed.

Section CapFacts.

Variable hypot : Q -> Q -> Q.
Variable exits : gmap Z (list Vec2).

Lemma updatePlayers_length now pressed dt ps : forall s,
  (length (World.tempPlatforms s) <= 12)%nat ->
  (length (World.tempPlatforms
             (updatePlayers hypot exits now pressed dt s ps).1) <= 12)%nat.
Proof.
  induction ps as [| p ps IH]; intros s Hlen; simpl; [exact Hlen |].
  pose proof (updatePlayer_abilities hypot exits now pressed dt s p) as H.
  cbv zeta in H. destruct H as (_ & _ & Hlr).
  assert (H1 : (length (World.tempPlatforms
                          (updatePlayer hypot exits now pressed dt s p).1)
                <= 12)%nat).
  { apply (f_equal snd) in Hlr. cbn [snd] in Hlr. rewrite Hlr.
    destruct (justPressedAction pressed s p); [| exact Hlen].
    now apply abilities_length. }
  destruct (updatePlayer _ _ _ _ _ _ _) as [s1 p'].
  specialize (IH s1 H1).
  destruct (updatePlayers _ _ _ _ _ _ _) as [s2 ps']. exact IH.
Qed.

(** X19. The registry never exceeds its cap: if it has at most 12 entries
    before a frame, it has at most 12 after it. *)
Theorem registry_stays_within_cap (t now : Q) (pressed : gset string)
    (g : Game.t) :
  (length (World.tempPlatforms (Game.world g)) <= 12)%nat ->
  (length (World.tempPlatforms
             (Game.world (loop hypot exits t now pressed g))) <= 12)%nat.
Proof.
  intros Hlen. unfold loop. cbv zeta.
  cbn [Game.paused Game.won Game.with_lastTime].
  destruct (negb (Game.paused g) && negb (Game.won g)); [| exact Hlen].
  set (g0 := Game.with_lastTime t g). set (dt := clamp _ _ _).
  destruct (simulate_world hypot exits now pressed dt g0)
    as (s & ps & Hups & -> & _).
  cbv zeta in Hups.
  match type of Hups with
  | updatePlayers _ _ _ _ _ ?s0 ?ps0 = _ =>
      pose proof (updatePlayers_length now pressed dt ps0 s0) as H
  end.
  rewrite Hups in H. apply H.
  cbn [World.tempPlatforms World.with_level World.with_tempPlatforms].
  etransitivity; [apply expirePlatforms_length | exact Hlen].
Qed.

End CapFacts.

Lemma registry_stays_within_cap_witness :
  (length (World.tempPlatforms
             (Game.world (loop axisHypot demoExits 8000 8000
                               {["ArrowDown"%string]} platformGame))) <= 12)%nat.
Proof.
  apply (registry_stays_within_cap axisHypot demoExits 8000 8000
           {["ArrowDown"%string]} platformGame).
  vm_compute. lia.
Defined.

(** ** Key input *)

Lemma onDown_fresh key now k :
  Keys.lastDown (onDown key false now k) = <[key := now]> (Keys.lastDown k) /\
  Keys.doubleTap (onDown key false now k) =
    (if Qle_bool (now - default 0%Q (Keys.lastDown k !! key)) DOUBLE_TAP_WINDOW
     then Keys.doubleTap k ∪ {[key]} else Keys.doubleTap k).
Proof.
  unfold onDown. cbv zeta. cbn [negb].
  destruct (Qle_bool _ _); split; reflexivity.
Qed.

Lemma onKey_marks_grow k e : Keys.doubleTap k ⊆ Keys.doubleTap (onKey k e).
Proof.
  destruct e as [key [|] now | key]; cbn [onKey].
  - reflexivity.
  - destruct (onDown_fresh key now k) as [_ ->].
    destruct (Qle_bool _ _); set_solver.
  - reflexivity.
Qed.

Lemma onKey_not_fresh key k e :
  freshPress key e = false ->
  Keys.lastDown (onKey k e) !! key = Keys.lastDown k !! key /\
  (key ∈ Keys.doubleTap (onKey k e) <-> key ∈ Keys.doubleTap k).
Proof.
  destruct e as [key' [|] now | key']; cbn [onKey freshPress]; intros Hf.
  - split; reflexivity.
  - rewrite andb_true_r in Hf. apply bool_decide_eq_false in Hf.
    destruct (onDown_fresh key' now k) as [-> ->].
    rewrite lookup_insert_ne by exact Hf.
    split; [reflexivity |].
    destruct (Qle_bool _ _); [| reflexivity].
    rewrite elem_of_union, elem_of_singleton. split; [| now left].
    intros [H | H]; [exact H | congruence].
  - split; reflexivity.
Qed.

Lemma runKeys_not_fresh key evs : forall k,
  Forall (fun e => freshPress key e = false) evs ->
  Keys.lastDown (runKeys evs k) !! key = Keys.lastDown k !! key /\
  (key ∈ Keys.doubleTap (runKeys evs k) <-> key ∈ Keys.doubleTap k).
Proof.
  induction evs as [| e evs IH]; intros k Hall; [split; reflexivity |].
  apply Forall_cons in Hall as [He Hall].
  destruct (onKey_not_fresh key k e He) as [Hl Hd].
  destruct (IH (onKey k e) Hall) as [Hl' Hd'].
  unfold runKeys in *. cbn [foldl]. rewrite Hl', Hd'. auto.
Qed.

(** X20. Double-tap detection.  After a fresh press of a key at time [t1],
    followed by any events that are not a fresh press of that key (releases,
    auto-repeats, other keys), a fresh press at time [t2] leaves the key
    marked exactly when it was marked already or [t2 - t1] is at most 250
    ms. *)
Theorem double_tap_within_window (key : string) (t1 t2 : Q)
    (mid : list KeyEvent) (k : Keys.t) :
  Forall (fun e => freshPress key e = false) mid ->
  let k1 := runKeys (keydown key false t1 :: mid) k in
  key ∈ Keys.doubleTap (onDown key false t2 k1) <->
  key ∈ Keys.doubleTap k1 \/ (t2 - t1 <= DOUBLE_TAP_WINDOW)%Q.
Proof.
  intros Hmid k1.
  assert (Hlast : Keys.lastDown k1 !! key = Some t1).
  { unfold k1, runKeys. cbn [foldl onKey].
    destruct (runKeys_not_fresh key mid (onDown key false t1 k) Hmid)
      as [Hl _].
    unfold runKeys in Hl. rewrite Hl.
    destruct (onDown_fresh key t1 k) as [-> _]. apply lookup_insert_eq. }
  destruct (onDown_fresh key t2 k1) as [_ ->]. rewrite Hlast. change (default 0%Q (Some t1)) with t1.
  destruct (Qle_bool (t2 - t1) DOUBLE_TAP_WINDOW) eqn:Hw.
  - apply Qle_bool_iff in Hw. rewrite elem_of_union, elem_of_singleton.
    split; [intros _; now right | intros _; now right].
  - split; [intros H; now left |]. intros [H | H]; [exact H |].
    apply Qle_bool_iff in H. congruence.
Qed.

Lemma double_tap_within_window_witness :
  "z"%string ∈
    Keys.doubleTap
      (onDown "z" false 1200
         (runKeys [keydown "z" false 1000; keyup "z"; keydown "a" false 1100]
                  (Keys.mk ∅ ∅ ∅))).
Proof.
  apply (proj2 (double_tap_within_window "z" 1000 1200
                  [keyup "z"; keydown "a" false 1100] (Keys.mk ∅ ∅ ∅)
                  ltac:(repeat constructor))).
  right. vm_compute. discriminate.
Defined.

(** X21. A key that was never pressed counts as pressed at time 0: its
    first fresh press is marked as a double tap exactly when the clock
    reads at most 250 ms (or the key was marked already). *)
Theorem first_press_is_measured_from_zero (key : string) (now : Q)
    (k : Keys.t) :
  Keys.lastDown k !! key = None ->
  key ∈ Keys.doubleTap (onDown key false now k) <->
  key ∈ Keys.doubleTap k \/ (now <= DOUBLE_TAP_WINDOW)%Q.
Proof.
  intros Hnone. destruct (onDown_fresh key now k) as [_ ->].
  rewrite Hnone. change (default 0%Q None) with 0%Q.
  assert (Hiff : Qle_bool (now - 0) DOUBLE_TAP_WINDOW = true <->
                 (now <= DOUBLE_TAP_WINDOW)%Q).
  { rewrite Qle_bool_iff. split; intros H; lra. }
  destruct (Qle_bool (now - 0) DOUBLE_TAP_WINDOW).
  - rewrite elem_of_union, elem_of_singleton.
    split; intros _; right; [now apply Hiff | reflexivity].
  - split; [intros H; now left |]. intros [H | H]; [exact H |].
    apply Hiff in H. discriminate.
Qed.

Lemma first_press_is_measured_from_zero_witness :
  "z"%string ∈ Keys.doubleTap (onDown "z" false 100 (Keys.mk ∅ ∅ ∅)).
Proof.
  apply (proj2 (first_press_is_measured_from_zero "z" 100 (Keys.mk ∅ ∅ ∅)
                  (lookup_empty _))).
  right. vm_compute. discriminate.
Defined.

(** X22. Keyboard events never clear a double-tap mark.  Events that are
    not a fresh press of a key (releases, auto-repeats, presses of other
    keys) change neither its recorded press time nor its mark.  A release
    removes the key from the held set and a press of either kind puts it
    in. *)
Theorem key_events_keep_marks (evs : list KeyEvent) (k : Keys.t) :
  Keys.doubleTap k ⊆ Keys.doubleTap (runKeys evs k) /\
  (forall key, Forall (fun e => freshPress key e = false) evs ->
     Keys.lastDown (runKeys evs k) !! key = Keys.lastDown k !! key /\
     (key ∈ Keys.doubleTap (runKeys evs k) <-> key ∈ Keys.doubleTap k)) /\
  (forall key, key ∉ Keys.pressed (runKeys (evs ++ [keyup key]) k)) /\
  (forall key repeat now,
     key ∈ Keys.pressed (runKeys (evs ++ [keydown key repeat now]) k)).
Proof.
  split; [| split; [| split]].
  - revert k. induction evs as [| e evs IH]; intros k; [reflexivity |].
    unfold runKeys in *. cbn [foldl].
    etransitivity; [apply (onKey_marks_grow k e) | apply IH].
  - intros key. apply runKeys_not_fresh.
  - intros key. unfold runKeys. rewrite foldl_snoc. cbn [onKey onUp Keys.pressed].
    set_solver.
  - intros key repeat now. unfold runKeys. rewrite foldl_snoc.
    cbn [onKey]. unfold onDown. cbv zeta. cbn [Keys.pressed]. set_solver.
Qed.

(** ** Spawn and gate scan *)

Lemma gridCells_spec level tx ty :
  (tx, ty) ∈ gridCells level <-> outOfBounds level tx ty = false.
Proof.
  unfold gridCells. rewrite outOfBounds_false, list_elem_of_bind. split.
  - intros (y & Hin & Hy). apply list_elem_of_bind in Hin as (x & Hin & Hx).
    apply list_elem_of_singleton in Hin. injection Hin as -> ->.
    apply elem_of_seqZ in Hx, Hy. lia.
  - intros [Hx Hy]. exists ty. split; [| apply elem_of_seqZ; lia].
    apply list_elem_of_bind. exists tx.
    split; [apply list_elem_of_singleton; reflexivity | apply elem_of_seqZ; lia].
Qed.

Lemma NoDup_gridCells level : NoDup (gridCells level).
Proof.
  unfold gridCells. apply NoDup_bind; [| | apply NoDup_seqZ].
  - intros y1 y2 c _ _ H1 H2.
    apply list_elem_of_bind in H1 as (x1 & H1 & _).
    apply list_elem_of_bind in H2 as (x2 & H2 & _).
    apply list_elem_of_singleton in H1, H2. congruence.
  - intros y _. apply NoDup_bind; [| | apply NoDup_seqZ].
    + intros x1 x2 c _ _ H1 H2.
      apply list_elem_of_singleton in H1, H2. congruence.
    + intros x _. apply NoDup_singleton.
Qed.

Lemma spawnDigit_cases ch idx :
  spawnDigit ch = Some idx ->
  1 <= idx <= 4 /\ exists c, ch = Some c /\ c <> "#"%char /\ c <> "."%char /\
                             gateLetter ch = None /\ isPlate ch = false.
Proof.
  unfold spawnDigit.
  destruct (is_ch ch "1") eqn:H1; [apply is_ch_true in H1; subst ch |].
  { intros [= <-]. split; [lia |]. eexists. repeat split; discriminate. }
  destruct (is_ch ch "2") eqn:H2; [apply is_ch_true in H2; subst ch |].
  { intros [= <-]. split; [lia |]. eexists. repeat split; discriminate. }
  destruct (is_ch ch "3") eqn:H3; [apply is_ch_true in H3; subst ch |].
  { intros [= <-]. split; [lia |]. eexists. repeat split; discriminate. }
  destruct (is_ch ch "4") eqn:H4; [apply is_ch_true in H4; subst ch |].
  { intros [= <-]. split; [lia |]. eexists. repeat split; discriminate. }
  discriminate.
Qed.

Lemma gateLetter_range ch p : gateLetter ch = Some p -> 1 <= p <= 4.
Proof.
  unfold gateLetter.
  repeat (destruct (is_ch ch _); [intros [= <-]; lia |]). discriminate.
Qed.

(** One cell of the scan, in terms of [tileAt] and [setTile]. *)
Lemma scanCell_spec sc x y :
  level_wf (sc_level sc) -> outOfBounds (sc_level sc) x y = false ->
  scanCell sc (x, y) =
    Some (match spawnDigit (tileAt (sc_level sc) x y) with
          | Some idx =>
              mkScan (setTile (sc_level sc) x y ".")
                     (<[idx := tileCentre (x, y)]> (sc_spawns sc)) (sc_exits sc)
          | None =>
              match gateLetter (tileAt (sc_level sc) x y) with
              | Some p =>
                  mkScan (sc_level sc) (sc_spawns sc)
                    (<[p := default [] (sc_exits sc !! p)
                            ++ [tileCorner (x, y)]]> (sc_exits sc))
              | None => sc
              end
          end).
Proof.
  intros [Hh Hlen] Hin. unfold scanCell, tileAt, setTile. rewrite Hin.
  apply outOfBounds_false in Hin as [Hx Hy].
  destruct (lookup_lt_is_Some_2 (Level.tiles (sc_level sc)) (Z.to_nat y))
    as [row Hrow]; [lia |].
  rewrite Hrow. cbn [mbind option_bind].
  destruct (spawnDigit (row !! Z.to_nat x)); [reflexivity |].
  destruct (gateLetter (row !! Z.to_nat x)); reflexivity.
Qed.

Lemma filter_agree {A} (f g : A -> bool) (l : list A) :
  (forall x, x ∈ l -> f x = g x) -> List.filter f l = List.filter g l.
Proof.
  induction l as [| a l IH]; intros H; [reflexivity |].
  cbn [List.filter]. rewrite (H a) by left.
  rewrite IH; [reflexivity |]. intros x Hx. apply H. now right.
Qed.

(** The scan of a list of cells from an intermediate state. *)
Lemma scanCells_spec cells : forall sc,
  level_wf (sc_level sc) ->
  Forall (fun c => outOfBounds (sc_level sc) c.1 c.2 = false) cells ->
  exists sc',
    scanCells sc cells = Some sc' /\
    sameFrame (sc_level sc) (sc_level sc') /\
    level_wf (sc_level sc') /\
    (forall tx ty,
       tileAt (sc_level sc') tx ty =
         if bool_decide ((tx, ty) ∈ cells) &&
            bool_decide (is_Some (spawnDigit (tileAt (sc_level sc) tx ty)))
         then Some "."%char else tileAt (sc_level sc) tx ty) /\
    (forall p,
       default [] (sc_exits sc' !! p) =
         default [] (sc_exits sc !! p)
         ++ (tileCorner <$> gateCellsIn (sc_level sc) p cells)) /\
    (NoDup cells ->
     forall idx,
       sc_spawns sc' !! idx =
         match last (spawnCellsIn (sc_level sc) idx cells) with
         | Some c => Some (tileCentre c)
         | None => sc_spawns sc !! idx
         end).
Proof.
  induction cells as [| [x y] cells IH]; intros sc Hwf Hall.
  { exists sc. split; [reflexivity |]. split; [apply sameFrame_refl |].
    split; [exact Hwf |]. split; [| split].
    - intros tx ty. rewrite bool_decide_eq_false_2; [reflexivity |].
      apply not_elem_of_nil.
    - intros p. cbn. now rewrite app_nil_r.
    - intros _ idx. reflexivity. }
  apply Forall_cons in Hall as [Hxy Hall]. cbn [fst snd] in Hxy.
  cbn [scanCells]. rewrite (scanCell_spec sc x y Hwf Hxy).
  cbn [mbind option_bind].
  set (l := sc_level sc) in *.
  destruct (spawnDigit (tileAt l x y)) as [i |] eqn:Hdigit.
  - (* a spawn digit: the tile is cleared and the spawn recorded *)
    destruct (spawnDigit_cases _ _ Hdigit)
      as (_ & c0 & Hc0 & Hwall & _ & Hgate & _).
    assert (Hgrid : inGrid l x y) by (eapply tileAt_inGrid; eauto).
    set (sc1 := mkScan (setTile l x y ".") _ _).
    assert (Htile : forall tx ty,
              tileAt (sc_level sc1) tx ty =
                if decide ((tx, ty) = (x, y)) then Some "."%char
                else tileAt l tx ty)
      by (intros; apply tileAt_setTile; exact Hgrid).
    destruct (IH sc1) as (sc' & Hrun & Hframe & Hwf' & Htiles & Hexits & Hspawns).
    { apply level_wf_setTile. exact Hwf. }
    { eapply Forall_impl; [exact Hall |]. intros c Hc. cbn beta in *.
      unfold sc1. cbn [sc_level]. now rewrite setTile_bounds. }
    exists sc'. split; [exact Hrun |].
    split; [eapply sameFrame_trans; [apply sameFrame_setTile | exact Hframe] |].
    split; [exact Hwf' |]. split; [| split].
    + intros tx ty. rewrite Htiles, Htile.
      destruct (decide ((tx, ty) = (x, y))) as [Heq | Hne].
      * injection Heq as -> ->. rewrite Hdigit.
        rewrite (bool_decide_eq_true_2 ((x, y) ∈ (x, y) :: cells)) by left.
        rewrite (bool_decide_eq_true_2 (is_Some (Some i))) by eauto.
        cbn [andb]. now destruct (_ && _).
      * rewrite (bool_decide_ext ((tx, ty) ∈ (x, y) :: cells)
                                 ((tx, ty) ∈ cells)); [reflexivity |].
        rewrite elem_of_cons. tauto.
    + intros p. rewrite Hexits. unfold sc1 at 1. cbn [sc_exits sc_level].
      f_equal. f_equal. unfold gateCellsIn. cbn [List.filter fst snd].
      rewrite Hgate. rewrite bool_decide_eq_false_2 by discriminate.
      apply filter_agree. intros [tx ty] _. cbn [fst snd].
      fold l. rewrite (Htile tx ty).
      destruct (decide _) as [Heq | _]; [| reflexivity].
      injection Heq as -> ->. rewrite Hgate. reflexivity.
    + intros Hnd idx. apply NoDup_cons in Hnd as [Hfresh Hnd].
      rewrite (Hspawns Hnd idx). unfold sc1 at 2. cbn [sc_spawns].
      assert (Hsame : spawnCellsIn (sc_level sc1) idx cells =
                      spawnCellsIn l idx cells).
      { apply filter_agree. intros [tx ty] Hin. cbn [fst snd].
        rewrite (Htile tx ty).
        destruct (decide _) as [Heq | _]; [| reflexivity].
        injection Heq as -> ->. contradiction. }
      rewrite Hsame. unfold spawnCellsIn at 2. cbn [List.filter fst snd].
      fold (spawnCellsIn l idx cells). rewrite Hdigit.
      destruct (decide (i = idx)) as [-> | Hne].
      * rewrite bool_decide_eq_true_2 by reflexivity.
        rewrite last_cons.
        destruct (last (spawnCellsIn l idx cells));
          [reflexivity | apply lookup_insert_eq].
      * rewrite bool_decide_eq_false_2 by congruence.
        destruct (last (spawnCellsIn l idx cells)); [reflexivity |].
        apply lookup_insert_ne. exact Hne.
  - assert (Hnot : forall idx,
              bool_decide (spawnDigit (tileAt l x y) = Some idx) = false)
      by (intros; rewrite Hdigit; now apply bool_decide_eq_false_2).
    assert (Hcell : forall tx ty,
              bool_decide ((tx, ty) ∈ (x, y) :: cells) &&
              bool_decide (is_Some (spawnDigit (tileAt l tx ty))) =
              bool_decide ((tx, ty) ∈ cells) &&
              bool_decide (is_Some (spawnDigit (tileAt l tx ty)))).
    { intros tx ty. destruct (decide ((tx, ty) = (x, y))) as [Heq | Hne].
      - injection Heq as -> ->. rewrite Hdigit.
        rewrite (bool_decide_eq_false_2 (is_Some None)) by (intros [? ?]; discriminate).
        now rewrite !andb_false_r.
      - rewrite (bool_decide_ext ((tx, ty) ∈ (x, y) :: cells)
                                 ((tx, ty) ∈ cells)); [reflexivity |].
        rewrite elem_of_cons. tauto. }
    destruct (gateLetter (tileAt l x y)) as [q |] eqn:Hgate.
    + (* a gate letter: its corner is appended to the list of its actor *)
      set (sc1 := mkScan l _ _).
      destruct (IH sc1 Hwf Hall)
        as (sc' & Hrun & Hframe & Hwf' & Htiles & Hexits & Hspawns).
      exists sc'. split; [exact Hrun |]. split; [exact Hframe |].
      split; [exact Hwf' |]. split; [| split].
      * intros tx ty. rewrite Htiles. unfold sc1. cbn [sc_level].
        now rewrite Hcell.
      * intros p. rewrite Hexits. unfold sc1. cbn [sc_exits sc_level].
        unfold gateCellsIn at 2. cbn [List.filter fst snd].
        fold (gateCellsIn l p cells). rewrite Hgate.
        destruct (decide (q = p)) as [-> | Hne].
        -- rewrite lookup_insert_eq. cbn [default from_option id].
           rewrite bool_decide_eq_true_2 by reflexivity.
           rewrite fmap_cons, <- app_assoc. reflexivity.
        -- rewrite lookup_insert_ne by exact Hne.
           rewrite bool_decide_eq_false_2 by congruence. reflexivity.
      * intros Hnd idx. apply NoDup_cons in Hnd as [_ Hnd].
        rewrite (Hspawns Hnd idx). unfold sc1. cbn [sc_spawns sc_level].
        unfold spawnCellsIn at 2. cbn [List.filter fst snd].
        now rewrite Hnot.
    + destruct (IH sc Hwf Hall)
        as (sc' & Hrun & Hframe & Hwf' & Htiles & Hexits & Hspawns).
      exists sc'. split; [exact Hrun |]. split; [exact Hframe |].
      split; [exact Hwf' |]. split; [| split].
      * intros tx ty. rewrite Htiles. fold l. now rewrite Hcell.
      * intros p. rewrite Hexits. fold l.
        unfold gateCellsIn at 2. cbn [List.filter fst snd].
        rewrite Hgate. rewrite bool_decide_eq_false_2 by discriminate.
        reflexivity.
      * intros Hnd idx. apply NoDup_cons in Hnd as [_ Hnd].
        rewrite (Hspawns Hnd idx). fold l.
        unfold spawnCellsIn at 2. cbn [List.filter fst snd].
        now rewrite Hnot.
Qed.

Lemma gridCells_digit l tx ty idx :
  spawnDigit (tileAt l tx ty) = Some idx -> (tx, ty) ∈ gridCells l.
Proof.
  intros H. apply gridCells_spec.
  destruct (outOfBounds l tx ty) eqn:Hout; [| reflexivity].
  unfold tileAt in H. rewrite Hout in H. discriminate.
Qed.

Lemma initial_table_lookup {A} (a : A) (idx : Z) :
  (list_to_map [(1, a); (2, a); (3, a); (4, a)] : gmap Z A) !! idx =
  if bool_decide (1 <= idx <= 4) then Some a else None.
Proof.
  change (list_to_map [(1, a); (2, a); (3, a); (4, a)] : gmap Z A)
    with (<[1 := a]> (<[2 := a]> (<[3 := a]> (<[4 := a]> (∅ : gmap Z A))))).
  destruct (decide (idx = 1)) as [-> | H1]; [now rewrite lookup_insert_eq |].
  rewrite lookup_insert_ne by congruence.
  destruct (decide (idx = 2)) as [-> | H2]; [now rewrite lookup_insert_eq |].
  rewrite lookup_insert_ne by congruence.
  destruct (decide (idx = 3)) as [-> | H3]; [now rewrite lookup_insert_eq |].
  rewrite lookup_insert_ne by congruence.
  destruct (decide (idx = 4)) as [-> | H4]; [now rewrite lookup_insert_eq |].
  rewrite lookup_insert_ne by congruence.
  rewrite lookup_empty. rewrite bool_decide_eq_false_2 by lia. reflexivity.
Qed.

(** The whole scan. *)
Lemma findSpawnsAndExits_spec l :
  level_wf l ->
  exists sc,
    findSpawnsAndExits l = Some sc /\
    sameFrame l (sc_level sc) /\
    level_wf (sc_level sc) /\
    (forall tx ty,
       tileAt (sc_level sc) tx ty =
         match spawnDigit (tileAt l tx ty) with
         | Some _ => Some "."%char
         | None => tileAt l tx ty
         end) /\
    (forall p, default [] (sc_exits sc !! p) = tileCorner <$> gateCells l p) /\
    (forall idx,
       sc_spawns sc !! idx =
         match last (spawnCells l idx) with
         | Some c => Some (tileCentre c)
         | None => if bool_decide (1 <= idx <= 4) then Some (mkVec2 TILE TILE)
                   else None
         end).
Proof.
  intros Hwf. unfold findSpawnsAndExits.
  set (sc0 := mkScan l _ _).
  destruct (scanCells_spec (gridCells l) sc0 Hwf)
    as (sc & Hrun & Hframe & Hwf' & Htiles & Hexits & Hspawns).
  { apply Forall_forall. intros [tx ty] Hin. now apply gridCells_spec. }
  exists sc. split; [exact Hrun |]. split; [exact Hframe |].
  split; [exact Hwf' |]. split; [| split].
  - intros tx ty. rewrite Htiles. cbn [sc0 sc_level].
    destruct (spawnDigit (tileAt l tx ty)) as [idx |] eqn:Hd.
    + rewrite bool_decide_eq_true_2
        by (eapply gridCells_digit; cbn [sc0 sc_level]; exact Hd).
      rewrite bool_decide_eq_true_2 by eauto. reflexivity.
    + rewrite (bool_decide_eq_false_2 (is_Some None))
        by (intros [? ?]; discriminate).
      now rewrite andb_false_r.
  - intros p. rewrite Hexits. cbn [sc0 sc_exits sc_level].
    rewrite initial_table_lookup. now destruct (bool_decide _).
  - intros idx. rewrite (Hspawns (NoDup_gridCells l)).
    cbn [sc0 sc_spawns sc_level]. fold (spawnCells l idx).
    now rewrite initial_table_lookup.
Qed.

Lemma Qfloor_half (n : Z) : Qfloor (inject_Z n + (1 # 2)) = n.
Proof.
  pose proof (Qfloor_le (inject_Z n + (1 # 2))) as Hlo.
  pose proof (Qlt_floor (inject_Z n + (1 # 2))) as Hhi.
  set (f := Qfloor (inject_Z n + (1 # 2))) in *.
  assert (H1 : (inject_Z f < inject_Z (n + 1))%Q)
    by (rewrite inject_Z_plus; change (inject_Z 1) with 1%Q; lra).
  assert (H2 : (inject_Z n < inject_Z (f + 1))%Q) by lra.
  rewrite <- Zlt_Qlt in H1, H2. lia.
Qed.

Lemma worldToTile_centre (c : Z * Z) :
  worldToTile (vec_x (tileCentre c)) (vec_y (tileCentre c)) TILE = c.
Proof.
  destruct c as [x y]. unfold worldToTile, tileCentre. cbn [vec_x vec_y fst snd].
  assert (H : forall n, ((inject_Z n * TILE + TILE / 2) / TILE ==
                         inject_Z n + (1 # 2))%Q)
    by (intros n; unfold TILE; field).
  rewrite !H, !Qfloor_half. reflexivity.
Qed.

Lemma elem_of_filter_bool {A} (f : A -> bool) (l : list A) (x : A) :
  x ∈ List.filter f l <-> x ∈ l /\ f x = true.
Proof. rewrite !list_elem_of_In. apply filter_In. Qed.

Lemma createLevel_wf : level_wf createLevel.
Proof. split; [vm_compute; discriminate | reflexivity]. Qed.

(** X23. On a level whose row count is its height, the scan of spawns and
    gates runs to its end.  It leaves the grid size, tile size and door
    flag as they are, replaces each spawn digit by an empty tile and
    changes no other tile; afterwards no tile holds a spawn digit. *)
Theorem scan_clears_spawn_tiles (l : Level.t) :
  level_wf l ->
  exists sc,
    findSpawnsAndExits l = Some sc /\
    sameFrame l (sc_level sc) /\
    (forall tx ty,
       tileAt (sc_level sc) tx ty =
         match spawnDigit (tileAt l tx ty) with
         | Some _ => Some "."%char
         | None => tileAt l tx ty
         end) /\
    (forall tx ty, spawnDigit (tileAt (sc_level sc) tx ty) = None).
Proof.
  intros Hwf.
  destruct (findSpawnsAndExits_spec l Hwf)
    as (sc & Hrun & Hframe & _ & Htiles & _).
  exists sc. split; [exact Hrun |]. split; [exact Hframe |].
  split; [exact Htiles |].
  intros tx ty. rewrite Htiles.
  destruct (spawnDigit (tileAt l tx ty)) eqn:Hd; [reflexivity | exact Hd].
Qed.

Lemma scan_clears_spawn_tiles_witness :
  exists sc,
    findSpawnsAndExits createLevel = Some sc /\
    sameFrame createLevel (sc_level sc) /\
    (forall tx ty,
       tileAt (sc_level sc) tx ty =
         match spawnDigit (tileAt createLevel tx ty) with
         | Some _ => Some "."%char
         | None => tileAt createLevel tx ty
         end) /\
    (forall tx ty, spawnDigit (tileAt (sc_level sc) tx ty) = None).
Proof.
  apply (scan_clears_spawn_tiles createLevel).
  split; [vm_compute; discriminate | reflexivity].
Defined.

(** X24. The exit table built by the scan: the exits of actor [p] are the
    top-left corners of the tiles that hold its gate letter, in scan order
    (row by row, left to right); the gate letters stay in the level. *)
Theorem scan_collects_gates (l : Level.t) :
  level_wf l ->
  exists sc,
    findSpawnsAndExits l = Some sc /\
    forall p,
      default [] (sc_exits sc !! p) = tileCorner <$> gateCells l p /\
      gateCells (sc_level sc) p = gateCells l p.
Proof.
  intros Hwf.
  destruct (findSpawnsAndExits_spec l Hwf)
    as (sc & Hrun & Hframe & _ & Htiles & Hexits & _).
  exists sc. split; [exact Hrun |]. intros p. split; [apply Hexits |].
  unfold gateCells, gateCellsIn.
  assert (Hcells : gridCells (sc_level sc) = gridCells l).
  { destruct Hframe as (Hw & Hh & _). unfold gridCells. now rewrite Hw, Hh. }
  rewrite Hcells. apply filter_agree. intros [tx ty] _. cbn [fst snd].
  rewrite Htiles.
  destruct (spawnDigit (tileAt l tx ty)) as [idx |] eqn:Hd; [| reflexivity].
  destruct (spawnDigit_cases _ _ Hd) as (_ & c & _ & _ & _ & Hg & _).
  rewrite Hg. reflexivity.
Qed.

Lemma scan_collects_gates_witness :
  exists sc,
    findSpawnsAndExits createLevel = Some sc /\
    forall p,
      default [] (sc_exits sc !! p) = tileCorner <$> gateCells createLevel p /\
      gateCells (sc_level sc) p = gateCells createLevel p.
Proof.
  apply (scan_collects_gates createLevel).
  split; [vm_compute; discriminate | reflexivity].
Defined.

(** X25. The spawn table built by the scan, on a level whose tile size is
    the constant [TILE]: actor [idx] spawns at the centre of the last tile
    in scan order that holds its digit, and at [(TILE, TILE)] if there is
    none; only the keys 1 to 4 exist.  A spawn point taken from a digit lies
    on a tile that the scan has emptied. *)
Theorem scan_sets_spawn_points (l : Level.t) :
  level_wf l -> Level.tileSize l = TILE ->
  exists sc,
    findSpawnsAndExits l = Some sc /\
    forall idx,
      sc_spawns sc !! idx =
        match last (spawnCells l idx) with
        | Some c => Some (tileCentre c)
        | None => if bool_decide (1 <= idx <= 4) then Some (mkVec2 TILE TILE)
                  else None
        end /\
      forall c, last (spawnCells l idx) = Some c ->
        spawnDigit (tileAt l c.1 c.2) = Some idx /\
        tileCharAt (sc_level sc) (vec_x (tileCentre c)) (vec_y (tileCentre c))
          = Some "."%char.
Proof.
  intros Hwf Hsize.
  destruct (findSpawnsAndExits_spec l Hwf)
    as (sc & Hrun & Hframe & _ & Htiles & _ & Hspawns).
  exists sc. split; [exact Hrun |]. intros idx. split; [apply Hspawns |].
  intros c Hlast.
  assert (Hc : c ∈ spawnCells l idx).
  { apply last_Some in Hlast as [l' ->]. apply elem_of_app. right. left. }
  apply elem_of_filter_bool in Hc as [_ Hc]. apply bool_decide_eq_true in Hc.
  split; [exact Hc |].
  unfold tileCharAt. destruct Hframe as (_ & _ & Hts & _).
  rewrite Hts, Hsize, worldToTile_centre. destruct c as [x y].
  cbn [fst snd] in Hc. rewrite Htiles, Hc. reflexivity.
Qed.

Lemma scan_sets_spawn_points_witness :
  exists sc,
    findSpawnsAndExits createLevel = Some sc /\
    forall idx,
      sc_spawns sc !! idx =
        match last (spawnCells createLevel idx) with
        | Some c => Some (tileCentre c)
        | None => if bool_decide (1 <= idx <= 4) then Some (mkVec2 TILE TILE)
                  else None
        end /\
      forall c, last (spawnCells createLevel idx) = Some c ->
        spawnDigit (tileAt createLevel c.1 c.2) = Some idx /\
        tileCharAt (sc_level sc) (vec_x (tileCentre c)) (vec_y (tileCentre c))
          = Some "."%char.
Proof.
  apply (scan_sets_spawn_points createLevel).
  - split; [vm_compute; discriminate | reflexivity].
  - reflexivity.
Defined.

(** ** Plates at session start *)

Lemma fold_insert_lookup {A} (f : Z * Z -> A) (cells : list (Z * Z)) :
  forall (m : gmap (Z * Z) A) k,
    foldl (fun m c => <[c := f c]> m) m cells !! k =
    if bool_decide (k ∈ cells) then Some (f k) else m !! k.
Proof.
  induction cells as [| c cells IH]; intros m k; cbn [foldl].
  { rewrite bool_decide_eq_false_2 by apply not_elem_of_nil. reflexivity. }
  rewrite IH. destruct (decide (k ∈ cells)) as [Hin | Hout].
  - rewrite !bool_decide_eq_true_2; [reflexivity | now right | exact Hin].
  - rewrite (bool_decide_eq_false_2 _ Hout).
    destruct (decide (k = c)) as [-> | Hne].
    + rewrite lookup_insert_eq. rewrite bool_decide_eq_true_2 by left.
      reflexivity.
    + rewrite lookup_insert_ne by congruence.
      rewrite bool_decide_eq_false_2; [reflexivity |].
      rewrite elem_of_cons. tauto.
Qed.

Lemma plateCells_spec l tx ty :
  (tx, ty) ∈ plateCells l <-> tileAt l tx ty = Some "P"%char.
Proof.
  unfold plateCells.
  change (y ← seqZ 0 (Level.h l); x ← seqZ 0 (Level.w l); [(x, y)])
    with (gridCells l).
  rewrite elem_of_filter_bool. cbn [fst snd]. rewrite is_ch_true.
  split; [tauto |]. intros H. split; [| exact H].
  apply gridCells_spec.
  destruct (outOfBounds l tx ty) eqn:Hout; [| reflexivity].
  unfold tileAt in H. rewrite Hout in H. discriminate.
Qed.

Lemma initPlates_lookup l tx ty :
  initPlates l !! (tx, ty) =
  if isPlate (tileAt l tx ty) then Some (mkPlateState tx ty false 0) else None.
Proof.
  unfold initPlates.
  rewrite (fold_insert_lookup (fun c => mkPlateState c.1 c.2 false 0)).
  rewrite lookup_empty. unfold isPlate, is_ch.
  apply (f_equal (fun b : bool => if b then _ else _)).
  apply bool_decide_ext. apply plateCells_spec.
Qed.

(** X26. The plate map at session start has exactly one record per plate
    tile, keyed by the tile, holding its coordinates, unpressed, with press
    time 0.  Hence the plate half of the win condition holds at the start
    exactly on a level without plate tiles. *)
Theorem initial_plates_are_the_plate_tiles (l : Level.t) :
  (forall tx ty,
     initPlates l !! (tx, ty) =
     if isPlate (tileAt l tx ty) then Some (mkPlateState tx ty false 0)
     else None) /\
  (allPlatesPressed (initPlates l) = true <->
   forall tx ty, isPlate (tileAt l tx ty) = false).
Proof.
  split; [apply initPlates_lookup |].
  rewrite allPlatesPressed_spec. unfold platesAllPressed. split.
  - intros H tx ty. destruct (isPlate (tileAt l tx ty)) eqn:Hp; [| reflexivity].
    specialize (H (tx, ty) (mkPlateState tx ty false 0)).
    rewrite initPlates_lookup, Hp in H. specialize (H eq_refl). discriminate H.
  - intros H [tx ty] st Hk. rewrite initPlates_lookup, H in Hk. discriminate.
Qed.

(** ** Reset *)

Lemma spawnDigit_unplaceable ch idx :
  spawnDigit ch = Some idx ->
  is_ch ch "." || is_ch ch "O" || is_ch ch "W" || isColoredHole ch = false.
Proof.
  unfold spawnDigit.
  destruct (is_ch ch "1") eqn:H1; [apply is_ch_true in H1; now subst ch |].
  destruct (is_ch ch "2") eqn:H2; [apply is_ch_true in H2; now subst ch |].
  destruct (is_ch ch "3") eqn:H3; [apply is_ch_true in H3; now subst ch |].
  destruct (is_ch ch "4") eqn:H4; [apply is_ch_true in H4; now subst ch |].
  discriminate.
Qed.

Section ResetFacts.

Variable spawns : Z -> Vec2.
Variable controls : Z -> KeyBinding.

Lemma plateCells_agree l l' :
  sameFrame l l' ->
  (forall tx ty, isPlate (tileAt l' tx ty) = isPlate (tileAt l tx ty)) ->
  plateCells l' = plateCells l.
Proof.
  intros (Hw & Hh & _) Hsame. unfold plateCells. rewrite Hw, Hh.
  apply filter_agree. intros [tx ty] _. apply Hsame.
Qed.

(** X27. Reset against mount, for any current key bindings [controls].
    The mount scans the created level, which empties the spawn tiles; a
    reset creates the level anew and does not scan it.  After a reset the
    actors are those of the mount with the current bindings in place of the
    initial ones; the plate map, the platform registry, the press flags and
    the counters are those of the mount, and the game is neither paused nor
    won, whatever dialogs are open.  The two levels differ exactly at the
    spawn tiles, which after a reset still hold their digits: there Earth
    can place a platform at the mount and cannot after a reset.  The
    double-tap marks and the dialog state survive the reset. *)
Theorem reset_differs_from_mount_at_spawn_tiles (now : Q) (g : Game.t) :
  exists sc,
    findSpawnsAndExits createLevel = Some sc /\
    let mount := initGame (sc_level sc) spawns in
    let r := resetGame spawns controls now g in
    let lm := World.level (Game.world mount) in
    let lr := World.level (Game.world r) in
    Game.players r = rebindPlayers controls (Game.players mount) /\
    World.plates (Game.world r) = World.plates (Game.world mount) /\
    World.tempPlatforms (Game.world r) = [] /\
    World.prevActionDown (Game.world r)
      = World.prevActionDown (Game.world mount) /\
    World.deaths (Game.world r) = 0 /\
    Game.paused r = false /\ Game.won r = false /\
    Game.lastTime r = now /\
    World.doubleTap (Game.world r) = World.doubleTap (Game.world g) /\
    Game.modalCount r = Game.modalCount g /\
    Game.showSettings r = Game.showSettings g /\
    Game.showHelp r = Game.showHelp g /\
    sameFrame lm lr /\
    (forall tx ty,
       match spawnDigit (tileAt lr tx ty) with
       | Some _ => tileAt lm tx ty = Some "."%char /\
                   canPlace lm tx ty = true /\ canPlace lr tx ty = false
       | None => tileAt lm tx ty = tileAt lr tx ty
       end) /\
    tileAt lr 2 13 = Some "1"%char.
Proof.
  destruct (findSpawnsAndExits_spec createLevel createLevel_wf)
    as (sc & Hrun & Hframe & _ & Htiles & _).
  exists sc. split; [exact Hrun |]. cbv zeta.
  unfold resetGame, initGame, initWorld. cbv zeta.
  cbn [Game.players Game.world Game.paused Game.won Game.lastTime
       Game.modalCount Game.showSettings Game.showHelp
       World.plates World.tempPlatforms World.prevActionDown World.deaths
       World.doubleTap World.level World.with_doubleTap].
  assert (Hplates : initPlates createLevel = initPlates (sc_level sc)).
  { unfold initPlates. f_equal. symmetry. apply plateCells_agree.
    - exact Hframe.
    - intros tx ty. rewrite Htiles.
      destruct (spawnDigit (tileAt createLevel tx ty)) eqn:Hd; [| reflexivity].
      destruct (spawnDigit_cases _ _ Hd) as (_ & c & _ & _ & _ & _ & ->).
      reflexivity. }
  assert (Hsame : sameFrame (sc_level sc) createLevel).
  { destruct Hframe as (Hw & Hh & Hts & Hd). repeat split; congruence. }
  assert (Hcells : forall tx ty,
            match spawnDigit (tileAt createLevel tx ty) with
            | Some _ => tileAt (sc_level sc) tx ty = Some "."%char /\
                        canPlace (sc_level sc) tx ty = true /\
                        canPlace createLevel tx ty = false
            | None => tileAt (sc_level sc) tx ty = tileAt createLevel tx ty
            end).
  { intros tx ty. unfold canPlace. cbv zeta. rewrite (Htiles tx ty).
    generalize (tileAt createLevel tx ty) as c. intros c.
    destruct (spawnDigit c) eqn:Hd; [| reflexivity].
    split; [reflexivity |]. split; [reflexivity |].
    exact (spawnDigit_unplaceable _ _ Hd). }
  assert (Hone : tileAt createLevel 2 13 = Some "1"%char)
    by (vm_compute; reflexivity).
  split; [reflexivity |]. split; [exact Hplates |].
  do 10 (split; [reflexivity |]).
  split; [exact Hsame |]. split; [exact Hcells | exact Hone].
Qed.

End ResetFacts.

(** ** Sessions *)

Section SessionFacts.

Variable hypot : Q -> Q -> Q.
Variable exits : gmap Z (list Vec2).
Variable spawns : Z -> Vec2.
Variable controls : Z -> KeyBinding.

Lemma loop_frozen t now pressed g :
  Game.paused g = true \/ Game.won g = true ->
  loop hypot exits t now pressed g = Game.with_lastTime t g.
Proof.
  intros H. unfold loop. cbv zeta. cbn [Game.paused Game.won Game.with_lastTime].
  destruct H as [-> | ->]; [reflexivity |]. now rewrite andb_false_r.
Qed.

Lemma handleModalOpenChange_sim next which g :
  Game.world (handleModalOpenChange next which g) = Game.world g /\
  Game.players (handleModalOpenChange next which g) = Game.players g /\
  Game.won (handleModalOpenChange next which g) = Game.won g.
Proof.
  unfold handleModalOpenChange, handleModalOpenChangeWith. cbv zeta.
  destruct (next && _), (negb next && _), which; repeat split; reflexivity.
Qed.

(** X28. A win is final.  Once the game is won, no sequence of frames,
    pause toggles and dialog events changes the world or the actors, and
    the game stays won; in particular un-pausing after the win does not
    resume the simulation.  Only a reset leaves this state. *)
Theorem win_is_final (evs : list Event) (g : Game.t) :
  Game.won g = true ->
  Forall (fun e => isReset e = false) evs ->
  let g' := runEvents hypot exits spawns controls evs g in
  Game.won g' = true /\ Game.world g' = Game.world g /\
  Game.players g' = Game.players g.
Proof.
  intros Hwon Hevs. cbv zeta. revert g Hwon.
  induction Hevs as [| e evs He _ IH]; intros g Hwon; [auto |].
  unfold runEvents in *. cbn [foldl].
  assert (Hstep : Game.won (handleEvent hypot exits spawns controls g e) = true /\
                  Game.world (handleEvent hypot exits spawns controls g e)
                    = Game.world g /\
                  Game.players (handleEvent hypot exits spawns controls g e)
                    = Game.players g).
  { destruct e as [t now pressed | | now | next which]; cbn [handleEvent].
    - rewrite loop_frozen by now right. auto.
    - unfold togglePause. auto.
    - discriminate.
    - destruct (handleModalOpenChange_sim next which g) as (-> & -> & ->).
      auto. }
  destruct Hstep as (Hw & Hs & Hp).
  destruct (IH _ Hw) as (-> & -> & ->). auto.
Qed.

End SessionFacts.

Lemma win_is_final_witness :
  let g := Game.with_won true demoGame in
  let g' := runEvents axisHypot demoExits demoSpawns bindings
              [pauseKey; frame 16 16 {["d"%string]}; dialog true settings;
               dialog false settings; frame 32 32 {["d"%string]}] g in
  Game.won g' = true /\ Game.world g' = Game.world g /\
  Game.players g' = Game.players g.
Proof.
  apply (win_is_final axisHypot demoExits demoSpawns bindings
           [pauseKey; frame 16 16 {["d"%string]}; dialog true settings;
            dialog false settings; frame 32 32 {["d"%string]}]
           (Game.with_won true demoGame)).
  - reflexivity.
  - repeat constructor.
Defined.

(** ** Particles *)

Lemma updateParticlesFrom_spec dt n : forall arr,
  (n <= length arr)%nat ->
  updateParticlesFrom n dt arr =
    Some (omap (particleStep dt) (take n arr) ++ drop n arr).
Proof.
  induction n as [| i IH]; intros arr Hn.
  { cbn [updateParticlesFrom take omap list_omap]. now rewrite drop_0. }
  cbn [updateParticlesFrom].
  destruct (lookup_lt_is_Some_2 arr i) as [p Hp]; [lia |].
  rewrite Hp. cbn [mbind option_bind].
  assert (Hlen : length (take i arr) = i) by (rewrite length_take; lia).
  rewrite (take_S_r arr i p Hp), omap_app.
  cbn [omap list_omap]. unfold particleStep at 2. cbv zeta.
  destruct (Qle_bool _ _).
  - rewrite IH by (rewrite length_delete by eauto; lia).
    rewrite delete_take_drop.
    rewrite (take_app_length' (take i arr)) by (symmetry; exact Hlen).
    rewrite (drop_app_length' (take i arr)) by (symmetry; exact Hlen).
    now rewrite app_nil_r.
  - rewrite IH by (rewrite length_insert; lia).
    rewrite (insert_take_drop arr i) by lia.
    rewrite (take_app_length' (take i arr)) by (symmetry; exact Hlen).
    rewrite (drop_app_length' (take i arr)) by (symmetry; exact Hlen).
    now rewrite <- app_assoc.
Qed.

(** X29. The particle update runs to its end, and although it walks the
    array backwards and splices while walking, it treats every particle
    exactly once: the result is the array with each particle aged, the
    expired ones dropped and the others moved, in the same order.  The
    trim leaves the last 4000 particles, or all of them if there are
    fewer. *)
Theorem particles_updated_once_and_capped (dt : Q) (arr : list Particle.t) :
  updateParticles dt arr = Some (omap (particleStep dt) arr) /\
  Z.of_nat (length (trimParticles arr))
    = Z.min (Z.of_nat (length arr)) MAX_PARTICLES /\
  exists old, arr = old ++ trimParticles arr.
Proof.
  split; [| split].
  - unfold updateParticles. rewrite updateParticlesFrom_spec by lia.
    rewrite firstn_all, drop_all, app_nil_r. reflexivity.
  - unfold trimParticles, MAX_PARTICLES.
    destruct (Z.gtb_spec (Z.of_nat (length arr)) 4000).
    + rewrite length_drop. lia.
    + lia.
  - unfold trimParticles. destruct (_ >? _).
    + eexists. symmetry. apply take_drop.
    + exists []. reflexivity.
Qed.

(** ** Colours *)

Lemma decDigit_range c d : decDigit c = Some d -> 0 <= d <= 9.
Proof.
  unfold decDigit. cbv zeta.
  destruct (Z.leb_spec 48 (Z.of_N (N_of_ascii c)));
    destruct (Z.leb_spec (Z.of_N (N_of_ascii c)) 57); cbn [andb];
    intros [= <-]; lia.
Qed.

Lemma decDigit_zero c : decDigit c = Some 0 <-> c = "0"%char.
Proof.
  split; [| intros ->; reflexivity].
  unfold decDigit. cbv zeta.
  destruct (_ && _); [| discriminate]. intros [= H].
  assert (HN : N_of_ascii c = 48%N) by lia.
  rewrite <- (ascii_N_embedding c), HN. reflexivity.
Qed.

Lemma hexDigit_cases c v :
  hexDigit c = Some v ->
  (decDigit c = Some v /\ 0 <= v <= 9) \/ (decDigit c = None /\ 10 <= v <= 15).
Proof.
  unfold hexDigit. cbv zeta.
  destruct (decDigit c) as [d |] eqn:Hd.
  - intros [= <-]. left. split; [reflexivity |]. eapply decDigit_range, Hd.
  - intros H. right. split; [reflexivity |].
    destruct (Z.leb_spec 97 (Z.of_N (N_of_ascii c)));
      destruct (Z.leb_spec (Z.of_N (N_of_ascii c)) 102); cbn [andb] in H;
      try (injection H as <-; lia);
      destruct (Z.leb_spec 65 (Z.of_N (N_of_ascii c)));
      destruct (Z.leb_spec (Z.of_N (N_of_ascii c)) 70); cbn [andb] in H;
      try discriminate; injection H as <-; lia.
Qed.

(** X30. The colour parser reads the blue channel in decimal.  On a colour
    of six hexadecimal digits, with or without the leading [#], red and
    green are the values of their two digits in base 16.  Blue is NaN when
    its first digit is a letter, the value of the first digit alone when
    only the second is a letter, and the two digits read in base 10
    otherwise; it is the base-16 value only when its first digit is 0 and
    its second a decimal digit. *)
Theorem blue_channel_is_read_in_decimal (hash : bool)
    (r1 r2 g1 g2 b1 b2 : ascii) (vr1 vr2 vg1 vg2 vb1 vb2 : Z) :
  hexDigit r1 = Some vr1 -> hexDigit r2 = Some vr2 ->
  hexDigit g1 = Some vg1 -> hexDigit g2 = Some vg2 ->
  hexDigit b1 = Some vb1 -> hexDigit b2 = Some vb2 ->
  let body := [r1; r2; g1; g2; b1; b2] in
  let c := hexToRgb (if hash then "#"%char :: body else body) in
  rgb_r c = Some (16 * vr1 + vr2) /\
  rgb_g c = Some (16 * vg1 + vg2) /\
  rgb_b c = match decDigit b1, decDigit b2 with
            | None, _ => None
            | Some d1, None => Some d1
            | Some d1, Some d2 => Some (10 * d1 + d2)
            end /\
  (rgb_b c = Some (16 * vb1 + vb2) <-> b1 = "0"%char /\ is_Some (decDigit b2)).
Proof.
  intros Hr1 Hr2 Hg1 Hg2 Hb1 Hb2 body c.
  assert (Hc : c = mkRgb (Some (16 * vr1 + vr2)) (Some (16 * vg1 + vg2))
                         (parseInt 10 decDigit [b1; b2])).
  { assert (Hbody : hexToRgb body =
                    mkRgb (Some (16 * vr1 + vr2)) (Some (16 * vg1 + vg2))
                          (parseInt 10 decDigit [b1; b2])).
    { unfold hexToRgb, body. cbv zeta.
      assert (Hr1' : r1 <> "#"%char) by (intros ->; discriminate Hr1).
      destruct (ascii_dec r1 "#") as [Heq | _]; [contradiction |].
      replace (match r1 with
               | "#"%char => [r2; g1; g2; b1; b2]
               | _ => [r1; r2; g1; g2; b1; b2]
               end) with [r1; r2; g1; g2; b1; b2].
      2:{ destruct r1 as [[] [] [] [] [] [] [] []]; try reflexivity.
          contradiction. }
      cbn [forallb]. rewrite Hr1, Hr2, Hg1, Hg2, Hb1, Hb2.
      rewrite !bool_decide_eq_true_2 by eauto. cbn [andb].
      unfold parseInt at 1 2. cbn [digitsPrefix].
      rewrite Hr1, Hr2, Hg1, Hg2. cbn [foldl].
      f_equal; f_equal; lia. }
    unfold c. destruct hash; [| exact Hbody].
    unfold hexToRgb, body. cbv zeta.
    cbn [forallb]. rewrite Hr1, Hr2, Hg1, Hg2, Hb1, Hb2.
    rewrite !bool_decide_eq_true_2 by eauto. cbn [andb].
    unfold parseInt at 1 2. cbn [digitsPrefix].
    rewrite Hr1, Hr2, Hg1, Hg2. cbn [foldl].
    f_equal; f_equal; lia. }
  rewrite Hc. cbn [rgb_r rgb_g rgb_b]. clear c Hc.
  split; [reflexivity |]. split; [reflexivity |].
  unfold parseInt. cbn [digitsPrefix].
  destruct (hexDigit_cases _ _ Hb1) as [[Hd1 Hv1] | [Hd1 Hv1]];
    destruct (hexDigit_cases _ _ Hb2) as [[Hd2 Hv2] | [Hd2 Hv2]];
    rewrite Hd1, ?Hd2; cbn [foldl].
  - split; [f_equal; lia |]. split.
    + intros [= H]. split; [| eauto]. apply decDigit_zero.
      rewrite Hd1. f_equal. lia.
    + intros [Hz _]. apply decDigit_zero in Hz. f_equal.
      assert (vb1 = 0) by congruence. lia.
  - split; [f_equal; lia |]. split.
    + intros [= H]. lia.
    + intros [_ [? ?]]. discriminate.
  - split; [reflexivity |]. split; [discriminate |].
    intros [Hz _]. apply decDigit_zero in Hz. congruence.
  - split; [reflexivity |]. split; [discriminate |].
    intros [Hz _]. apply decDigit_zero in Hz. congruence.
Qed.

Lemma blue_channel_is_read_in_decimal_witness :
  let c := hexToRgb (list_ascii_of_string "#f97316") in
  rgb_r c = Some 249 /\ rgb_g c = Some 115 /\ rgb_b c = Some 16 /\
  (rgb_b c = Some 22 <-> "1"%char = "0"%char /\ is_Some (decDigit "6")).
Proof.
  apply (blue_channel_is_read_in_decimal true "f" "9" "7" "3" "1" "6"
           15 9 7 3 1 6); reflexivity.
Defined.
